(** * The star-catching motion engine

    A shallow embedding of the two [GameEngine] classes of the repository
    (the camera-only engine of [src/index.tsx] and the engine with a touch
    fallback of [src/unnamed/part_001]) and the proofs of their lifecycle,
    scoring, spawning and hit-testing properties.

    Conventions of the embedding:
    - a JavaScript [number] that holds a fractional quantity (star position,
      scale, pointer position) is an IEEE-754 binary64 value, Rocq's
      primitive [float]; the operations are the primitive ones, so the model
      evaluates like the engine does;
    - a JavaScript [number] that only ever holds an integer ([Date.now()],
      the score, grid indices, colour channels) is a [Z]; such values are
      exact in binary64 below [2^53];
    - [undefined] read from a typed array out of range is [None]; arithmetic
      on it is [NaN], which fails every comparison;
    - the effects of one handler (sound, drawing, scheduling) are the list
      of [Event]s it returns, in program order. *)

From Stdlib Require Import ZArith Lia List Bool String Sorted.
From Stdlib Require Import Floats.PrimFloat Floats.FloatOps Floats.SpecFloat.
From Stdlib Require Import Uint63.
From stdpp Require Import base list.
Import ListNotations.

Set Warnings "-inexact-float".
Open Scope Z_scope.

(** ** JavaScript numbers *)

Module JS.

(** An integer-valued number as a binary64 value (canvas dimensions are
    unsigned 32-bit, so the conversion is exact). *)
Definition ofZ (z : Z) : float := PrimFloat.of_uint63 (Uint63.of_Z z).

(** [Math.floor]: [None] stands for the results [NaN], [Infinity] and
    [-Infinity], which fail every bounds test made on grid indices. *)
Definition floor (f : float) : option Z :=
  match Prim2SF f with
  | S754_zero _ => Some 0
  | S754_finite s m e => Some (Z.shiftl (if s then Z.neg m else Z.pos m) e)
  | S754_infinity _ => None
  | S754_nan => None
  end.

(** [a !== b] on numbers. *)
Definition strictNe (a b : float) : bool := negb (PrimFloat.eqb a b).

(** Truthiness of an element read from a [Uint8Array]. *)
Definition truthy (v : option Z) : bool :=
  match v with
  | Some n => negb (n =? 0)
  | None => false
  end.

End JS.

(** ** Data model *)

Module Star.

Record t := mk {
  id : Z;
  x : float;
  y : float;
  size : float;
  hue : float;
  active : bool;
  collected : bool;
  scale : float
}.

Definition setScale (s : t) (v : float) : t :=
  mk (id s) (x s) (y s) (size s) (hue s) (active s) (collected s) v.

Definition setSize (s : t) (v : float) : t :=
  mk (id s) (x s) (y s) v (hue s) (active s) (collected s) (scale s).

Definition setCollected (s : t) (b : bool) : t :=
  mk (id s) (x s) (y s) (size s) (hue s) (active s) b (scale s).

Definition setActive (s : t) (b : bool) : t :=
  mk (id s) (x s) (y s) (size s) (hue s) b (collected s) (scale s).

End Star.

(** The [motionCanvas] element: its dimensions come from the page markup,
    which is not among the sources; [getImageData] requires both to be
    non-zero, hence [positive].  [data] is the RGBA backing store. *)
Module Canvas.

Record t := mk {
  width : positive;
  height : positive;
  data : list Z
}.

End Canvas.

(** What one run of [gameLoop] reads from its environment: the clock, the
    video element ([readyState], and the bytes that drawing its current
    frame, mirrored, onto the motion canvas yields) and the four
    [Math.random()] draws of a spawn, in call order. *)
Module Env.

Record t := mk {
  now : Z;
  readyState : Z;
  videoFrame : list Z;
  randomX : float;
  randomY : float;
  randomSize : float;
  randomHue : float
}.

End Env.

(** The result of [detectMotion]. *)
Module Motion.

Record t := mk {
  motionMap : list Z;
  width : Z;
  height : Z
}.

Definition empty : t := mk [] 0 0.

End Motion.

Inductive HitSource := Pointer | Camera.

(** Observable effects, in program order: [Spawn] is [stars.push], [Collect]
    is the pair [updateScoreUI(); playCollectSound()] of a collection (the
    source tag records which of the two checks set [isHit]), [Draw] is the
    drawing block executed for a star, [RequestFrame] is
    [requestAnimationFrame]. *)
Inductive Event :=
| Spawn (s : Star.t)
| Collect (id : Z) (src : HitSource)
| Draw (s : Star.t)
| RequestFrame.

Definition collectIds (log : list Event) : list Z :=
  flat_map (fun ev => match ev with Collect i _ => [i] | _ => [] end) log.

Definition pointerCollectIds (log : list Event) : list Z :=
  flat_map (fun ev => match ev with Collect i Pointer => [i] | _ => [] end) log.

Definition cameraCollectIds (log : list Event) : list Z :=
  flat_map (fun ev => match ev with Collect i Camera => [i] | _ => [] end) log.

Definition spawnIds (log : list Event) : list Z :=
  flat_map (fun ev => match ev with Spawn s => [Star.id s] | _ => [] end) log.

Definition drawIds (log : list Event) : list Z :=
  flat_map (fun ev => match ev with Draw s => [Star.id s] | _ => [] end) log.

Definition requestsFrame (log : list Event) : bool :=
  existsb (fun ev => match ev with RequestFrame => true | _ => false end) log.

(** ** [Array.prototype.filter] with a callback that has effects

    The callback reads and writes the engine ([this]) and the element it is
    given; it returns the engine after it, the element after it, its result
    and its effects.  The elements are visited in order, and those for which
    the callback returned [true] are kept, as mutated. *)

Section ArrayFilter.

Context {E A : Type}.
Variable callback : E -> A -> E * A * bool * list Event.

Fixpoint filterWith (e : E) (l : list A) : E * list A * list Event :=
  match l with
  | [] => (e, [], [])
  | a :: rest =>
      let '(e1, a', keep, ev) := callback e a in
      let '(e2, kept, evs) := filterWith e1 rest in
      (e2, if keep then a' :: kept else kept, ev ++ evs)
  end.

End ArrayFilter.

(** ** Frame differencing (shared by both engines) *)

Section MotionMask.

(** The engines differ in [GESTURE_THRESHOLD] only. *)
Variable threshold : Z.

Definition absDiff (c p : option Z) : option Z :=
  match c, p with
  | Some a, Some b => Some (Z.abs (a - b))
  | _, _ => None
  end.

(** The sum of the three channel differences at byte offset [i]; [None]
    is [NaN]. *)
Definition sumDiff (cur prev : list Z) (i : nat) : option Z :=
  match absDiff (cur !! i) (prev !! i),
        absDiff (cur !! (i + 1)%nat) (prev !! (i + 1)%nat),
        absDiff (cur !! (i + 2)%nat) (prev !! (i + 2)%nat) with
  | Some r, Some g, Some b => Some (r + g + b)
  | _, _, _ => None
  end.

(** [diff > GESTURE_THRESHOLD]. *)
Definition exceeds (d : option Z) : bool :=
  match d with
  | Some v => threshold <? v
  | None => false
  end.

(** The values of [i] visited by [for (i = 0; i < len; i += 4)]. *)
Definition loopIndices (len : nat) : list nat :=
  map (fun k => (4 * k)%nat) (seq 0 (Nat.div (len + 3) 4)).

Definition motionStep (cur prev : list Z) (mm : list Z) (i : nat) : list Z :=
  if exceeds (sumDiff cur prev i) then <[Nat.div i 4 := 1]> mm else mm.

Definition motionLoop (cur prev : list Z) (mm : list Z) : list Z :=
  fold_left (motionStep cur prev) (loopIndices (length cur)) mm.

(** [new Uint8Array(width * height)] filled by the loop when a previous
    frame exists. *)
Definition motionMapOf (cur : list Z) (prev : option (list Z)) (w h : Z) : list Z :=
  let blank := replicate (Z.to_nat (w * h)) 0 in
  match prev with
  | Some p => motionLoop cur p blank
  | None => blank
  end.

End MotionMask.

(** The number of motion-flagged cells of a mask. *)
Definition flaggedCount (mm : list Z) : nat :=
  length (List.filter (fun v => JS.truthy (Some v)) mm).

(** [drawImage(video, ...)] paints only when the video has a current frame
    ([readyState >= HAVE_CURRENT_DATA = 2]); otherwise the platform leaves
    the canvas as it is. *)
Definition drawImage (c : Canvas.t) (env : Env.t) : Canvas.t :=
  if 2 <=? Env.readyState env
  then Canvas.mk (Canvas.width c) (Canvas.height c) (Env.videoFrame env)
  else c.

(** ** Neighbourhood hit count (shared by both engines) *)

Section HitCount.

Variable r : Z.
Variables (motionMap : list Z) (mw mh : Z).

(** The offsets [-r .. r] of the two nested loops. *)
Definition offsets : list Z :=
  map (fun k => Z.of_nat k - r) (seq 0 (Z.to_nat (2 * r + 1))).

Definition flagged (gx gy : Z) : bool :=
  (0 <=? gx) && (gx <? mw) && (0 <=? gy) && (gy <? mh)
  && JS.truthy (motionMap !! Z.to_nat (gy * mw + gx)).

Definition countRow (gridX gy : Z) (hits : Z) : Z :=
  fold_left (fun h dx => if flagged (gridX + dx) gy then h + 1 else h) offsets hits.

Definition countHits (gridX gridY : Z) : Z :=
  fold_left (fun h dy => countRow gridX (gridY + dy) h) offsets 0.

(** The cells of the square neighbourhood, row by row. *)
Definition neighbourhood (gridX gridY : Z) : list (Z * Z) :=
  flat_map (fun dy => map (fun dx => (gridX + dx, gridY + dy)) offsets) offsets.

End HitCount.

(** The hit count at a star: its position mapped onto the grid with
    [Math.floor]. *)
Definition starHits (r : Z) (m : Motion.t) (s : Star.t) : Z :=
  match JS.floor (Star.x s * JS.ofZ (Motion.width m))%float,
        JS.floor (Star.y s * JS.ofZ (Motion.height m))%float with
  | Some gridX, Some gridY =>
      countHits r (Motion.motionMap m) (Motion.width m) (Motion.height m) gridX gridY
  | _, _ => 0
  end.

(** ** The engine with a touch fallback ([src/unnamed/part_001]) *)

Module Fallback.

Definition GESTURE_THRESHOLD : Z := 35.

(** The three reasons [setFallbackMode] is called with: "浏览器不支持摄像头",
    "未检测到摄像头" and "权限受限". *)
Inductive Reason := Unsupported | NoCamera | Restricted.

Record Engine := mkEngine {
  motionCanvas : Canvas.t;
  videoHidden : bool;
  notice : option Reason;
  prevFrame : option (list Z);
  score : Z;
  stars : list Star.t;
  lastStarTime : Z;
  isPlaying : bool;
  cameraActive : bool;
  lastTouchX : float;
  lastTouchY : float
}.

(** The state the field initialisers and the constructor leave. *)
Definition new (c : Canvas.t) : Engine :=
  mkEngine c false None None 0 [] 0 false false (-1)%float (-1)%float.

Definition withMotion (e : Engine) (c : Canvas.t) (p : option (list Z)) : Engine :=
  mkEngine c (videoHidden e) (notice e) p (score e) (stars e) (lastStarTime e)
           (isPlaying e) (cameraActive e) (lastTouchX e) (lastTouchY e).

Definition withStars (e : Engine) (l : list Star.t) : Engine :=
  mkEngine (motionCanvas e) (videoHidden e) (notice e) (prevFrame e) (score e) l
           (lastStarTime e) (isPlaying e) (cameraActive e) (lastTouchX e) (lastTouchY e).

Definition pushStar (e : Engine) (s : Star.t) (t : Z) : Engine :=
  mkEngine (motionCanvas e) (videoHidden e) (notice e) (prevFrame e) (score e)
           (stars e ++ [s]) t (isPlaying e) (cameraActive e) (lastTouchX e) (lastTouchY e).

(** [this.score += 10; ...; this.lastTouchX = -1; this.lastTouchY = -1]. *)
Definition award (e : Engine) : Engine :=
  mkEngine (motionCanvas e) (videoHidden e) (notice e) (prevFrame e) (score e + 10)
           (stars e) (lastStarTime e) (isPlaying e) (cameraActive e) (-1)%float (-1)%float.

Definition withTouch (e : Engine) (tx ty : float) : Engine :=
  mkEngine (motionCanvas e) (videoHidden e) (notice e) (prevFrame e) (score e)
           (stars e) (lastStarTime e) (isPlaying e) (cameraActive e) tx ty.

Definition withCamera (e : Engine) (b : bool) : Engine :=
  mkEngine (motionCanvas e) (videoHidden e) (notice e) (prevFrame e) (score e)
           (stars e) (lastStarTime e) (isPlaying e) b (lastTouchX e) (lastTouchY e).

(** *** Initialisation *)

(** A promise settles with a value or with an error, of which the code
    reads the [name]. *)
Inductive Outcome (A : Type) :=
| Resolved (a : A)
| Rejected (name : string).
Arguments Resolved {A} a.
Arguments Rejected {A} name.

(** What the platform answers during [init]: whether
    [navigator.mediaDevices.getUserMedia] exists, the constrained and the
    unconstrained request (the value is the truthiness of the stream) and
    [video.play()]. *)
Record Probe := mkProbe {
  hasGetUserMedia : bool;
  firstRequest : Outcome bool;
  secondRequest : Outcome bool;
  play : Outcome unit
}.

Definition setFallbackMode (e : Engine) (reason : Reason) : Engine :=
  mkEngine (motionCanvas e) true (Some reason) (prevFrame e) (score e) (stars e)
           (lastStarTime e) (isPlaying e) false (lastTouchX e) (lastTouchY e).

(** [getUserMedia(...).catch(async () => getUserMedia({ video: true }))]. *)
Definition acquire (p : Probe) : Outcome bool :=
  match firstRequest p with
  | Resolved stream => Resolved stream
  | Rejected _ => secondRequest p
  end.

(** The body of the [try]. *)
Definition tryCamera (e : Engine) (p : Probe) : Outcome Engine :=
  match acquire p with
  | Rejected name => Rejected name
  | Resolved stream =>
      if stream then
        match play p with
        | Resolved _ => Resolved (withCamera e true)
        | Rejected name => Rejected name
        end
      else Resolved e
  end.

Definition init (e : Engine) (p : Probe) : Outcome Engine :=
  if negb (hasGetUserMedia p) then Resolved (setFallbackMode e Unsupported)
  else
    match tryCamera e p with
    | Resolved e' => Resolved e'
    | Rejected name =>
        Resolved (setFallbackMode e
                    (if String.eqb name "NotFoundError" then NoCamera else Restricted))
    end.

(** Camera acquisition succeeded: a stream was obtained and plays. *)
Definition acquired (p : Probe) : bool :=
  hasGetUserMedia p &&
  match acquire p, play p with
  | Resolved true, Resolved _ => true
  | _, _ => false
  end.

(** *** Pointer input *)

Inductive DomEvent :=
| TouchStart (clientX clientY : float)
| TouchMove (clientX clientY : float)
| MouseDown (clientX clientY : float)
| MouseMove (buttons : Z) (clientX clientY : float).

Definition handleInteraction (e : Engine) (clientX clientY innerWidth innerHeight : float)
  : Engine :=
  if negb (isPlaying e) then e
  else withTouch e (clientX / innerWidth)%float (clientY / innerHeight)%float.

Definition dispatch (e : Engine) (ev : DomEvent) (innerWidth innerHeight : float) : Engine :=
  match ev with
  | TouchStart cx cy => handleInteraction e cx cy innerWidth innerHeight
  | TouchMove cx cy => handleInteraction e cx cy innerWidth innerHeight
  | MouseDown cx cy => handleInteraction e cx cy innerWidth innerHeight
  | MouseMove buttons cx cy =>
      if 0 <? buttons then handleInteraction e cx cy innerWidth innerHeight else e
  end.

(** *** One frame *)

Definition detectMotion (e : Engine) (env : Env.t) : Engine * Motion.t :=
  if negb (cameraActive e) || (Env.readyState env <? 2) then (e, Motion.empty)
  else
    let c := drawImage (motionCanvas e) env in
    let currentFrame := Canvas.data c in
    let width := Z.pos (Canvas.width c) in
    let height := Z.pos (Canvas.height c) in
    let motionMap := motionMapOf GESTURE_THRESHOLD currentFrame (prevFrame e) width height in
    (withMotion e c (Some currentFrame), Motion.mk motionMap width height).

Definition newStar (env : Env.t) : Star.t :=
  Star.mk (Env.now env)
          (0.15 + Env.randomX env * 0.7)%float
          (0.2 + Env.randomY env * 0.6)%float
          (30 + Env.randomSize env * 30)%float
          (Env.randomHue env * 360)%float
          true false 0%float.

Definition activeCount (l : list Star.t) : Z :=
  Z.of_nat (length (List.filter Star.active l)).

Definition spawnStar (e : Engine) (env : Env.t) : Engine * list Event :=
  let now := Env.now env in
  if (1000 <? now - lastStarTime e) && (activeCount (stars e) <? 6)
  then (pushStar e (newStar env) now, [Spawn (newStar env)])
  else (e, []).

(** Check 1 of the callback: the pointer. *)
Definition pointerHit (e : Engine) (s : Star.t) : bool :=
  if JS.strictNe (lastTouchX e) (-1)%float then
    let dx := (Star.x s - lastTouchX e)%float in
    let dy := (Star.y s - lastTouchY e)%float in
    let dist := PrimFloat.sqrt (dx * dx + dy * dy)%float in
    (dist <? 0.15)%float
  else false.

(** Check 2 of the callback, entered with the current value of [isHit]. *)
Definition cameraCheck (e : Engine) (m : Motion.t) (s : Star.t) (isHit : bool) : bool :=
  if negb isHit && cameraActive e && (0 <? Motion.width m)
  then (if 4 <? starHits 2 m s then true else isHit)
  else isHit.

Definition isHit (e : Engine) (m : Motion.t) (s : Star.t) : bool :=
  cameraCheck e m s (pointerHit e s).

Definition fadeIn (s : Star.t) : Star.t :=
  if negb (Star.collected s) && (Star.scale s <? 1)%float
  then Star.setScale s (Star.scale s + 0.1)%float
  else s.

Definition burst (s : Star.t) : Star.t :=
  if Star.collected s then
    let s1 := Star.setScale s (Star.scale s + 0.2)%float in
    if (4 <? Star.scale s1)%float then Star.setActive s1 false else s1
  else s.

(** The callback given to [this.stars.filter]: the engine after it, the
    star after it, the value returned and the effects. *)
Definition visit (e : Engine) (m : Motion.t) (s : Star.t)
  : Engine * Star.t * bool * list Event :=
  if negb (Star.active s) then (e, s, false, [])
  else
    let s1 := fadeIn s in
    let hit := isHit e m s1 in
    let '(e1, s2, ev) :=
      if hit && negb (Star.collected s1)
      then (award e, Star.setCollected s1 true,
            [Collect (Star.id s1) (if pointerHit e s1 then Pointer else Camera)])
      else (e, s1, []) in
    let s3 := burst s2 in
    (e1, s3, Star.active s3, ev ++ [Draw s3]).

(** [this.stars.filter(star => ...)]. *)
Definition filterStars (e : Engine) (m : Motion.t) (l : list Star.t)
  : Engine * list Star.t * list Event :=
  filterWith (fun e s => visit e m s) e l.

Definition gameLoop (e : Engine) (env : Env.t) : Engine * list Event :=
  if negb (isPlaying e) then (e, [])
  else
    let '(e1, m) := detectMotion e env in
    let '(e2, spawned) := spawnStar e1 env in
    let '(e3, kept, evs) := filterStars e2 m (stars e2) in
    (withStars e3 kept, spawned ++ evs ++ [RequestFrame]).

(** [start()], entered from the start button. *)
Definition begin (e : Engine) : Engine :=
  mkEngine (motionCanvas e) (videoHidden e) (notice e) (prevFrame e) 0 []
           (lastStarTime e) true (cameraActive e) (lastTouchX e) (lastTouchY e).

Definition start (e : Engine) (env : Env.t) : Engine * list Event :=
  if isPlaying e then (e, []) else gameLoop (begin e) env.

(** *** Sessions *)

Inductive Input :=
| Click (env : Env.t)
| Dom (ev : DomEvent) (innerWidth innerHeight : float)
| Frame (env : Env.t).

(** What one input does: the engine after it and its effects. *)
Definition react (e : Engine) (i : Input) : Engine * list Event :=
  match i with
  | Click env => start e env
  | Dom ev w h => (dispatch e ev w h, [])
  | Frame env => gameLoop e env
  end.

(** A click opens a session when [start] passes its guard. *)
Definition opens (e : Engine) (i : Input) : bool :=
  match i with
  | Click _ => negb (isPlaying e)
  | _ => false
  end.

(** The engine together with the effects of the current session. *)
Definition step (st : Engine * list Event) (i : Input) : Engine * list Event :=
  let '(e, log) := st in
  let '(e', evs) := react e i in
  (e', if opens e i then evs else log ++ evs).

Definition run (st : Engine * list Event) (inputs : list Input) : Engine * list Event :=
  fold_left step inputs st.

(** All the effects of a sequence of inputs, sessions apart. *)
Fixpoint emitted (e : Engine) (inputs : list Input) : list Event :=
  match inputs with
  | [] => []
  | i :: rest => let '(e', evs) := react e i in evs ++ emitted e' rest
  end.

(** The page: construction, [init], then whatever the user and the
display do.  [init] never rejects; the second branch is there for
totality only. *)
Definition boot (c : Canvas.t) (p : Probe) : Engine :=
  match init (new c) p with
  | Resolved e => e
  | Rejected _ => new c
  end.

Definition session (c : Canvas.t) (p : Probe) (inputs : list Input) : Engine * list Event :=
  run (boot c p, []) inputs.

End Fallback.

(** ** The camera-only engine ([src/index.tsx]) *)

Module CameraOnly.

Definition GESTURE_THRESHOLD : Z := 40.

Record Engine := mkEngine {
  motionCanvas : Canvas.t;
  prevFrame : option (list Z);
  score : Z;
  stars : list Star.t;
  lastStarTime : Z;
  isPlaying : bool
}.

Definition new (c : Canvas.t) : Engine := mkEngine c None 0 [] 0 false.

Definition withMotion (e : Engine) (c : Canvas.t) (p : option (list Z)) : Engine :=
  mkEngine c p (score e) (stars e) (lastStarTime e) (isPlaying e).

Definition withStars (e : Engine) (l : list Star.t) : Engine :=
  mkEngine (motionCanvas e) (prevFrame e) (score e) l (lastStarTime e) (isPlaying e).

Definition pushStar (e : Engine) (s : Star.t) (t : Z) : Engine :=
  mkEngine (motionCanvas e) (prevFrame e) (score e) (stars e ++ [s]) t (isPlaying e).

(** [this.score += 10]. *)
Definition award (e : Engine) : Engine :=
  mkEngine (motionCanvas e) (prevFrame e) (score e + 10) (stars e) (lastStarTime e)
           (isPlaying e).

(** *** One frame *)

Definition detectMotion (e : Engine) (env : Env.t) : Engine * Motion.t :=
  let c := drawImage (motionCanvas e) env in
  let currentFrame := Canvas.data c in
  let width := Z.pos (Canvas.width c) in
  let height := Z.pos (Canvas.height c) in
  let motionMap := motionMapOf GESTURE_THRESHOLD currentFrame (prevFrame e) width height in
  (withMotion e c (Some currentFrame), Motion.mk motionMap width height).

Definition newStar (env : Env.t) : Star.t :=
  Star.mk (Env.now env)
          (0.15 + Env.randomX env * 0.7)%float
          (0.2 + Env.randomY env * 0.6)%float
          (40 + Env.randomSize env * 30)%float
          (Env.randomHue env * 360)%float
          true false 0%float.

Definition activeCount (l : list Star.t) : Z :=
  Z.of_nat (length (List.filter Star.active l)).

Definition spawnStar (e : Engine) (env : Env.t) : Engine * list Event :=
  let now := Env.now env in
  if (1500 <? now - lastStarTime e) && (activeCount (stars e) <? 5)
  then (pushStar e (newStar env) now, [Spawn (newStar env)])
  else (e, []).

Definition radius : Z := 3.

(** [motionHits > (radius * 2 + 1) * 2]. *)
Definition isHit (m : Motion.t) (s : Star.t) : bool :=
  (radius * 2 + 1) * 2 <? starHits radius m s.

Definition fadeIn (s : Star.t) : Star.t :=
  if negb (Star.collected s) && (Star.scale s <? 1)%float
  then Star.setScale s (Star.scale s + 0.05)%float
  else s.

Definition burst (s : Star.t) : Star.t :=
  if Star.collected s then
    let s1 := Star.setScale s (Star.scale s + 0.2)%float in
    let s2 := Star.setSize s1 (Star.size s1 + 5)%float in
    if (3 <? Star.scale s2)%float then Star.setActive s2 false else s2
  else s.

Definition visit (e : Engine) (m : Motion.t) (s : Star.t)
  : Engine * Star.t * bool * list Event :=
  if negb (Star.active s) then (e, s, false, [])
  else
    let s1 := fadeIn s in
    let '(e1, s2, ev) :=
      if isHit m s1 && negb (Star.collected s1)
      then (award e, Star.setCollected s1 true, [Collect (Star.id s1) Camera])
      else (e, s1, []) in
    let s3 := burst s2 in
    (e1, s3, Star.active s3, ev ++ [Draw s3]).

(** [this.stars.filter(star => ...)]. *)
Definition filterStars (e : Engine) (m : Motion.t) (l : list Star.t)
  : Engine * list Star.t * list Event :=
  filterWith (fun e s => visit e m s) e l.

Definition gameLoop (e : Engine) (env : Env.t) : Engine * list Event :=
  if negb (isPlaying e) then (e, [])
  else
    let '(e1, m) := detectMotion e env in
    let '(e2, spawned) := spawnStar e1 env in
    let '(e3, kept, evs) := filterStars e2 m (stars e2) in
    (withStars e3 kept, spawned ++ evs ++ [RequestFrame]).

Definition begin (e : Engine) : Engine :=
  mkEngine (motionCanvas e) (prevFrame e) 0 [] (lastStarTime e) true.

(** [start()] has no guard here: every click opens a session. *)
Definition start (e : Engine) (env : Env.t) : Engine * list Event :=
  gameLoop (begin e) env.

(** *** Sessions *)

Inductive Input :=
| Click (env : Env.t)
| Frame (env : Env.t).

Definition react (e : Engine) (i : Input) : Engine * list Event :=
  match i with
  | Click env => start e env
  | Frame env => gameLoop e env
  end.

Definition opens (i : Input) : bool :=
  match i with
  | Click _ => true
  | Frame _ => false
  end.

(** The engine together with the effects of the current session. *)
Definition step (st : Engine * list Event) (i : Input) : Engine * list Event :=
  let '(e, log) := st in
  let '(e', evs) := react e i in
  (e', if opens i then evs else log ++ evs).

Definition run (st : Engine * list Event) (inputs : list Input) : Engine * list Event :=
  fold_left step inputs st.

(** All the effects of a sequence of inputs, sessions apart. *)
Fixpoint emitted (e : Engine) (inputs : list Input) : list Event :=
  match inputs with
  | [] => []
  | i :: rest => let '(e', evs) := react e i in evs ++ emitted e' rest
  end.

Definition session (c : Canvas.t) (inputs : list Input) : Engine * list Event :=
  run (new c, []) inputs.

End CameraOnly.

(** ** Notions used in the statements *)

(** A cell value [a] is below [b] when [a] flagged implies [b] flagged; a
    mask is below another when this holds cell by cell. *)
Definition cellBelow (a b : Z) : Prop :=
  JS.truthy (Some a) = true -> JS.truthy (Some b) = true.

(** The flagged cells among the cells of a neighbourhood. *)
Definition flaggedCells (mm : list Z) (mw mh : Z) (cells : list (Z * Z)) : list (Z * Z) :=
  List.filter (fun c => flagged mm mw mh (fst c) (snd c)) cells.

(** Stars in the [Spawning] or [Active] state of the specification: alive
    and not yet collected. *)
Definition aliveCount (l : list Star.t) : Z :=
  Z.of_nat (length (List.filter (fun s => Star.active s && negb (Star.collected s)) l)).

(** Identifiers [a] and [b] are [gap]ped when [b] comes more than [gap]
    milliseconds after [a]. *)
Definition gapped (gap a b : Z) : Prop := a + gap < b.

(** What a callback of [filterWith] over stars owes, whatever the engine:
    it keeps the identifier, spawns nothing, returns [star.active], draws an
    active star once, and either collects nothing and leaves [collected] as
    it was, or collects this very star, which was alive and not collected,
    and marks it; the score grows by ten per collection. *)
Definition VisitOK {E : Type} (score : E -> Z)
    (callback : E -> Star.t -> E * Star.t * bool * list Event) : Prop :=
  forall (e : E) (s : Star.t),
    let '(e1, s', keep, ev) := callback e s in
    Star.id s' = Star.id s /\
    spawnIds ev = [] /\
    score e1 = score e + 10 * Z.of_nat (length (collectIds ev)) /\
    (Star.active s = false -> keep = false /\ ev = []) /\
    (Star.active s = true -> keep = Star.active s' /\ drawIds ev = [Star.id s]) /\
    ((collectIds ev = [] /\ Star.collected s' = Star.collected s) \/
     (collectIds ev = [Star.id s] /\ Star.active s = true /\
      Star.collected s = false /\ Star.collected s' = true)).

(** The star collection of an engine: every star is active, there are at
    most [cap] of them, and the identifiers increase by more than [gap] and
    are bounded by the time of the last spawn. *)
Record StarsOK (cap gap : Z) (stars : list Star.t) (lastStarTime : Z) : Prop := {
  ok_active : Forall (fun s => Star.active s = true) stars;
  ok_count : Z.of_nat (length stars) <= cap;
  ok_sorted : StronglySorted (gapped gap) (map Star.id stars);
  ok_last : Forall (fun i => i <= lastStarTime) (map Star.id stars)
}.

(** The log of a session against the engine: the score counts the
    collections, no star is collected twice, only spawned stars are
    collected, the spawns increase by more than [gap], and a star of the
    collection is marked collected exactly when the log says so. *)
Record LogOK (gap : Z) (score : Z) (stars : list Star.t) (lastStarTime : Z)
    (log : list Event) : Prop := {
  log_score : score = 10 * Z.of_nat (length (collectIds log));
  log_nodup : NoDup (collectIds log);
  log_collected_spawned : incl (collectIds log) (spawnIds log);
  log_stars_spawned : incl (map Star.id stars) (spawnIds log);
  log_spawn_sorted : StronglySorted (gapped gap) (spawnIds log);
  log_spawn_last : Forall (fun i => i <= lastStarTime) (spawnIds log);
  log_marked : forall s, In s stars ->
                 (Star.collected s = true <-> In (Star.id s) (collectIds log))
}.

(** *** The values a star's scale takes *)

(** [s] after [n] executions of [s += d]. *)
Fixpoint addTimes (n : nat) (d s : float) : float :=
  match n with
  | O => s
  | S n' => (addTimes n' d s + d)%float
  end.

(** The scale after [k] fade-in steps of [d] from 0 and [j] burst steps of
    0.2. *)
Definition scaleAt (d : float) (k j : nat) : float :=
  addTimes j 0.2%float (addTimes k d 0%float).

(** A star's scale is [k <= kmax] fade-in steps and [j <= jmax] burst steps
    away from 0, with no burst step before the collection. *)
Definition ScaleOK (d : float) (kmax jmax : nat) (s : Star.t) : Prop :=
  exists k j, (k <= kmax)%nat /\ (j <= jmax)%nat /\
              Star.scale s = scaleAt d k j /\
              (Star.collected s = false -> j = O).

(** The finite checks on which the scale arguments rest, as booleans. *)
Definition fadeStops (d : float) (kmax : nat) : bool :=
  negb (addTimes kmax d 0 <? 1)%float.

Definition burstGrows (d : float) (kmax jmax : nat) : bool :=
  forallb (fun k => forallb (fun j => (scaleAt d k j <? scaleAt d k (S j))%float)
                            (seq 0 (S jmax)))
          (seq 0 (S kmax)).

Definition burstEnds (d ceiling : float) (kmax jmax : nat) : bool :=
  forallb (fun k => (ceiling <? scaleAt d k (S jmax))%float) (seq 0 (S kmax)).

(** *** Invariants of the two engines *)

Module FallbackInv.

Import Fallback.

(** Spawn cap, spawn interval, fade-in step, and the bounds on the fade-in
    and burst steps of a star that is still in the collection. *)
Definition cap : Z := 6.
Definition gap : Z := 1000.
Definition fade : float := 0.1%float.
Definition ceiling : float := 4%float.
Definition kmax : nat := 11.
Definition jmax : nat := 19.

Record Inv (e : Engine) (log : list Event) : Prop := {
  inv_stars : StarsOK cap gap (stars e) (lastStarTime e);
  inv_log : LogOK gap (score e) (stars e) (lastStarTime e) log;
  inv_scale : Forall (fun s => Star.active s = true -> ScaleOK fade kmax jmax s) (stars e);
  inv_idle : isPlaying e = false -> stars e = [] /\ log = [] /\ score e = 0;
  inv_time : 0 <= lastStarTime e
}.

(** No pointer position is pending. *)
Definition cleared (e : Engine) : Prop := JS.strictNe (lastTouchX e) (-1)%float = false.

End FallbackInv.

Module CameraOnlyInv.

Import CameraOnly.

Definition cap : Z := 5.
Definition gap : Z := 1500.
Definition fade : float := 0.05%float.
Definition ceiling : float := 3%float.
Definition kmax : nat := 20.
Definition jmax : nat := 14.

Record Inv (e : Engine) (log : list Event) : Prop := {
  inv_stars : StarsOK cap gap (stars e) (lastStarTime e);
  inv_log : LogOK gap (score e) (stars e) (lastStarTime e) log;
  inv_scale : Forall (fun s => Star.active s = true -> ScaleOK fade kmax jmax s) (stars e);
  inv_idle : isPlaying e = false -> stars e = [] /\ log = [] /\ score e = 0;
  inv_time : 0 <= lastStarTime e;
  inv_prev : prevFrame e = None \/ prevFrame e = Some (Canvas.data (motionCanvas e))
}.

End CameraOnlyInv.

(** *** Repeated hit tests against one star *)

(** The callback run against the same star once per motion sample of
    [ms], each run starting from what the previous one left. *)
Fixpoint revisit {E : Type} (visit : E -> Motion.t -> Star.t -> E * Star.t * bool * list Event)
    (e : E) (s : Star.t) (ms : list Motion.t) : E * Star.t * list Event :=
  match ms with
  | [] => (e, s, [])
  | m :: rest =>
      let '(e1, s', _, ev) := visit e m s in
      let '(e2, s'', evs) := revisit visit e1 s' rest in
      (e2, s'', ev ++ evs)
  end.

(** *** The input mode of the engine with a fallback *)

Inductive Mode := CameraMode | FallbackMode.

Definition mode (e : Fallback.Engine) : Mode :=
  if Fallback.cameraActive e then CameraMode else FallbackMode.


(** *** Inputs other than the start button *)

Definition noClick (inputs : list Fallback.Input) : bool :=
  forallb (fun i => match i with Fallback.Click _ => false | _ => true end) inputs.


(** *** The flagged positions of a mask *)

(** The indices at which a mask holds a non-zero byte. *)
Definition flaggedIndices (mm : list Z) : list nat :=
  List.filter (fun i => JS.truthy (mm !! i)) (seq 0 (length mm)).

(** The index of a grid cell in the mask: [gy * mw + gx]. *)
Definition cellIndex (mw : Z) (c : Z * Z) : nat := Z.to_nat (snd c * mw + fst c).


(** *** Bounds on the scale *)

(** Every scale [k <= kmax] fade-in steps and [j <= jmax] burst steps away
    from 0 is at least 0, and the scales of the fade-in stay at or below
    the last of them, which does not exceed the ceiling. *)
Definition scalesBounded (d ceiling : float) (kmax jmax : nat) : bool :=
  forallb (fun k =>
             (scaleAt d k 0 <=? scaleAt d kmax 0)%float
             && negb (ceiling <? scaleAt d k 0)%float
             && forallb (fun j => (0 <=? scaleAt d k j)%float) (seq 0 (S jmax)))
          (seq 0 (S kmax)).


(** A collected star does not exceed the ceiling. *)
Definition underCeiling (ceiling : float) (s : Star.t) : Prop :=
  Star.collected s = true -> (ceiling <? Star.scale s)%float = false.


(** *** Where a star is *)

(** [s] is the star [s0] as far as the identifier, the position and the hue
    go. *)
Definition placedAs (s s0 : Star.t) : Prop :=
  Star.id s = Star.id s0 /\ Star.x s = Star.x s0 /\ Star.y s = Star.y s0 /\
  Star.hue s = Star.hue s0.

(** Every star of the collection and every star drawn in the log is
    related by [R] to a star spawned in the log. *)
Definition Traced (R : Star.t -> Star.t -> Prop) (stars : list Star.t) (log : list Event)
  : Prop :=
  forall s, In s stars \/ In (Draw s) log -> exists s0, In (Spawn s0) log /\ R s s0.

(** What the two engines keep of a spawned star: the engine with a fallback
    its size too, the camera-only engine its size until it is collected. *)
Definition fallbackSame (s s0 : Star.t) : Prop :=
  placedAs s s0 /\ Star.size s = Star.size s0.

Definition cameraOnlySame (s s0 : Star.t) : Prop :=
  placedAs s s0 /\ (Star.collected s = false -> Star.size s = Star.size s0).


(** ** Concrete inputs used by the examples *)

Module Samples.

Definition canvas2 : Canvas.t := Canvas.mk 2 2 (replicate 16 0).

Definition quiet (t : Z) : Env.t := Env.mk t 0 [] 0.5 0.5 0.5 0.5.

Definition cameraOk : Fallback.Probe :=
  Fallback.mkProbe true (Fallback.Resolved true) (Fallback.Resolved true)
                   (Fallback.Resolved tt).

Definition noCamera : Fallback.Probe :=
  Fallback.mkProbe true (Fallback.Rejected "NotFoundError")
                   (Fallback.Rejected "NotFoundError") (Fallback.Resolved tt).

(** A star in the middle of the screen, alive and not collected. *)
Definition centre : Star.t := Star.mk 2000 0.5 0.5 45 180 true false 1.

(** A 5 x 5 mask whose top row is in motion, and a 7 x 7 mask whose first
    fifteen cells are. *)
Definition mask5 : Motion.t := Motion.mk (replicate 5 1 ++ replicate 20 0) 5 5.

Definition mask7 : Motion.t := Motion.mk (replicate 15 1 ++ replicate 34 0) 7 7.

(** An engine with a fallback whose camera works. *)
Definition sensing : Fallback.Engine := Fallback.boot canvas2 cameraOk.

(** A 4 x 4 motion canvas and a frame in which the video has a current
frame, all of one grey. *)
Definition canvas4 : Canvas.t := Canvas.mk 4 4 (replicate 64 0).

Definition flash (t : Z) (v : Z) : Env.t := Env.mk t 4 (replicate 64 v) 0.5 0.5 0.5 0.5.

(** A session without a camera: the game is started, the mouse is pressed
    in the middle of the window, and frames follow.  [aimed] is the engine
    when the mouse has been pressed, [played] the session one frame
    later, in which the star has been caught. *)
Definition opening : list Fallback.Input :=
  [Fallback.Click (quiet 2000); Fallback.Dom (Fallback.MouseDown 400 300) 800 600].

Definition aimed : Fallback.Engine := fst (Fallback.session canvas2 noCamera opening).

Definition played : Fallback.Engine * list Event :=
  Fallback.session canvas2 noCamera (opening ++ [Fallback.Frame (quiet 2016)]).

Definition caught : Star.t := Star.mk 2000 0.5 0.5 45 180 true true 0.4.


End Samples.
(** * Verification *)

(** ** The model on concrete frames *)

Module Checks.

Import Samples.

(** A pointer at (0.5, 0.5) and a star at (0.5, 0.5): the star is
    collected through the pointer, the score is 10 and the pointer is
    reset. *)
Example pointer_scenario :
  Fallback.score (fst played) = 10 /\
  snd played
  = [Spawn (Star.mk 2000 0.5 0.5 45 180 true false 0);
     Draw (Star.mk 2000 0.5 0.5 45 180 true false 0.1);
     RequestFrame;
     Collect 2000 Pointer; Draw caught; RequestFrame] /\
  Fallback.stars (fst played) = [caught] /\
  Fallback.lastTouchX (fst played) = (-1)%float.
Proof. vm_compute. repeat split; reflexivity. Qed.

(** Two spawn attempts 500 ms apart: the second adds no star. *)
Example spawn_interval_scenario :
  let e := fst (Fallback.session canvas2 noCamera
                  [Fallback.Click (quiet 2000); Fallback.Frame (quiet 2500)]) in
  map Star.id (Fallback.stars e) = [2000] /\ Fallback.lastStarTime e = 2000.
Proof. vm_compute. split; reflexivity. Qed.

(** The camera-only engine: the canvas turns from black to white, every
    cell of the 4 x 4 grid is in motion, and the star in the middle is
    collected. *)
Example motion_scenario :
  let st := CameraOnly.session canvas4
              [CameraOnly.Click (flash 2000 0); CameraOnly.Frame (flash 2016 255)] in
  CameraOnly.score (fst st) = 10 /\ collectIds (snd st) = [2000] /\
  map Star.collected (CameraOnly.stars (fst st)) = [true].
Proof. vm_compute. repeat split; reflexivity. Qed.

(** The same frame twice: no cell is in motion and nothing is collected. *)
Example still_scenario :
  let st := CameraOnly.session canvas4
              [CameraOnly.Click (flash 2000 255); CameraOnly.Frame (flash 2016 255)] in
  CameraOnly.score (fst st) = 0 /\ collectIds (snd st) = [].
Proof. vm_compute. split; reflexivity. Qed.

(** A caught star in the engine with a fallback, of scale 0.4, is still
    there after 17 more frames and gone after 18: eighteen additions of
    0.2 give 4.0000000000000012 in binary64, which exceeds 4. *)
Example expiry_scenario :
  map Star.id (Fallback.stars
                 (fst (Fallback.run played
                         (map (fun k => Fallback.Frame (quiet (2016 + 16 * Z.of_nat k)))
                              (seq 1 17))))) = [2000] /\
  map Star.id (Fallback.stars
                 (fst (Fallback.run played
                         (map (fun k => Fallback.Frame (quiet (2016 + 16 * Z.of_nat k)))
                              (seq 1 18))))) = [].
Proof. vm_compute. split; reflexivity. Qed.

End Checks.

(** ** Frame differencing *)

Section MotionMaskFacts.

Lemma exceeds_antitone (t1 t2 : Z) (d : option Z) :
  t1 <= t2 -> exceeds t2 d = true -> exceeds t1 d = true.
Proof.
  intros Hle. destruct d as [v|]; simpl; [|discriminate].
  rewrite !Z.ltb_lt. lia.
Qed.

Lemma motionStep_below (t1 t2 : Z) (cur prev a b : list Z) (i : nat) :
  t1 <= t2 -> Forall2 cellBelow a b ->
  Forall2 cellBelow (motionStep t2 cur prev a i) (motionStep t1 cur prev b i).
Proof.
  intros Hle Hab. unfold motionStep.
  destruct (exceeds t2 (sumDiff cur prev i)) eqn:E2.
  - rewrite (exceeds_antitone t1 t2 _ Hle E2).
    apply Forall2_insert; [assumption | intros _; reflexivity].
  - destruct (exceeds t1 (sumDiff cur prev i)); [|assumption].
    clear E2. revert b Hab. generalize (Nat.div i 4) as k.
    induction a as [|x a IH]; intros k b Hab; inversion Hab; subst.
    + constructor.
    + destruct k; simpl; constructor; auto.
      intros _; reflexivity.
Qed.

Lemma motionLoop_below (t1 t2 : Z) (cur prev : list Z) :
  t1 <= t2 -> forall a b, Forall2 cellBelow a b ->
  Forall2 cellBelow (motionLoop t2 cur prev a) (motionLoop t1 cur prev b).
Proof.
  intros Hle. unfold motionLoop.
  induction (loopIndices (length cur)) as [|i ks IH]; intros a b Hab; simpl.
  - assumption.
  - apply IH. now apply motionStep_below.
Qed.

Lemma below_refl (l : list Z) : Forall2 cellBelow l l.
Proof. induction l; constructor; auto. intros H; exact H. Qed.

Lemma motionMapOf_below (t1 t2 : Z) cur prev w h :
  t1 <= t2 ->
  Forall2 cellBelow (motionMapOf t2 cur prev w h) (motionMapOf t1 cur prev w h).
Proof.
  intros Hle. unfold motionMapOf. destruct prev.
  - apply motionLoop_below; [assumption | apply below_refl].
  - apply below_refl.
Qed.

Lemma below_lookup (a b : list Z) (k : nat) :
  Forall2 cellBelow a b ->
  JS.truthy (a !! k) = true -> JS.truthy (b !! k) = true.
Proof.
  intros Hab. revert k. induction Hab as [|x y a b Hxy _ IH]; intros k.
  - destruct k; discriminate.
  - destruct k; simpl; [exact Hxy | apply IH].
Qed.

Lemma below_count (a b : list Z) :
  Forall2 cellBelow a b -> (flaggedCount a <= flaggedCount b)%nat.
Proof.
  unfold flaggedCount. induction 1 as [|x y a b Hxy _ IH]; [reflexivity|].
  cbn [List.filter]. unfold cellBelow in Hxy.
  destruct (JS.truthy (Some x)); destruct (JS.truthy (Some y)); cbn [length];
    try lia.
Qed.

(** The loop keeps the size of the mask. *)
Lemma motionLoop_length t cur prev mm :
  length (motionLoop t cur prev mm) = length mm.
Proof.
  unfold motionLoop. revert mm.
  induction (loopIndices (length cur)) as [|i ks IH]; intros mm; simpl.
  - reflexivity.
  - rewrite IH. unfold motionStep.
    destruct (exceeds t (sumDiff cur prev i)); [apply length_insert | reflexivity].
Qed.

Lemma motionMapOf_length t cur prev w h :
  length (motionMapOf t cur prev w h) = Z.to_nat (w * h).
Proof.
  unfold motionMapOf. destruct prev as [p|].
  - rewrite motionLoop_length. apply length_replicate.
  - apply length_replicate.
Qed.

(** A frame equal to the previous one flags nothing. *)
Lemma sumDiff_same (cur : list Z) (i : nat) :
  sumDiff cur cur i = Some 0 \/ sumDiff cur cur i = None.
Proof.
  unfold sumDiff, absDiff.
  destruct (cur !! i) as [a|]; [|now right].
  destruct (cur !! (i + 1)%nat) as [b|]; [|now right].
  destruct (cur !! (i + 2)%nat) as [c|]; [|now right].
  left. f_equal. lia.
Qed.

Lemma motionLoop_same (t : Z) (cur mm : list Z) :
  0 <= t -> motionLoop t cur cur mm = mm.
Proof.
  intros Ht. unfold motionLoop.
  induction (loopIndices (length cur)) as [|i ks IH]; [reflexivity|].
  cbn [fold_left]. unfold motionStep at 2.
  destruct (sumDiff_same cur i) as [-> | ->]; cbn [exceeds]; [|exact IH].
  assert (H : (t <? 0) = false) by (apply Z.ltb_ge; lia).
  rewrite H. exact IH.
Qed.

Lemma blank_clear (n k : nat) : JS.truthy (replicate n 0 !! k) = false.
Proof.
  destruct (replicate n 0 !! k) as [v|] eqn:Hk; [|reflexivity].
  apply lookup_replicate in Hk. destruct Hk as [-> _]. reflexivity.
Qed.

Lemma blank_count (n : nat) : flaggedCount (replicate n 0) = O.
Proof. unfold flaggedCount. induction n as [|n IH]; [reflexivity | exact IH]. Qed.

(** Without a previous frame, or with a previous frame equal to the
    current one, the mask is blank. *)
Lemma motionMapOf_still (t : Z) (cur : list Z) (prev : option (list Z)) (w h : Z) :
  0 <= t -> prev = None \/ prev = Some cur ->
  motionMapOf t cur prev w h = replicate (Z.to_nat (w * h)) 0.
Proof.
  intros Ht [-> | ->]; unfold motionMapOf; [reflexivity|].
  now apply motionLoop_same.
Qed.


End MotionMaskFacts.

(** ** The neighbourhood count *)

Section HitCountFacts.

Variables (mm : list Z) (mw mh : Z).

Lemma countRow_cells (ds : list Z) (gridX gy hits : Z) :
  fold_left (fun h dx => if flagged mm mw mh (gridX + dx) gy then h + 1 else h) ds hits
  = hits + Z.of_nat (length (flaggedCells mm mw mh (map (fun dx => (gridX + dx, gy)) ds))).
Proof.
  revert hits. induction ds as [|d ds IH]; intros hits; simpl.
  - lia.
  - rewrite IH. unfold flaggedCells. simpl.
    destruct (flagged mm mw mh (gridX + d) gy); simpl length; lia.
Qed.

Lemma countRows_cells (r : Z) (ds : list Z) (gridX gridY hits : Z) :
  fold_left (fun h dy => countRow r mm mw mh gridX (gridY + dy) h) ds hits
  = hits + Z.of_nat (length (flaggedCells mm mw mh
             (flat_map (fun dy => map (fun dx => (gridX + dx, gridY + dy)) (offsets r)) ds))).
Proof.
  revert hits. induction ds as [|d ds IH]; intros hits; simpl.
  - lia.
  - rewrite IH. unfold countRow. rewrite countRow_cells.
    unfold flaggedCells. rewrite List.filter_app, length_app. lia.
Qed.

(** The nested loops count the flagged cells of the neighbourhood. *)
Lemma countHits_cells (r gridX gridY : Z) :
  countHits r mm mw mh gridX gridY
  = Z.of_nat (length (flaggedCells mm mw mh (neighbourhood r gridX gridY))).
Proof. unfold countHits, neighbourhood. rewrite countRows_cells. lia. Qed.

Lemma neighbourhood_length (r gridX gridY : Z) :
  0 <= r ->
  Z.of_nat (length (neighbourhood r gridX gridY)) = (2 * r + 1) * (2 * r + 1).
Proof.
  intros Hr. unfold neighbourhood.
  assert (Hlen : forall ds : list Z,
    length (flat_map (fun dy => map (fun dx => (gridX + dx, gridY + dy)) (offsets r)) ds)
    = (length ds * length (offsets r))%nat).
  { induction ds as [|d ds IH]; simpl; [reflexivity|].
    rewrite length_app, length_map, IH. reflexivity. }
  rewrite Hlen. unfold offsets. rewrite length_map, length_seq. lia.
Qed.

Lemma countHits_bounds (r gridX gridY : Z) :
  0 <= r ->
  0 <= countHits r mm mw mh gridX gridY <= (2 * r + 1) * (2 * r + 1).
Proof.
  intros Hr. rewrite countHits_cells, <- (neighbourhood_length r gridX gridY Hr).
  unfold flaggedCells.
  pose proof (List.filter_length_le
                (fun c => flagged mm mw mh (fst c) (snd c)) (neighbourhood r gridX gridY)).
  lia.
Qed.

End HitCountFacts.

(** A mask without a flagged cell gives no hit count. *)
Lemma flaggedCells_clear (mm : list Z) (mw mh : Z) (cells : list (Z * Z)) :
  (forall k, JS.truthy (mm !! k) = false) -> flaggedCells mm mw mh cells = [].
Proof.
  intros Hclear. unfold flaggedCells. induction cells as [|c cells IH]; simpl; [reflexivity|].
  unfold flagged at 1. rewrite Hclear, andb_false_r. exact IH.
Qed.

Lemma starHits_clear (r : Z) (m : Motion.t) (s : Star.t) :
  (forall k, JS.truthy (Motion.motionMap m !! k) = false) -> starHits r m s = 0.
Proof.
  intros Hclear. unfold starHits.
  destruct (JS.floor _); [|reflexivity]. destruct (JS.floor _); [|reflexivity].
  rewrite countHits_cells, flaggedCells_clear by assumption. reflexivity.
Qed.

(** ** Event logs *)

Lemma collectIds_app (a b : list Event) : collectIds (a ++ b) = collectIds a ++ collectIds b.
Proof. apply List.flat_map_app. Qed.

Lemma pointerCollectIds_app (a b : list Event) :
  pointerCollectIds (a ++ b) = pointerCollectIds a ++ pointerCollectIds b.
Proof. apply List.flat_map_app. Qed.

Lemma cameraCollectIds_app (a b : list Event) :
  cameraCollectIds (a ++ b) = cameraCollectIds a ++ cameraCollectIds b.
Proof. apply List.flat_map_app. Qed.

Lemma spawnIds_app (a b : list Event) : spawnIds (a ++ b) = spawnIds a ++ spawnIds b.
Proof. apply List.flat_map_app. Qed.

Lemma drawIds_app (a b : list Event) : drawIds (a ++ b) = drawIds a ++ drawIds b.
Proof. apply List.flat_map_app. Qed.

(** Every collection has exactly one source. *)
Lemma collectIds_by_source (log : list Event) :
  length (collectIds log)
  = (length (pointerCollectIds log) + length (cameraCollectIds log))%nat.
Proof.
  induction log as [|ev log IH]; [reflexivity|].
  change (ev :: log) with ([ev] ++ log).
  rewrite collectIds_app, pointerCollectIds_app, cameraCollectIds_app, !length_app, IH.
  destruct ev as [s|i src|s|]; try destruct src; simpl; lia.
Qed.

(** ** Subsequences of identifiers *)

Lemma sublist_Forall_ids (P : Z -> Prop) (l1 l2 : list Z) :
  sublist l1 l2 -> Forall P l2 -> Forall P l1.
Proof.
  induction 1 as [|x l1 l2 _ IH|x l1 l2 _ IH]; intros H2.
  - constructor.
  - inversion H2; subst. constructor; auto.
  - inversion H2; subst. auto.
Qed.

Lemma sublist_sorted_ids (R : Z -> Z -> Prop) (l1 l2 : list Z) :
  sublist l1 l2 -> StronglySorted R l2 -> StronglySorted R l1.
Proof.
  induction 1 as [|x l1 l2 Hsub IH|x l1 l2 _ IH]; intros H2.
  - constructor.
  - inversion H2; subst. constructor; [auto|].
    eapply sublist_Forall_ids; eassumption.
  - inversion H2; subst. auto.
Qed.

Lemma sublist_In_ids (i : Z) (l1 l2 : list Z) : sublist l1 l2 -> In i l1 -> In i l2.
Proof.
  induction 1 as [|x l1 l2 _ IH|x l1 l2 _ IH]; simpl; intros Hin.
  - assumption.
  - destruct Hin; [left | right]; auto.
  - right; auto.
Qed.

Lemma sorted_gapped_snoc (gap : Z) (l : list Z) (last i : Z) :
  0 <= gap -> StronglySorted (gapped gap) l -> Forall (fun a => a <= last) l ->
  last + gap < i -> StronglySorted (gapped gap) (l ++ [i]).
Proof.
  intros Hgap Hs Hl Hi. induction Hs as [|a l Hs IH Ha]; simpl.
  - repeat constructor.
  - inversion Hl; subst. constructor; [auto|].
    apply Forall_app. split; [assumption|]. constructor; [|constructor].
    unfold gapped. lia.
Qed.

Lemma sorted_gapped_NoDup (gap : Z) (l : list Z) :
  0 <= gap -> StronglySorted (gapped gap) l -> NoDup l.
Proof.
  intros Hgap. induction 1 as [|a l Hs IH Ha]; constructor; [|assumption].
  intros Hin. rewrite List.Forall_forall in Ha. apply list_elem_of_In in Hin.
  specialize (Ha a Hin). unfold gapped in Ha. lia.
Qed.

(** ** The filter over stars, for any callback *)

Section FilterAny.

Context {E : Type}.
Variable callback : E -> Star.t -> E * Star.t * bool * list Event.

(** A property of stars that one visit preserves is preserved by the
    filter. *)
Lemma filterWith_Forall (P : Star.t -> Prop) (l : list Star.t) (e : E) :
  (forall e s, P s -> P (snd (fst (fst (callback e s))))) ->
  Forall P l ->
  Forall P (snd (fst (filterWith callback e l))).
Proof.
  intros Hstep. revert e. induction l as [|s rest IH]; intros e Hall.
  - simpl. constructor.
  - inversion Hall as [|? ? Hs Hrest]; subst.
    cbn [filterWith]. pose proof (Hstep e s Hs) as Hs'.
    destruct (callback e s) as [[[e1 s'] keep] ev]. cbn [fst snd] in Hs'.
    pose proof (IH e1 Hrest) as IH'.
    destruct (filterWith callback e1 rest) as [[e2 kept] evs]. cbn [fst snd] in *.
    destruct keep; [constructor|]; assumption.
Qed.

(** A projection of the engine that one visit leaves alone is left alone
    by the filter. *)
Lemma filterWith_field {B : Type} (f : E -> B) (l : list Star.t) (e : E) :
  (forall e s, f (fst (fst (fst (callback e s)))) = f e) ->
  f (fst (fst (filterWith callback e l))) = f e.
Proof.
  intros Hstep. revert e. induction l as [|s rest IH]; intros e.
  - reflexivity.
  - cbn [filterWith]. pose proof (Hstep e s) as Hf.
    destruct (callback e s) as [[[e1 s'] keep] ev]. cbn [fst snd] in Hf.
    pose proof (IH e1) as IH'.
    destruct (filterWith callback e1 rest) as [[e2 kept] evs]. cbn [fst snd] in *.
    congruence.
Qed.

(** A kept element is what a visit that returned [true] left of an element
of the list. *)
Lemma filterWith_kept_from (l : list Star.t) (e : E) (t : Star.t) :
  In t (snd (fst (filterWith callback e l))) ->
  exists e0 s, In s l /\ snd (fst (fst (callback e0 s))) = t /\
               snd (fst (callback e0 s)) = true.
Proof.
  revert e. induction l as [|s rest IH]; intros e; [intros []|].
  cbn [filterWith].
  destruct (callback e s) as [[[e1 s'] keep] ev] eqn:Hcb.
  specialize (IH e1).
  destruct (filterWith callback e1 rest) as [[e2 kept] evs]. cbn [fst snd] in *.
  assert (Hrest : In t kept -> exists e0 s0, In s0 (s :: rest) /\
                    snd (fst (fst (callback e0 s0))) = t /\
                    snd (fst (callback e0 s0)) = true).
  { intros Ht. destruct (IH Ht) as (e0 & s0 & Hs0 & Heq). exists e0, s0. split; [now right | exact Heq]. }
  destruct keep; [|exact Hrest].
  intros [<-|Ht]; [|now apply Hrest].
  exists e, s. rewrite Hcb. split; [now left | split; reflexivity].
Qed.


End FilterAny.

(** ** The filter over stars, for any callback that is [VisitOK] *)

Section FilterFacts.

Context {E : Type}.
Variable score : E -> Z.
Variable callback : E -> Star.t -> E * Star.t * bool * list Event.
Hypothesis Hok : VisitOK score callback.

Local Ltac unroll e s rest :=
  cbn [filterWith];
  pose proof (Hok e s) as Hvisit;
  destruct (callback e s) as [[[?e1 ?s'] ?keep] ?ev];
  cbn [fst snd] in *;
  match goal with
  | |- context [filterWith callback ?x rest] =>
      destruct (filterWith callback x rest) as [[?e2 ?kept] ?evs]
  end;
  destruct Hvisit as (Hid & Hspawn & Hscore & Hoff & Hon & Hmark).

Lemma filterWith_score (l : list Star.t) (e : E) :
  let '(e', _, evs) := filterWith callback e l in
  score e' = score e + 10 * Z.of_nat (length (collectIds evs)).
Proof.
  revert e. induction l as [|s rest IH]; intros e.
  - simpl. lia.
  - pose proof (IH (fst (fst (fst (callback e s))))) as IH'.
    unroll e s rest. simpl in IH'.
    rewrite collectIds_app, length_app. lia.
Qed.

Lemma filterWith_spawn (l : list Star.t) (e : E) :
  let '(_, _, evs) := filterWith callback e l in spawnIds evs = [].
Proof.
  revert e. induction l as [|s rest IH]; intros e.
  - reflexivity.
  - pose proof (IH (fst (fst (fst (callback e s))))) as IH'.
    unroll e s rest. simpl in IH'.
    rewrite spawnIds_app, Hspawn, IH'. reflexivity.
Qed.

Lemma filterWith_draw (l : list Star.t) (e : E) :
  let '(_, _, evs) := filterWith callback e l in
  drawIds evs = map Star.id (List.filter Star.active l).
Proof.
  revert e. induction l as [|s rest IH]; intros e.
  - reflexivity.
  - pose proof (IH (fst (fst (fst (callback e s))))) as IH'.
    unroll e s rest. simpl in IH'.
    rewrite drawIds_app, IH'. cbn [List.filter].
    destruct (Star.active s) eqn:Hact.
    + destruct (Hon eq_refl) as [_ ->]. reflexivity.
    + destruct (Hoff eq_refl) as [_ ->]. reflexivity.
Qed.

Lemma filterWith_sublist (l : list Star.t) (e : E) :
  let '(_, kept, _) := filterWith callback e l in
  sublist (map Star.id kept) (map Star.id l).
Proof.
  revert e. induction l as [|s rest IH]; intros e.
  - simpl. constructor.
  - pose proof (IH (fst (fst (fst (callback e s))))) as IH'.
    unroll e s rest. simpl in IH'.
    destruct keep; simpl.
    + rewrite Hid. now constructor.
    + now constructor.
Qed.

Lemma filterWith_active (l : list Star.t) (e : E) :
  let '(_, kept, _) := filterWith callback e l in
  Forall (fun s => Star.active s = true) kept.
Proof.
  revert e. induction l as [|s rest IH]; intros e.
  - simpl. constructor.
  - pose proof (IH (fst (fst (fst (callback e s))))) as IH'.
    unroll e s rest. simpl in IH'.
    destruct keep; [|assumption].
    constructor; [|assumption].
    destruct (Star.active s) eqn:Hact.
    + destruct (Hon eq_refl) as [<- _]. reflexivity.
    + destruct (Hoff eq_refl) as [Hk _]. discriminate.
Qed.

(** A collection recorded by the filter is that of a star of the list
    that was active and not collected. *)
Lemma filterWith_collect_from (l : list Star.t) (e : E) :
  let '(_, _, evs) := filterWith callback e l in
  forall i, In i (collectIds evs) ->
    exists s, In s l /\ Star.id s = i /\ Star.active s = true /\ Star.collected s = false.
Proof.
  revert e. induction l as [|s rest IH]; intros e.
  - simpl. intros i [].
  - pose proof (IH (fst (fst (fst (callback e s))))) as IH'.
    unroll e s rest. simpl in IH'.
    intros i Hin. rewrite collectIds_app in Hin. apply in_app_or in Hin.
    destruct Hin as [Hin|Hin].
    + destruct Hmark as [[Hnone _]|(Hone & Hact & Hcol & _)].
      * rewrite Hnone in Hin. destruct Hin.
      * rewrite Hone in Hin. destruct Hin as [<-|[]].
        exists s. repeat split; auto. now left.
    + destruct (IH' i Hin) as (t & Ht & Hrest). exists t. split; [now right | exact Hrest].
Qed.

Lemma filterWith_collect_ids (l : list Star.t) (e : E) :
  let '(_, _, evs) := filterWith callback e l in
  sublist (collectIds evs) (map Star.id l).
Proof.
  revert e. induction l as [|s rest IH]; intros e.
  - simpl. constructor.
  - pose proof (IH (fst (fst (fst (callback e s))))) as IH'.
    unroll e s rest. simpl in IH'.
    rewrite collectIds_app. simpl map.
    destruct Hmark as [[-> _]|(-> & _)]; simpl; now constructor.
Qed.

(** The [collected] mark of a kept star: it was marked before, or the
    filter recorded its collection. *)
Lemma filterWith_marked (l : list Star.t) (e : E) :
  NoDup (map Star.id l) ->
  let '(_, kept, evs) := filterWith callback e l in
  forall t, In t kept ->
    exists s, In s l /\ Star.id s = Star.id t /\
              (Star.collected t = true <->
               Star.collected s = true \/ In (Star.id t) (collectIds evs)).
Proof.
  revert e. induction l as [|s rest IH]; intros e Hnd.
  - simpl. intros t [].
  - simpl in Hnd. apply NoDup_cons in Hnd. destruct Hnd as [Hfresh Hnd].
    pose proof (IH (fst (fst (fst (callback e s)))) Hnd) as IH'.
    pose proof (filterWith_collect_ids rest (fst (fst (fst (callback e s))))) as Hsub.
    unroll e s rest. simpl in IH', Hsub.
    assert (Hev : forall i, In i (collectIds ev) -> i = Star.id s).
    { intros i Hi. destruct Hmark as [[Hnone _]|(Hone & _)].
      - rewrite Hnone in Hi. destruct Hi.
      - rewrite Hone in Hi. destruct Hi as [<-|[]]. reflexivity. }
    assert (Hnot : ~ In (Star.id s) (collectIds evs)).
    { intros Hi. apply Hfresh, list_elem_of_In. eapply sublist_In_ids; eassumption. }
    assert (Htail : forall t, In t kept ->
              exists s0, In s0 (s :: rest) /\ Star.id s0 = Star.id t /\
                (Star.collected t = true <->
                 Star.collected s0 = true \/ In (Star.id t) (collectIds (ev ++ evs)))).
    { intros t Ht. destruct (IH' t Ht) as (s0 & Hs0 & Hids & Hiff).
      exists s0. split; [now right|]. split; [assumption|].
      rewrite Hiff, collectIds_app, in_app_iff.
      assert (Hne : ~ In (Star.id t) (collectIds ev)).
      { intros Hi. apply Hev in Hi. apply Hfresh, list_elem_of_In.
        rewrite <- Hi, <- Hids. now apply in_map. }
      tauto. }
    destruct keep; [|exact Htail].
    intros t [<-|Ht]; [|now apply Htail].
    exists s. split; [now left|]. split; [now symmetry|].
    rewrite collectIds_app, in_app_iff, Hid.
    destruct Hmark as [[Hnone Hsame]|(Hone & _ & Hwas & Hnow)].
    + rewrite Hnone, Hsame. simpl. tauto.
    + rewrite Hone, Hnow, Hwas. simpl. intuition.
Qed.

(** The fate of one star of the list: it is visited from some engine, and
    it is kept, as mutated, when the callback returns [true]; otherwise no
    star with its identifier is kept. *)
Lemma filterWith_elem (l : list Star.t) (e : E) (s : Star.t) :
  NoDup (map Star.id l) -> In s l ->
  exists e0,
    if snd (fst (callback e0 s))
    then In (snd (fst (fst (callback e0 s)))) (snd (fst (filterWith callback e l)))
    else ~ In (Star.id s) (map Star.id (snd (fst (filterWith callback e l)))).
Proof.
  revert e. induction l as [|s0 rest IH]; intros e Hnd Hin; [destruct Hin|].
  simpl in Hnd. apply NoDup_cons in Hnd. destruct Hnd as [Hfresh Hnd].
  destruct Hin as [->|Hin].
  - exists e.
    pose proof (filterWith_sublist rest (fst (fst (fst (callback e s))))) as Hsub.
    unroll e s rest. cbn [fst snd].
    destruct keep; [now left|].
    intros Hi. apply Hfresh, list_elem_of_In. exact (sublist_In_ids _ _ _ Hsub Hi).
  - pose proof (IH (fst (fst (fst (callback e s0)))) Hnd Hin) as [e0 He0].
    exists e0.
    unroll e s0 rest. cbn [fst snd] in *.
    destruct (snd (fst (callback e0 s))).
    + destruct keep; [now right | assumption].
    + destruct keep; [|assumption].
      simpl. intros [Heq|Hi]; [|now apply He0].
      apply Hfresh, list_elem_of_In. rewrite <- Hid, Heq. now apply in_map.
Qed.


End FilterFacts.

(** ** The invariants through a spawn and through the filter *)

Lemma filter_all_active (l : list Star.t) :
  Forall (fun s => Star.active s = true) l -> List.filter Star.active l = l.
Proof.
  induction 1 as [|s l Hs _ IH]; [reflexivity|].
  cbn [List.filter]. now rewrite Hs, IH.
Qed.

Lemma aliveCount_le_length (l : list Star.t) : aliveCount l <= Z.of_nat (length l).
Proof.
  unfold aliveCount.
  pose proof (List.filter_length_le (fun s => Star.active s && negb (Star.collected s)) l).
  lia.
Qed.

Section SpawnFacts.

Variables cap gap : Z.
Hypothesis Hgap : 0 <= gap.

Lemma StarsOK_push (l : list Star.t) (last : Z) (s : Star.t) :
  StarsOK cap gap l last ->
  Z.of_nat (length (List.filter Star.active l)) < cap ->
  last + gap < Star.id s -> Star.active s = true ->
  StarsOK cap gap (l ++ [s]) (Star.id s).
Proof.
  intros [Hact Hcount Hsorted Hlast] Hroom Hlate Hs. split.
  - apply Forall_app. split; [assumption | now constructor].
  - rewrite filter_all_active in Hroom by assumption.
    rewrite length_app. simpl. lia.
  - rewrite map_app. simpl. now apply sorted_gapped_snoc with (last := last).
  - rewrite map_app. apply Forall_app. split.
    + eapply Forall_impl; [exact Hlast|]. simpl. intros i Hi. lia.
    + constructor; [lia | constructor].
Qed.

Lemma LogOK_push (score : Z) (l : list Star.t) (last : Z) (log : list Event) (s : Star.t) :
  LogOK gap score l last log ->
  last + gap < Star.id s -> Star.collected s = false ->
  LogOK gap score (l ++ [s]) (Star.id s) (log ++ [Spawn s]).
Proof.
  intros [Hscore Hnd Hcs Hss Hsorted Hlast Hmarked] Hlate Hs.
  assert (Hfresh : ~ In (Star.id s) (spawnIds log)).
  { intros Hin. rewrite List.Forall_forall in Hlast. specialize (Hlast _ Hin). lia. }
  split.
  - rewrite collectIds_app. simpl. rewrite app_nil_r. assumption.
  - rewrite collectIds_app. simpl. rewrite app_nil_r. assumption.
  - rewrite collectIds_app, spawnIds_app. simpl. rewrite app_nil_r.
    intros i Hi. apply in_or_app. left. now apply Hcs.
  - rewrite map_app, spawnIds_app. simpl.
    intros i Hi. apply in_app_or in Hi. apply in_or_app.
    destruct Hi as [Hi|Hi]; [left; now apply Hss | right; assumption].
  - rewrite spawnIds_app. simpl. now apply sorted_gapped_snoc with (last := last).
  - rewrite spawnIds_app. apply Forall_app. split.
    + eapply Forall_impl; [exact Hlast|]. simpl. intros i Hi. lia.
    + constructor; [lia | constructor].
  - intros t Ht. rewrite collectIds_app. simpl. rewrite app_nil_r.
    apply in_app_or in Ht. destruct Ht as [Ht|[<-|[]]]; [now apply Hmarked|].
    rewrite Hs. split; [discriminate|].
    intros Hin. exfalso. apply Hfresh. now apply Hcs.
Qed.

End SpawnFacts.

Section FilterInvariants.

Context {E : Type}.
Variable score : E -> Z.
Variable callback : E -> Star.t -> E * Star.t * bool * list Event.
Hypothesis Hok : VisitOK score callback.
Variables cap gap : Z.
Hypothesis Hgap : 0 <= gap.

Lemma StarsOK_filter (l : list Star.t) (last : Z) (e : E) :
  StarsOK cap gap l last ->
  let '(_, kept, _) := filterWith callback e l in StarsOK cap gap kept last.
Proof.
  intros [Hact Hcount Hsorted Hlast].
  pose proof (filterWith_sublist score callback Hok l e) as Hsub.
  pose proof (filterWith_active score callback Hok l e) as Hkept.
  destruct (filterWith callback e l) as [[e' kept] evs]. split.
  - assumption.
  - apply sublist_length in Hsub. rewrite !length_map in Hsub. lia.
  - eapply sublist_sorted_ids; eassumption.
  - eapply sublist_Forall_ids; eassumption.
Qed.

(** The log extended with the effects of the filter and with effects
    [tail] that neither spawn nor collect. *)
Lemma LogOK_filter (l : list Star.t) (last : Z) (log tail : list Event) (e : E) :
  StarsOK cap gap l last ->
  LogOK gap (score e) l last log ->
  collectIds tail = [] -> spawnIds tail = [] ->
  let '(e', kept, evs) := filterWith callback e l in
  LogOK gap (score e') kept last (log ++ evs ++ tail).
Proof.
  intros [Hact Hcount Hsorted Hlastl] [Hscore Hnd Hcs Hss Hspawn Hlast Hmarked] Htc Hts.
  pose proof (sorted_gapped_NoDup gap _ Hgap Hsorted) as Hids.
  pose proof (filterWith_sublist score callback Hok l e) as Hsub.
  pose proof (filterWith_score score callback Hok l e) as Hsc.
  pose proof (filterWith_spawn score callback Hok l e) as Hsp.
  pose proof (filterWith_collect_from score callback Hok l e) as Hfrom.
  pose proof (filterWith_collect_ids score callback Hok l e) as Hcsub.
  pose proof (filterWith_marked score callback Hok l e Hids) as Hmk.
  destruct (filterWith callback e l) as [[e' kept] evs].
  assert (Hc : collectIds (log ++ evs ++ tail) = collectIds log ++ collectIds evs).
  { rewrite !collectIds_app, Htc, app_nil_r. reflexivity. }
  assert (Hs : spawnIds (log ++ evs ++ tail) = spawnIds log).
  { rewrite !spawnIds_app, Hsp, Hts, !app_nil_r. reflexivity. }
  split; rewrite ?Hc, ?Hs; try assumption.
  - rewrite length_app. lia.
  - apply NoDup_app. split; [assumption|]. split.
    + intros i Hi Hi'. apply list_elem_of_In in Hi, Hi'.
      destruct (Hfrom i Hi') as (s & Hs_in & <- & _ & Hcol).
      apply (Hmarked s Hs_in) in Hi. congruence.
    + eapply sublist_NoDup; eassumption.
  - intros i Hi. apply in_app_or in Hi. destruct Hi as [Hi|Hi]; [now apply Hcs|].
    apply Hss. exact (sublist_In_ids _ _ _ Hcsub Hi).
  - intros i Hi. apply Hss. exact (sublist_In_ids _ _ _ Hsub Hi).
  - intros t Ht. destruct (Hmk t Ht) as (s & Hs_in & Hid & Hiff).
    rewrite Hiff, in_app_iff, (Hmarked s Hs_in), Hid. reflexivity.
Qed.

End FilterInvariants.

(** ** The scale of a star *)

Lemma scaleAt_fade (d : float) (k : nat) :
  (scaleAt d k 0 + d)%float = scaleAt d (S k) 0.
Proof. reflexivity. Qed.

Lemma scaleAt_burst (d : float) (k j : nat) :
  (scaleAt d k j + 0.2)%float = scaleAt d k (S j).
Proof. reflexivity. Qed.

Lemma burstGrows_spec (d : float) (kmax jmax k j : nat) :
  burstGrows d kmax jmax = true -> (k <= kmax)%nat -> (j <= jmax)%nat ->
  (scaleAt d k j <? scaleAt d k (S j))%float = true.
Proof.
  unfold burstGrows. rewrite forallb_forall. intros H Hk Hj.
  assert (Hin : In k (seq 0 (S kmax))) by (apply in_seq; lia).
  specialize (H k Hin). rewrite forallb_forall in H.
  apply H. apply in_seq. lia.
Qed.

Lemma burstEnds_spec (d ceiling : float) (kmax jmax k : nat) :
  burstEnds d ceiling kmax jmax = true -> (k <= kmax)%nat ->
  (ceiling <? scaleAt d k (S jmax))%float = true.
Proof.
  unfold burstEnds. rewrite forallb_forall. intros H Hk.
  apply H. apply in_seq. lia.
Qed.

Lemma fb_fadeStops : fadeStops FallbackInv.fade FallbackInv.kmax = true.
Proof. vm_compute. reflexivity. Qed.

Lemma fb_burstGrows : burstGrows FallbackInv.fade FallbackInv.kmax FallbackInv.jmax = true.
Proof. vm_compute. reflexivity. Qed.

Lemma fb_burstEnds :
  burstEnds FallbackInv.fade FallbackInv.ceiling FallbackInv.kmax FallbackInv.jmax = true.
Proof. vm_compute. reflexivity. Qed.

Lemma co_fadeStops : fadeStops CameraOnlyInv.fade CameraOnlyInv.kmax = true.
Proof. vm_compute. reflexivity. Qed.

Lemma co_burstGrows :
  burstGrows CameraOnlyInv.fade CameraOnlyInv.kmax CameraOnlyInv.jmax = true.
Proof. vm_compute. reflexivity. Qed.

Lemma co_burstEnds :
  burstEnds CameraOnlyInv.fade CameraOnlyInv.ceiling CameraOnlyInv.kmax CameraOnlyInv.jmax
  = true.
Proof. vm_compute. reflexivity. Qed.

(** ** The engine with a touch fallback: one visit *)

Module FallbackFacts.

Import Fallback FallbackInv.

Lemma fb_fadeIn_fields (s : Star.t) :
  Star.id (fadeIn s) = Star.id s /\ Star.active (fadeIn s) = Star.active s /\
  Star.collected (fadeIn s) = Star.collected s /\
  Star.x (fadeIn s) = Star.x s /\ Star.y (fadeIn s) = Star.y s.
Proof. unfold fadeIn. destruct (_ && _); repeat split; reflexivity. Qed.

Lemma fb_burst_fields (s : Star.t) :
  Star.id (burst s) = Star.id s /\ Star.collected (burst s) = Star.collected s.
Proof.
  unfold burst. destruct (Star.collected s) eqn:Hc; [|auto].
  destruct (_ <? _)%float; simpl; auto.
Qed.

Lemma fb_burst_alive (s : Star.t) :
  Star.collected s = false -> burst s = s.
Proof. unfold burst. now intros ->. Qed.

(** The visit of a star, case by case. *)
Lemma fb_visit_inactive e m s :
  Star.active s = false -> visit e m s = (e, s, false, []).
Proof. unfold visit. now intros ->. Qed.

Lemma fb_visit_collect e m s :
  Star.active s = true -> Star.collected s = false -> isHit e m (fadeIn s) = true ->
  visit e m s =
    (award e, burst (Star.setCollected (fadeIn s) true),
     Star.active (burst (Star.setCollected (fadeIn s) true)),
     [Collect (Star.id s) (if pointerHit e (fadeIn s) then Pointer else Camera);
      Draw (burst (Star.setCollected (fadeIn s) true))]).
Proof.
  intros Hact Hcol Hhit. unfold visit. rewrite Hact. cbn [negb].
  destruct (fb_fadeIn_fields s) as (Hid & _ & Hc & _).
  rewrite Hhit, Hc, Hcol, Hid. reflexivity.
Qed.

Lemma fb_visit_miss e m s :
  Star.active s = true -> Star.collected s = false -> isHit e m (fadeIn s) = false ->
  visit e m s = (e, fadeIn s, true, [Draw (fadeIn s)]).
Proof.
  intros Hact Hcol Hhit. unfold visit. rewrite Hact. cbn [negb].
  destruct (fb_fadeIn_fields s) as (_ & Ha & Hc & _).
  rewrite Hhit. cbn [andb]. rewrite fb_burst_alive by congruence.
  rewrite Ha, Hact. reflexivity.
Qed.

Lemma fb_visit_collected e m s :
  Star.active s = true -> Star.collected s = true ->
  visit e m s = (e, burst s, Star.active (burst s), [Draw (burst s)]).
Proof.
  intros Hact Hcol. unfold visit. rewrite Hact. cbn [negb].
  assert (Hf : fadeIn s = s) by (unfold fadeIn; now rewrite Hcol).
  rewrite Hf, Hcol, andb_false_r. reflexivity.
Qed.

Lemma fb_visit_ok (m : Motion.t) : VisitOK score (fun e s => visit e m s).
Proof.
  intros e s.
  destruct (fb_fadeIn_fields s) as (Hfid & Hfa & Hfc & _).
  destruct (Star.active s) eqn:Hact.
  2:{ rewrite fb_visit_inactive by assumption.
      split; [reflexivity|]. split; [reflexivity|]. split; [simpl; lia|].
      split; [auto|]. split; [discriminate|]. left. auto. }
  destruct (Star.collected s) eqn:Hcol.
  { rewrite fb_visit_collected by assumption.
    destruct (fb_burst_fields s) as [Hid Hc].
    split; [assumption|]. split; [reflexivity|]. split; [simpl; lia|].
    split; [discriminate|]. split; [intros _; simpl; now rewrite Hid|].
    left. split; [reflexivity | congruence]. }
  destruct (isHit e m (fadeIn s)) eqn:Hhit.
  - rewrite fb_visit_collect by assumption.
    destruct (fb_burst_fields (Star.setCollected (fadeIn s) true)) as [Hid Hc].
    simpl in Hid, Hc.
    split; [congruence|]. split; [reflexivity|]. split; [simpl; lia|].
    split; [discriminate|]. split; [intros _; simpl; split; [reflexivity | congruence]|].
    right. repeat split; auto.
  - rewrite fb_visit_miss by assumption.
    split; [assumption|]. split; [reflexivity|]. split; [simpl; lia|].
    split; [discriminate|]. split; [intros _; simpl; split; congruence|].
    left. split; [reflexivity | congruence].
Qed.

(** A visit leaves the engine as it is or awards a collection. *)
Lemma fb_visit_engine e m s :
  fst (fst (fst (visit e m s))) = e \/ fst (fst (fst (visit e m s))) = award e.
Proof.
  destruct (Star.active s) eqn:Hact; [|rewrite fb_visit_inactive by assumption; now left].
  destruct (Star.collected s) eqn:Hcol;
    [rewrite fb_visit_collected by assumption; now left|].
  destruct (isHit e m (fadeIn s)) eqn:Hhit.
  - rewrite fb_visit_collect by assumption. now right.
  - rewrite fb_visit_miss by assumption. now left.
Qed.

Lemma fb_filter_field {B : Type} (f : Engine -> B) e m l :
  (forall e, f (award e) = f e) ->
  f (fst (fst (filterStars e m l))) = f e.
Proof.
  intros Hf. unfold filterStars. apply filterWith_field.
  intros e0 s. destruct (fb_visit_engine e0 m s) as [-> | ->]; auto.
Qed.

(** *** The scale through a visit *)

Lemma fb_fadeIn_scale (s : Star.t) (k : nat) :
  Star.collected s = false -> (k <= kmax)%nat -> Star.scale s = scaleAt fade k 0 ->
  exists k', (k' <= kmax)%nat /\ Star.scale (fadeIn s) = scaleAt fade k' 0.
Proof.
  intros Hcol Hk Hs. unfold fadeIn. rewrite Hcol. cbn [negb andb].
  destruct (Star.scale s <? 1)%float eqn:Hlt.
  - exists (S k). split; [|simpl; rewrite Hs; apply scaleAt_fade].
    destruct (Nat.eq_dec k kmax) as [->|]; [|lia].
    exfalso. pose proof fb_fadeStops as Hstop. unfold fadeStops in Hstop.
    apply negb_true_iff in Hstop.
    change (addTimes kmax fade 0) with (scaleAt fade kmax 0) in Hstop.
    congruence.
  - exists k. split; assumption.
Qed.

(** One burst step of a collected star. *)
Lemma fb_burst_step (s : Star.t) (k j : nat) :
  Star.collected s = true -> (k <= kmax)%nat -> (j <= jmax)%nat ->
  Star.scale s = scaleAt fade k j ->
  Star.scale (burst s) = scaleAt fade k (S j) /\
  Star.scale (burst s) = (Star.scale s + 0.2)%float /\
  (Star.scale s <? Star.scale (burst s))%float = true /\
  Star.active (burst s)
    = (if (ceiling <? Star.scale (burst s))%float then false else Star.active s) /\
  ((ceiling <? Star.scale (burst s))%float = false -> (S j <= jmax)%nat).
Proof.
  intros Hcol Hk Hj Hs.
  assert (Hscale : Star.scale (burst s) = (Star.scale s + 0.2)%float).
  { unfold burst. rewrite Hcol. destruct (_ <? _)%float; reflexivity. }
  assert (Hnext : Star.scale (burst s) = scaleAt fade k (S j)).
  { rewrite Hscale, Hs. apply scaleAt_burst. }
  split; [assumption|]. split; [assumption|]. split; [|split].
  - rewrite Hnext, Hs. apply (burstGrows_spec fade kmax jmax); auto using fb_burstGrows.
  - rewrite Hscale. unfold burst. rewrite Hcol. cbn [Star.scale Star.setScale].
    unfold ceiling. destruct (4 <? Star.scale s + 0.2)%float; reflexivity.
  - intros Hlow. destruct (Nat.eq_dec j jmax) as [->|]; [|lia].
    exfalso. rewrite Hnext in Hlow.
    rewrite (burstEnds_spec fade ceiling kmax jmax k fb_burstEnds Hk) in Hlow.
    discriminate.
Qed.

Lemma fb_visit_scale e m s :
  (Star.active s = true -> ScaleOK fade kmax jmax s) ->
  Star.active (snd (fst (fst (visit e m s)))) = true ->
  ScaleOK fade kmax jmax (snd (fst (fst (visit e m s)))).
Proof.
  intros Hs.
  destruct (Star.active s) eqn:Hact; [|rewrite fb_visit_inactive by assumption; simpl; congruence].
  destruct (Hs eq_refl) as (k & j & Hk & Hj & Hscale & Hzero).
  destruct (Star.collected s) eqn:Hcol.
  - rewrite fb_visit_collected by assumption. cbn [fst snd]. intros Hkept.
    destruct (fb_burst_step s k j Hcol Hk Hj Hscale) as (Hnext & _ & _ & Hactive & Hroom).
    destruct (fb_burst_fields s) as [_ Hc].
    exists k, (S j). split; [assumption|]. split; [|split; [assumption | congruence]].
    apply Hroom. destruct (ceiling <? Star.scale (burst s))%float; [congruence | reflexivity].
  - rewrite (Hzero eq_refl) in Hscale.
    destruct (fb_fadeIn_scale s k Hcol Hk Hscale) as (k' & Hk' & Hfade).
    destruct (isHit e m (fadeIn s)) eqn:Hhit.
    + rewrite fb_visit_collect by assumption. cbn [fst snd]. intros Hkept.
      set (s1 := Star.setCollected (fadeIn s) true) in *.
      assert (Hc1 : Star.collected s1 = true) by reflexivity.
      assert (Hj0 : (0 <= jmax)%nat) by lia.
      destruct (fb_burst_step s1 k' 0 Hc1 Hk' Hj0 Hfade) as (Hnext & _ & _ & Hactive & Hroom).
      destruct (fb_burst_fields s1) as [_ Hc].
      exists k', 1%nat. split; [assumption|]. split; [|split; [assumption | congruence]].
      apply Hroom. destruct (ceiling <? Star.scale (burst s1))%float; [congruence | reflexivity].
    + rewrite fb_visit_miss by assumption. cbn [fst snd]. intros _.
      exists k', O. split; [assumption|]. split; [lia|]. split; [assumption | reflexivity].
Qed.

(** *** The invariant through a frame *)

Lemma fb_gap : 0 <= gap.
Proof. unfold gap. lia. Qed.

Lemma fb_detectMotion_fields e env :
  let e1 := fst (detectMotion e env) in
  stars e1 = stars e /\ score e1 = score e /\ lastStarTime e1 = lastStarTime e /\
  isPlaying e1 = isPlaying e /\ cameraActive e1 = cameraActive e /\
  lastTouchX e1 = lastTouchX e /\ lastTouchY e1 = lastTouchY e.
Proof. unfold detectMotion. destruct (_ || _); simpl; repeat split. Qed.

Lemma fb_detectMotion_inv e env log : Inv e log -> Inv (fst (detectMotion e env)) log.
Proof.
  intros [Hs Hl Hsc Hidle Ht].
  destruct (fb_detectMotion_fields e env) as (Hst & Hscore & Hlast & Hplay & _).
  split; rewrite ?Hst, ?Hscore, ?Hlast, ?Hplay; assumption.
Qed.

(** The two outcomes of a spawn attempt. *)
Lemma fb_spawnStar_cases e env :
  (spawnStar e env = (e, []) /\
   (Env.now env - lastStarTime e <= 1000 \/ 6 <= activeCount (stars e))) \/
  (spawnStar e env = (pushStar e (newStar env) (Env.now env), [Spawn (newStar env)]) /\
   lastStarTime e + 1000 < Env.now env /\ activeCount (stars e) < 6).
Proof.
  unfold spawnStar.
  destruct (1000 <? Env.now env - lastStarTime e) eqn:Ht;
    destruct (activeCount (stars e) <? 6) eqn:Hc; cbn [andb].
  - right. apply Z.ltb_lt in Ht, Hc. repeat split; lia.
  - left. apply Z.ltb_ge in Hc. split; [reflexivity | lia].
  - left. apply Z.ltb_ge in Ht. split; [reflexivity | lia].
  - left. apply Z.ltb_ge in Ht. split; [reflexivity | lia].
Qed.

Lemma fb_spawnStar_inv e env log :
  Inv e log -> isPlaying e = true ->
  Inv (fst (spawnStar e env)) (log ++ snd (spawnStar e env)).
Proof.
  intros HI Hplay.
  destruct (fb_spawnStar_cases e env) as [[-> _]|(-> & Hlate & Hroom)]; cbn [fst snd].
  - now rewrite app_nil_r.
  - destruct HI as [Hs Hl Hsc Hidle Ht]. split; cbn [stars score lastStarTime isPlaying pushStar].
    + apply (StarsOK_push cap gap fb_gap (stars e) (lastStarTime e) (newStar env));
        auto.
    + apply (LogOK_push gap fb_gap (score e) (stars e) (lastStarTime e) log (newStar env));
        auto.
    + apply Forall_app. split; [assumption|]. constructor; [|constructor].
      intros _. exists O, O. repeat split; try lia. 
    + congruence.
    + unfold gap in *. simpl in Hlate. lia.
Qed.

Lemma fb_filter_inv e m log :
  Inv e log -> isPlaying e = true ->
  Inv (withStars (fst (fst (filterStars e m (stars e)))) (snd (fst (filterStars e m (stars e)))))
      (log ++ snd (filterStars e m (stars e)) ++ [RequestFrame]).
Proof.
  intros [Hs Hl Hsc Hidle Ht] Hplay.
  pose proof (fb_filter_field lastStarTime e m (stars e) (fun _ => eq_refl)) as Hlast.
  pose proof (fb_filter_field isPlaying e m (stars e) (fun _ => eq_refl)) as Hp.
  pose proof (StarsOK_filter score _ (fb_visit_ok m) cap gap (stars e) (lastStarTime e) e Hs)
    as Hs'.
  pose proof (LogOK_filter score _ (fb_visit_ok m) cap gap fb_gap (stars e) (lastStarTime e)
                log [RequestFrame] e Hs Hl eq_refl eq_refl) as Hl'.
  pose proof (filterWith_Forall (fun e s => visit e m s)
                (fun s => Star.active s = true -> ScaleOK fade kmax jmax s) (stars e) e
                (fun e0 s0 H => fb_visit_scale e0 m s0 H) Hsc) as Hsc'.
  unfold filterStars in *.
  destruct (filterWith (fun e s => visit e m s) e (stars e)) as [[e' kept] evs].
  cbn [fst snd] in *.
  split; cbn [stars score lastStarTime isPlaying withStars]; rewrite ?Hlast; try assumption.
  rewrite Hp, Hplay. discriminate.
Qed.

Lemma fb_gameLoop_inv e env log :
  Inv e log -> Inv (fst (gameLoop e env)) (log ++ snd (gameLoop e env)).
Proof.
  intros HI. unfold gameLoop.
  destruct (isPlaying e) eqn:Hplay; cbn [negb]; [|cbn [fst snd]; now rewrite app_nil_r].
  pose proof (fb_detectMotion_inv e env log HI) as H1.
  destruct (fb_detectMotion_fields e env) as (_ & _ & _ & Hp1 & _).
  destruct (detectMotion e env) as [e1 m]. cbn [fst snd] in *.
  rewrite Hplay in Hp1.
  pose proof (fb_spawnStar_inv e1 env log H1 Hp1) as H2.
  assert (Hp2 : isPlaying (fst (spawnStar e1 env)) = true).
  { destruct (fb_spawnStar_cases e1 env) as [[-> _]|(-> & _)]; assumption. }
  destruct (spawnStar e1 env) as [e2 spawned]. cbn [fst snd] in *.
  pose proof (fb_filter_inv e2 m (log ++ spawned) H2 Hp2) as H3.
  destruct (filterStars e2 m (stars e2)) as [[e3 kept] evs]. cbn [fst snd] in *.
  now rewrite <- app_assoc in H3.
Qed.

(** *** The invariant through a session *)

Lemma fb_begin_inv e : 0 <= lastStarTime e -> Inv (begin e) [].
Proof.
  intros Ht. split; cbn [stars score lastStarTime isPlaying begin].
  - split; simpl; first [unfold cap; lia | constructor].
  - split; simpl; first [lia | intros ? [] | constructor].
  - constructor.
  - discriminate.
  - assumption.
Qed.

Lemma fb_dispatch_fields e ev w h :
  let e' := dispatch e ev w h in
  stars e' = stars e /\ score e' = score e /\ lastStarTime e' = lastStarTime e /\
  isPlaying e' = isPlaying e /\ cameraActive e' = cameraActive e.
Proof.
  assert (H : forall cx cy,
    let e' := handleInteraction e cx cy w h in
    stars e' = stars e /\ score e' = score e /\ lastStarTime e' = lastStarTime e /\
    isPlaying e' = isPlaying e /\ cameraActive e' = cameraActive e).
  { intros cx cy. cbv zeta. unfold handleInteraction.
    destruct (isPlaying e) eqn:Hp; simpl; repeat split; auto. }
  destruct ev as [cx cy|cx cy|cx cy|b cx cy]; simpl; try apply H.
  destruct (0 <? b); [apply H | repeat split].
Qed.

Lemma fb_dispatch_inv e ev w h log : Inv e log -> Inv (dispatch e ev w h) log.
Proof.
  intros [Hs Hl Hsc Hidle Ht].
  destruct (fb_dispatch_fields e ev w h) as (Hst & Hscore & Hlast & Hplay & _).
  split; rewrite ?Hst, ?Hscore, ?Hlast, ?Hplay; assumption.
Qed.

Lemma fb_step_inv e log i :
  Inv e log -> Inv (fst (step (e, log) i)) (snd (step (e, log) i)).
Proof.
  intros HI. unfold step.
  destruct i as [env|ev w h|env]; cbn [react opens].
  - unfold start. destruct (isPlaying e) eqn:Hplay; cbn [negb fst snd].
    + now rewrite app_nil_r.
    + pose proof (fb_gameLoop_inv (begin e) env [] (fb_begin_inv e (inv_time e log HI))) as H.
      destruct (gameLoop (begin e) env) as [e' evs]. exact H.
  - cbn [fst snd]. rewrite app_nil_r. now apply fb_dispatch_inv.
  - pose proof (fb_gameLoop_inv e env log HI) as H.
    destruct (gameLoop e env) as [e' evs]. exact H.
Qed.

Lemma fb_run_inv inputs e log :
  Inv e log -> Inv (fst (run (e, log) inputs)) (snd (run (e, log) inputs)).
Proof.
  unfold run. revert e log. induction inputs as [|i inputs IH]; intros e log HI.
  - exact HI.
  - cbn [fold_left]. pose proof (fb_step_inv e log i HI) as H.
    destruct (step (e, log) i) as [e' log']. now apply IH.
Qed.

(** [init] only ever resolves. *)
Lemma fb_init_total e p : exists e', init e p = Resolved e'.
Proof.
  unfold init. destruct (hasGetUserMedia p); cbn [negb]; [|eauto].
  destruct (tryCamera e p); eauto.
Qed.

(** [init] changes the mode, the notice and the visibility of the video
    only. *)
Lemma fb_init_fields e p e' :
  init e p = Resolved e' ->
  stars e' = stars e /\ score e' = score e /\ lastStarTime e' = lastStarTime e /\
  isPlaying e' = isPlaying e.
Proof.
  unfold init, tryCamera.
  destruct (hasGetUserMedia p); cbn [negb].
  - destruct (acquire p) as [[|]|name].
    + destruct (play p); intros [= <-]; simpl; repeat split.
    + intros [= <-]; repeat split.
    + intros [= <-]; simpl; repeat split.
  - intros [= <-]; simpl; repeat split.
Qed.

Lemma fb_boot_inv c p : Inv (boot c p) [].
Proof.
  unfold boot. destruct (fb_init_total (new c) p) as [e' He']. rewrite He'.
  destruct (fb_init_fields _ _ _ He') as (Hst & Hscore & Hlast & Hplay).
  split; rewrite ?Hst, ?Hscore, ?Hlast, ?Hplay; simpl.
  - split; simpl; first [unfold cap; lia | constructor].
  - split; simpl; first [lia | intros ? [] | constructor].
  - constructor.
  - auto.
  - lia.
Qed.

Lemma fb_session_inv c p inputs :
  Inv (fst (session c p inputs)) (snd (session c p inputs)).
Proof. unfold session. apply fb_run_inv, fb_boot_inv. Qed.

(** *** The pointer *)

Lemma fb_cleared_award e : cleared (award e).
Proof. reflexivity. Qed.

Lemma fb_cleared_pointerHit e s : cleared e -> pointerHit e s = false.
Proof. unfold cleared, pointerHit. now intros ->. Qed.

(** The hit test is the pointer check or else the camera check. *)
Lemma fb_isHit_orb e m s :
  isHit e m s
  = pointerHit e s || (cameraActive e && (0 <? Motion.width m) && (4 <? starHits 2 m s)).
Proof.
  unfold isHit, cameraCheck.
  destruct (pointerHit e s); cbn [negb andb orb]; [reflexivity|].
  destruct (cameraActive e); cbn [andb]; [|reflexivity].
  destruct (0 <? Motion.width m); cbn [andb]; [|reflexivity].
  destruct (4 <? starHits 2 m s); reflexivity.
Qed.

(** What a visit records and does to the engine: nothing, or one
    collection, with the award. *)
Lemma fb_visit_effects e m s :
  (fst (fst (fst (visit e m s))) = e /\ collectIds (snd (visit e m s)) = [] /\
   pointerCollectIds (snd (visit e m s)) = [] /\
   cameraCollectIds (snd (visit e m s)) = []) \/
  (fst (fst (fst (visit e m s))) = award e /\
   Star.active s = true /\ Star.collected s = false /\
   isHit e m (fadeIn s) = true /\
   collectIds (snd (visit e m s)) = [Star.id s] /\
   pointerCollectIds (snd (visit e m s))
   = (if pointerHit e (fadeIn s) then [Star.id s] else []) /\
   cameraCollectIds (snd (visit e m s))
   = (if pointerHit e (fadeIn s) then [] else [Star.id s])).
Proof.
  destruct (Star.active s) eqn:Hact;
    [|rewrite fb_visit_inactive by assumption; left; repeat split].
  destruct (Star.collected s) eqn:Hcol;
    [rewrite fb_visit_collected by assumption; left; repeat split|].
  destruct (isHit e m (fadeIn s)) eqn:Hhit.
  - rewrite fb_visit_collect by assumption. right. cbn [fst snd].
    repeat split; destruct (pointerHit e (fadeIn s)); reflexivity.
  - rewrite fb_visit_miss by assumption. left. repeat split.
Qed.

Lemma fb_filter_pointer l e m :
  let '(e', _, evs) := filterStars e m l in
  (length (pointerCollectIds evs) <= 1)%nat /\
  (pointerCollectIds evs <> [] -> cleared e') /\
  (cleared e -> pointerCollectIds evs = [] /\ cleared e').
Proof.
  unfold filterStars. revert e. induction l as [|s rest IH]; intros e.
  - simpl. repeat split; auto. congruence.
  - cbn [filterWith].
    pose proof (fb_visit_effects e m s) as Hv.
    destruct (visit e m s) as [[[e1 s'] keep] ev]. cbn [fst snd] in Hv.
    specialize (IH e1).
    destruct (filterWith (fun e0 s0 => visit e0 m s0) e1 rest) as [[e2 kept] evs].
    destruct IH as (Hlen & Hsome & Hnone).
    rewrite pointerCollectIds_app, length_app.
    destruct Hv as [(-> & _ & Hp & _)|(-> & _ & _ & _ & _ & Hp & _)].
    + rewrite Hp. exact (conj Hlen (conj Hsome Hnone)).
    + destruct (Hnone (fb_cleared_award e)) as [Hnil Hcl].
      rewrite Hnil, app_nil_r, Hp. split; [|split].
      * destruct (pointerHit e (fadeIn s)); simpl; lia.
      * intros _. exact Hcl.
      * intros Hc. rewrite (fb_cleared_pointerHit e (fadeIn s) Hc). split; [reflexivity | exact Hcl].
Qed.

Lemma fb_gameLoop_pointer e env :
  let '(e', evs) := gameLoop e env in
  (length (pointerCollectIds evs) <= 1)%nat /\
  (pointerCollectIds evs <> [] -> cleared e') /\
  (cleared e -> pointerCollectIds evs = [] /\ cleared e').
Proof.
  unfold gameLoop. destruct (isPlaying e); cbn [negb].
  2:{ simpl. repeat split; auto. congruence. }
  destruct (fb_detectMotion_fields e env) as (_ & _ & _ & _ & _ & Hx1 & _).
  destruct (detectMotion e env) as [e1 m]. cbn [fst] in Hx1.
  assert (Hx2 : lastTouchX (fst (spawnStar e1 env)) = lastTouchX e).
  { destruct (fb_spawnStar_cases e1 env) as [[-> _]|(-> & _)]; exact Hx1. }
  assert (Hsp : pointerCollectIds (snd (spawnStar e1 env)) = []).
  { destruct (fb_spawnStar_cases e1 env) as [[-> _]|(-> & _)]; reflexivity. }
  destruct (spawnStar e1 env) as [e2 spawned]. cbn [fst snd] in *.
  pose proof (fb_filter_pointer (stars e2) e2 m) as Hf.
  destruct (filterStars e2 m (stars e2)) as [[e3 kept] evs].
  destruct Hf as (Hlen & Hsome & Hnone).
  assert (Hp : pointerCollectIds (spawned ++ evs ++ [RequestFrame]) = pointerCollectIds evs).
  { rewrite !pointerCollectIds_app, Hsp. simpl. now rewrite app_nil_r. }
  rewrite Hp. unfold cleared in *. cbn [lastTouchX withStars]. rewrite Hx2 in Hnone.
  repeat split; auto; now apply Hnone.
Qed.

(** Frames with no pointer activity in between. *)
Lemma fb_frames_pointer (envs : list Env.t) (e : Engine) :
  (length (pointerCollectIds (emitted e (map Frame envs))) <= 1)%nat /\
  (cleared e -> pointerCollectIds (emitted e (map Frame envs)) = []).
Proof.
  revert e. induction envs as [|env envs IH]; intros e.
  - simpl. split; [lia | reflexivity].
  - cbn [map emitted react].
    pose proof (fb_gameLoop_pointer e env) as Hg.
    destruct (gameLoop e env) as [e' evs].
    destruct Hg as (Hlen & Hsome & Hnone).
    destruct (IH e') as [IHlen IHnone].
    rewrite pointerCollectIds_app, length_app. split.
    + destruct (pointerCollectIds evs) as [|i l] eqn:Hp.
      * simpl. lia.
      * rewrite IHnone by (apply Hsome; discriminate). simpl in *. lia.
    + intros Hc. destruct (Hnone Hc) as [-> Hc']. now rewrite IHnone.
Qed.

Lemma fb_frames_cleared (envs : list Env.t) (e : Engine) (log : list Event) :
  cleared e -> cleared (fst (run (e, log) (map Frame envs))).
Proof.
  unfold run. revert e log. induction envs as [|env envs IH]; intros e log Hc.
  - exact Hc.
  - cbn [map fold_left step react opens].
    pose proof (fb_gameLoop_pointer e env) as Hg.
    destruct (gameLoop e env) as [e' evs].
    destruct Hg as (_ & _ & Hnone). apply IH. now apply Hnone.
Qed.

(** *** The mode *)

Lemma fb_gameLoop_camera e env : cameraActive (fst (gameLoop e env)) = cameraActive e.
Proof.
  unfold gameLoop. destruct (isPlaying e); cbn [negb]; [|reflexivity].
  destruct (fb_detectMotion_fields e env) as (_ & _ & _ & _ & Hc1 & _).
  destruct (detectMotion e env) as [e1 m]. cbn [fst] in Hc1.
  assert (Hc2 : cameraActive (fst (spawnStar e1 env)) = cameraActive e).
  { destruct (fb_spawnStar_cases e1 env) as [[-> _]|(-> & _)]; exact Hc1. }
  destruct (spawnStar e1 env) as [e2 spawned]. cbn [fst] in Hc2.
  pose proof (fb_filter_field cameraActive e2 m (stars e2) (fun _ => eq_refl)) as Hc3.
  destruct (filterStars e2 m (stars e2)) as [[e3 kept] evs]. cbn [fst] in *.
  simpl. congruence.
Qed.

Lemma fb_react_camera e i : cameraActive (fst (react e i)) = cameraActive e.
Proof.
  destruct i as [env|ev w h|env]; cbn [react].
  - unfold start. destruct (isPlaying e); [reflexivity|].
    now rewrite fb_gameLoop_camera.
  - cbn [fst]. now destruct (fb_dispatch_fields e ev w h) as (_ & _ & _ & _ & ->).
  - apply fb_gameLoop_camera.
Qed.

Lemma fb_run_camera inputs e log :
  cameraActive (fst (run (e, log) inputs)) = cameraActive e.
Proof.
  unfold run. revert e log. induction inputs as [|i inputs IH]; intros e log.
  - reflexivity.
  - cbn [fold_left step]. pose proof (fb_react_camera e i) as Hr.
    destruct (react e i) as [e' evs]. cbn [fst] in Hr. rewrite IH. exact Hr.
Qed.

Lemma fb_init_failed e p e' :
  acquired p = false -> cameraActive e = false -> init e p = Resolved e' ->
  cameraActive e' = false.
Proof.
  unfold acquired, init, tryCamera. intros Hacq He.
  destruct (hasGetUserMedia p); cbn [negb andb] in *; [|intros [= <-]; reflexivity].
  destruct (acquire p) as [[|]|name].
  - destruct (play p); [discriminate|]. intros [= <-]; reflexivity.
  - intros [= <-]; assumption.
  - intros [= <-]; reflexivity.
Qed.

(** *** Frames without a motion mask *)

Lemma fb_detectMotion_guard e env :
  cameraActive e = false \/ Env.readyState env < 2 ->
  detectMotion e env = (e, Motion.empty).
Proof.
  intros Hguard. unfold detectMotion.
  assert (H : negb (cameraActive e) || (Env.readyState env <? 2) = true).
  { destruct Hguard as [-> | Hlt]; [reflexivity|].
    apply Z.ltb_lt in Hlt. rewrite Hlt. apply orb_true_r. }
  now rewrite H.
Qed.

Lemma fb_isHit_empty e m s : Motion.width m <= 0 -> isHit e m s = pointerHit e s.
Proof.
  intros Hw. rewrite fb_isHit_orb.
  assert (H : (0 <? Motion.width m) = false) by (apply Z.ltb_ge; lia).
  now rewrite H, andb_false_r, orb_false_r.
Qed.

Lemma fb_filter_no_camera l e m :
  Motion.width m <= 0 -> cameraCollectIds (snd (filterStars e m l)) = [].
Proof.
  intros Hw. unfold filterStars. revert e. induction l as [|s rest IH]; intros e.
  - reflexivity.
  - cbn [filterWith].
    pose proof (fb_visit_effects e m s) as Hv.
    destruct (visit e m s) as [[[e1 s'] keep] ev]. cbn [fst snd] in Hv.
    specialize (IH e1).
    destruct (filterWith (fun e0 s0 => visit e0 m s0) e1 rest) as [[e2 kept] evs].
    cbn [snd] in *. rewrite cameraCollectIds_app, IH, app_nil_r.
    destruct Hv as [(_ & _ & _ & Hc)|(_ & _ & _ & Hhit & _ & _ & Hc)]; [assumption|].
    rewrite Hc. rewrite (fb_isHit_empty e m _ Hw) in Hhit. now rewrite Hhit.
Qed.

Lemma fb_gameLoop_requests e env :
  isPlaying e = true -> requestsFrame (snd (gameLoop e env)) = true.
Proof.
  intros Hplay. unfold gameLoop. rewrite Hplay. cbn [negb].
  destruct (detectMotion e env) as [e1 m].
  destruct (spawnStar e1 env) as [e2 spawned].
  destruct (filterStars e2 m (stars e2)) as [[e3 kept] evs]. cbn [snd].
  unfold requestsFrame. rewrite !existsb_app. simpl. now rewrite !orb_true_r.
Qed.

Lemma fb_gameLoop_no_camera e env :
  cameraActive e = false \/ Env.readyState env < 2 ->
  cameraCollectIds (snd (gameLoop e env)) = [].
Proof.
  intros Hguard. unfold gameLoop. destruct (isPlaying e); cbn [negb]; [|reflexivity].
  rewrite (fb_detectMotion_guard e env Hguard).
  assert (Hsp : cameraCollectIds (snd (spawnStar e env)) = []).
  { destruct (fb_spawnStar_cases e env) as [[-> _]|(-> & _)]; reflexivity. }
  destruct (spawnStar e env) as [e2 spawned]. cbn [snd] in Hsp.
  pose proof (fb_filter_no_camera (stars e2) e2 Motion.empty ltac:(simpl; lia)) as Hf.
  destruct (filterStars e2 Motion.empty (stars e2)) as [[e3 kept] evs]. cbn [snd] in *.
  rewrite !cameraCollectIds_app, Hsp, Hf. reflexivity.
Qed.

(** *** The burst of a collected star *)

Lemma fb_gameLoop_last e env : lastStarTime e <= lastStarTime (fst (gameLoop e env)).
Proof.
  unfold gameLoop. destruct (isPlaying e); cbn [negb fst]; [|lia].
  destruct (fb_detectMotion_fields e env) as (_ & _ & Hl1 & _).
  destruct (detectMotion e env) as [e1 m]. cbn [fst] in Hl1.
  assert (Hl2 : lastStarTime e <= lastStarTime (fst (spawnStar e1 env))).
  { destruct (fb_spawnStar_cases e1 env) as [[-> _]|(-> & Hlate & _)]; simpl; lia. }
  destruct (spawnStar e1 env) as [e2 spawned]. cbn [fst] in Hl2.
  pose proof (fb_filter_field lastStarTime e2 m (stars e2) (fun _ => eq_refl)) as Hl3.
  destruct (filterStars e2 m (stars e2)) as [[e3 kept] evs]. cbn [fst] in *.
  simpl. lia.
Qed.

Lemma fb_gameLoop_collected e env log s :
  Inv e log -> In s (stars e) -> Star.collected s = true ->
  In (Star.id s) (drawIds (snd (gameLoop e env))) /\
  if Star.active (burst s)
  then In (burst s) (stars (fst (gameLoop e env)))
  else ~ In (Star.id s) (map Star.id (stars (fst (gameLoop e env)))).
Proof.
  intros HI Hin Hcol.
  assert (Hplay : isPlaying e = true).
  { destruct (isPlaying e) eqn:Hp; [reflexivity|].
    destruct (inv_idle e log HI Hp) as (Hnil & _). rewrite Hnil in Hin. destruct Hin. }
  unfold gameLoop. rewrite Hplay. cbn [negb].
  pose proof (fb_detectMotion_inv e env log HI) as H1.
  destruct (fb_detectMotion_fields e env) as (Hst1 & _ & _ & Hp1 & _).
  destruct (detectMotion e env) as [e1 m]. cbn [fst snd] in *.
  rewrite Hplay in Hp1. rewrite <- Hst1 in Hin.
  pose proof (fb_spawnStar_inv e1 env log H1 Hp1) as H2.
  assert (Hin2 : In s (stars (fst (spawnStar e1 env)))).
  { destruct (fb_spawnStar_cases e1 env) as [[-> _]|(-> & _)]; cbn [fst stars pushStar];
      [assumption | apply in_or_app; now left]. }
  destruct (spawnStar e1 env) as [e2 spawned]. cbn [fst snd] in *.
  destruct (inv_stars _ _ H2) as [Hact _ Hsorted _].
  pose proof (sorted_gapped_NoDup gap _ fb_gap Hsorted) as Hnd.
  assert (Hs_act : Star.active s = true).
  { rewrite List.Forall_forall in Hact. now apply Hact. }
  destruct (filterWith_elem score _ (fb_visit_ok m) (stars e2) e2 s Hnd Hin2) as [e0 He0].
  rewrite fb_visit_collected in He0 by assumption. cbn [fst snd] in He0.
  pose proof (filterWith_draw score _ (fb_visit_ok m) (stars e2) e2) as Hdraw.
  unfold filterStars.
  destruct (filterWith (fun e3 s0 => visit e3 m s0) e2 (stars e2)) as [[e3 kept] evs].
  cbn [fst snd stars withStars] in *. split; [|exact He0].
  rewrite !drawIds_app, Hdraw, filter_all_active by assumption.
  apply in_or_app. right. apply in_or_app. left. now apply in_map.
Qed.

(** An identifier of the past that is not in the collection does not come
    back, and is not drawn. *)
Lemma fb_gameLoop_absent e env i :
  i <= lastStarTime e -> ~ In i (map Star.id (stars e)) ->
  i <= lastStarTime (fst (gameLoop e env)) /\
  ~ In i (map Star.id (stars (fst (gameLoop e env)))) /\
  ~ In i (drawIds (snd (gameLoop e env))).
Proof.
  intros Hpast Hout.
  pose proof (fb_gameLoop_last e env) as Hlast.
  split; [lia|]. clear Hlast.
  unfold gameLoop. destruct (isPlaying e); cbn [negb fst snd]; [|split; [assumption | intros []]].
  destruct (fb_detectMotion_fields e env) as (Hst1 & _ & Hl1 & _).
  destruct (detectMotion e env) as [e1 m]. cbn [fst] in *.
  assert (Hout2 : ~ In i (map Star.id (stars (fst (spawnStar e1 env)))) /\
                  drawIds (snd (spawnStar e1 env)) = []).
  { destruct (fb_spawnStar_cases e1 env) as [[-> _]|(-> & Hlate & _)];
      cbn [fst snd stars pushStar]; rewrite Hst1; [split; [assumption | reflexivity]|].
    split; [|reflexivity]. rewrite map_app, in_app_iff. simpl. intros [Hi|[Hi|[]]]; [tauto | lia]. }
  destruct (spawnStar e1 env) as [e2 spawned]. cbn [fst snd] in *.
  destruct Hout2 as [Hout2 Hsp].
  pose proof (filterWith_sublist score _ (fb_visit_ok m) (stars e2) e2) as Hsub.
  pose proof (filterWith_draw score _ (fb_visit_ok m) (stars e2) e2) as Hdraw.
  unfold filterStars.
  destruct (filterWith (fun e3 s0 => visit e3 m s0) e2 (stars e2)) as [[e3 kept] evs].
  cbn [fst snd stars withStars]. split.
  - intros Hi. apply Hout2. exact (sublist_In_ids _ _ _ Hsub Hi).
  - rewrite !drawIds_app, Hsp, Hdraw. simpl. rewrite app_nil_r. intros Hi. apply Hout2.
    apply in_map_iff in Hi. destruct Hi as (t & <- & Ht).
    apply List.filter_In in Ht. apply in_map, Ht.
Qed.

Lemma fb_react_absent e inp i :
  i <= lastStarTime e -> ~ In i (map Star.id (stars e)) ->
  i <= lastStarTime (fst (react e inp)) /\
  ~ In i (map Star.id (stars (fst (react e inp)))) /\
  ~ In i (drawIds (snd (react e inp))).
Proof.
  intros Hpast Hout. destruct inp as [env|ev w h|env]; cbn [react].
  - unfold start. destruct (isPlaying e).
    + cbn [fst snd]. repeat split; [lia | assumption | intros []].
    + apply fb_gameLoop_absent; [exact Hpast | intros []].
  - cbn [fst snd]. destruct (fb_dispatch_fields e ev w h) as (-> & _ & -> & _).
    repeat split; [lia | assumption | intros []].
  - now apply fb_gameLoop_absent.
Qed.

Lemma fb_absent_forever inputs e log i :
  i <= lastStarTime e -> ~ In i (map Star.id (stars e)) ->
  ~ In i (map Star.id (stars (fst (run (e, log) inputs)))) /\
  ~ In i (drawIds (emitted e inputs)).
Proof.
  unfold run. revert e log. induction inputs as [|inp inputs IH]; intros e log Hpast Hout.
  - split; [assumption | intros []].
  - cbn [fold_left step emitted].
    destruct (fb_react_absent e inp i Hpast Hout) as (Hpast' & Hout' & Hdraw).
    destruct (react e inp) as [e' evs]. cbn [fst snd] in *.
    destruct (IH e' (if opens e inp then evs else log ++ evs) Hpast' Hout') as [IH1 IH2].
    split; [exact IH1|].
    rewrite drawIds_app, in_app_iff. tauto.
Qed.

(** A collected star goes one burst step per frame, until it is gone. *)
Lemma fb_expiry_progress envs e log s k j :
  Inv e log -> In s (stars e) -> Star.collected s = true ->
  (k <= kmax)%nat -> (j <= jmax)%nat -> Star.scale s = scaleAt fade k j ->
  ~ In (Star.id s) (map Star.id (stars (fst (run (e, log) (map Frame envs))))) \/
  exists s', In s' (stars (fst (run (e, log) (map Frame envs)))) /\
             Star.id s' = Star.id s /\ Star.collected s' = true /\
             Star.scale s' = scaleAt fade k (j + length envs) /\
             (j + length envs <= jmax)%nat.
Proof.
  revert e log s j. induction envs as [|env envs IH]; intros e log s j HI Hin Hcol Hk Hj Hs.
  - right. exists s. simpl. rewrite Nat.add_0_r. repeat split; assumption.
  - unfold run. cbn [map fold_left step react opens].
    pose proof (fb_gameLoop_inv e env log HI) as HI'.
    destruct (fb_gameLoop_collected e env log s HI Hin Hcol) as [_ Hfate].
    pose proof (fb_gameLoop_last e env) as Hlast.
    destruct (gameLoop e env) as [e' evs]. cbn [fst snd] in *.
    fold (run (e', log ++ evs) (map Frame envs)).
    destruct (fb_burst_step s k j Hcol Hk Hj Hs) as (Hnext & _ & _ & Hactive & Hroom).
    destruct (fb_burst_fields s) as [Hbid Hbcol].
    destruct (Star.active (burst s)) eqn:Hkept.
    + assert (Hlow : (ceiling <? Star.scale (burst s))%float = false).
      { destruct (ceiling <? Star.scale (burst s))%float; [discriminate | reflexivity]. }
      specialize (Hroom Hlow).
      destruct (IH e' (log ++ evs) (burst s) (S j) HI' Hfate ltac:(congruence) Hk Hroom Hnext)
        as [Hgone|(s' & Hs' & Hid' & Hcol' & Hscale' & Hbound)].
      * left. now rewrite <- Hbid.
      * right. exists s'. cbn [length]. rewrite Nat.add_succ_r.
        repeat split; try assumption; congruence.
    + left. apply (fb_absent_forever (map Frame envs) e' (log ++ evs)); [|assumption].
      destruct (inv_stars _ _ HI) as [_ _ _ Hpast].
      rewrite List.Forall_forall in Hpast.
      specialize (Hpast (Star.id s) (in_map Star.id _ _ Hin)). lia.
Qed.

Lemma fb_expiry envs e log s :
  Inv e log -> In s (stars e) -> Star.collected s = true ->
  (S jmax <= length envs)%nat ->
  ~ In (Star.id s) (map Star.id (stars (fst (run (e, log) (map Frame envs))))).
Proof.
  intros HI Hin Hcol Hlen.
  destruct (inv_stars _ _ HI) as [Hact _ _ _].
  rewrite List.Forall_forall in Hact. pose proof (Hact s Hin) as Hs_act.
  pose proof (inv_scale _ _ HI) as Hsc. rewrite List.Forall_forall in Hsc.
  destruct (Hsc s Hin Hs_act) as (k & j & Hk & Hj & Hs & _).
  destruct (fb_expiry_progress envs e log s k j HI Hin Hcol Hk Hj Hs)
    as [Hgone|(s' & _ & _ & _ & _ & Hbound)]; [assumption | lia].
Qed.

End FallbackFacts.

(** ** The camera-only engine: visits, frames and sessions *)

Module CameraOnlyFacts.

Import CameraOnly CameraOnlyInv.

Lemma co_fadeIn_fields (s : Star.t) :
  Star.id (fadeIn s) = Star.id s /\ Star.active (fadeIn s) = Star.active s /\
  Star.collected (fadeIn s) = Star.collected s /\
  Star.x (fadeIn s) = Star.x s /\ Star.y (fadeIn s) = Star.y s.
Proof. unfold fadeIn. destruct (_ && _); repeat split; reflexivity. Qed.

Lemma co_burst_fields (s : Star.t) :
  Star.id (burst s) = Star.id s /\ Star.collected (burst s) = Star.collected s.
Proof.
  unfold burst. destruct (Star.collected s) eqn:Hc; [|auto].
  destruct (_ <? _)%float; simpl; auto.
Qed.

Lemma co_burst_alive (s : Star.t) :
  Star.collected s = false -> burst s = s.
Proof. unfold burst. now intros ->. Qed.

Lemma co_visit_inactive e m s :
  Star.active s = false -> visit e m s = (e, s, false, []).
Proof. unfold visit. now intros ->. Qed.

Lemma co_visit_collect e m s :
  Star.active s = true -> Star.collected s = false -> isHit m (fadeIn s) = true ->
  visit e m s =
    (award e, burst (Star.setCollected (fadeIn s) true),
     Star.active (burst (Star.setCollected (fadeIn s) true)),
     [Collect (Star.id s) Camera; Draw (burst (Star.setCollected (fadeIn s) true))]).
Proof.
  intros Hact Hcol Hhit. unfold visit. rewrite Hact. cbn [negb].
  destruct (co_fadeIn_fields s) as (Hid & _ & Hc & _).
  rewrite Hhit, Hc, Hcol, Hid. reflexivity.
Qed.

Lemma co_visit_miss e m s :
  Star.active s = true -> Star.collected s = false -> isHit m (fadeIn s) = false ->
  visit e m s = (e, fadeIn s, true, [Draw (fadeIn s)]).
Proof.
  intros Hact Hcol Hhit. unfold visit. rewrite Hact. cbn [negb].
  destruct (co_fadeIn_fields s) as (_ & Ha & Hc & _).
  rewrite Hhit. cbn [andb]. rewrite co_burst_alive by congruence.
  rewrite Ha, Hact. reflexivity.
Qed.

Lemma co_visit_collected e m s :
  Star.active s = true -> Star.collected s = true ->
  visit e m s = (e, burst s, Star.active (burst s), [Draw (burst s)]).
Proof.
  intros Hact Hcol. unfold visit. rewrite Hact. cbn [negb].
  assert (Hf : fadeIn s = s) by (unfold fadeIn; now rewrite Hcol).
  rewrite Hf, Hcol, andb_false_r. reflexivity.
Qed.

Lemma co_visit_ok (m : Motion.t) : VisitOK score (fun e s => visit e m s).
Proof.
  intros e s.
  destruct (co_fadeIn_fields s) as (Hfid & Hfa & Hfc & _).
  destruct (Star.active s) eqn:Hact.
  2:{ rewrite co_visit_inactive by assumption.
      split; [reflexivity|]. split; [reflexivity|]. split; [simpl; lia|].
      split; [auto|]. split; [discriminate|]. left. auto. }
  destruct (Star.collected s) eqn:Hcol.
  { rewrite co_visit_collected by assumption.
    destruct (co_burst_fields s) as [Hid Hc].
    split; [assumption|]. split; [reflexivity|]. split; [simpl; lia|].
    split; [discriminate|]. split; [intros _; simpl; now rewrite Hid|].
    left. split; [reflexivity | congruence]. }
  destruct (isHit m (fadeIn s)) eqn:Hhit.
  - rewrite co_visit_collect by assumption.
    destruct (co_burst_fields (Star.setCollected (fadeIn s) true)) as [Hid Hc].
    simpl in Hid, Hc.
    split; [congruence|]. split; [reflexivity|]. split; [simpl; lia|].
    split; [discriminate|]. split; [intros _; simpl; split; [reflexivity | congruence]|].
    right. repeat split; auto.
  - rewrite co_visit_miss by assumption.
    split; [assumption|]. split; [reflexivity|]. split; [simpl; lia|].
    split; [discriminate|]. split; [intros _; simpl; split; congruence|].
    left. split; [reflexivity | congruence].
Qed.

Lemma co_visit_engine e m s :
  fst (fst (fst (visit e m s))) = e \/ fst (fst (fst (visit e m s))) = award e.
Proof.
  destruct (Star.active s) eqn:Hact; [|rewrite co_visit_inactive by assumption; now left].
  destruct (Star.collected s) eqn:Hcol;
    [rewrite co_visit_collected by assumption; now left|].
  destruct (isHit m (fadeIn s)) eqn:Hhit.
  - rewrite co_visit_collect by assumption. now right.
  - rewrite co_visit_miss by assumption. now left.
Qed.

Lemma co_filter_field {B : Type} (f : Engine -> B) e m l :
  (forall e, f (award e) = f e) ->
  f (fst (fst (filterStars e m l))) = f e.
Proof.
  intros Hf. unfold filterStars. apply filterWith_field.
  intros e0 s. destruct (co_visit_engine e0 m s) as [-> | ->]; auto.
Qed.

(** *** The scale through a visit *)

Lemma co_fadeIn_scale (s : Star.t) (k : nat) :
  Star.collected s = false -> (k <= kmax)%nat -> Star.scale s = scaleAt fade k 0 ->
  exists k', (k' <= kmax)%nat /\ Star.scale (fadeIn s) = scaleAt fade k' 0.
Proof.
  intros Hcol Hk Hs. unfold fadeIn. rewrite Hcol. cbn [negb andb].
  destruct (Star.scale s <? 1)%float eqn:Hlt.
  - exists (S k). split; [|simpl; rewrite Hs; apply scaleAt_fade].
    destruct (Nat.eq_dec k kmax) as [->|]; [|lia].
    exfalso. pose proof co_fadeStops as Hstop. unfold fadeStops in Hstop.
    apply negb_true_iff in Hstop.
    change (addTimes kmax fade 0) with (scaleAt fade kmax 0) in Hstop.
    congruence.
  - exists k. split; assumption.
Qed.

Lemma co_burst_step (s : Star.t) (k j : nat) :
  Star.collected s = true -> (k <= kmax)%nat -> (j <= jmax)%nat ->
  Star.scale s = scaleAt fade k j ->
  Star.scale (burst s) = scaleAt fade k (S j) /\
  Star.scale (burst s) = (Star.scale s + 0.2)%float /\
  (Star.scale s <? Star.scale (burst s))%float = true /\
  Star.active (burst s)
    = (if (ceiling <? Star.scale (burst s))%float then false else Star.active s) /\
  ((ceiling <? Star.scale (burst s))%float = false -> (S j <= jmax)%nat).
Proof.
  intros Hcol Hk Hj Hs.
  assert (Hscale : Star.scale (burst s) = (Star.scale s + 0.2)%float).
  { unfold burst. rewrite Hcol. destruct (_ <? _)%float; reflexivity. }
  assert (Hnext : Star.scale (burst s) = scaleAt fade k (S j)).
  { rewrite Hscale, Hs. apply scaleAt_burst. }
  split; [assumption|]. split; [assumption|]. split; [|split].
  - rewrite Hnext, Hs. apply (burstGrows_spec fade kmax jmax); auto using co_burstGrows.
  - rewrite Hscale. unfold burst. rewrite Hcol.
    cbn [Star.scale Star.setScale Star.setSize].
    unfold ceiling. destruct (3 <? Star.scale s + 0.2)%float; reflexivity.
  - intros Hlow. destruct (Nat.eq_dec j jmax) as [->|]; [|lia].
    exfalso. rewrite Hnext in Hlow.
    rewrite (burstEnds_spec fade ceiling kmax jmax k co_burstEnds Hk) in Hlow.
    discriminate.
Qed.

Lemma co_visit_scale e m s :
  (Star.active s = true -> ScaleOK fade kmax jmax s) ->
  Star.active (snd (fst (fst (visit e m s)))) = true ->
  ScaleOK fade kmax jmax (snd (fst (fst (visit e m s)))).
Proof.
  intros Hs.
  destruct (Star.active s) eqn:Hact; [|rewrite co_visit_inactive by assumption; simpl; congruence].
  destruct (Hs eq_refl) as (k & j & Hk & Hj & Hscale & Hzero).
  destruct (Star.collected s) eqn:Hcol.
  - rewrite co_visit_collected by assumption. cbn [fst snd]. intros Hkept.
    destruct (co_burst_step s k j Hcol Hk Hj Hscale) as (Hnext & _ & _ & Hactive & Hroom).
    destruct (co_burst_fields s) as [_ Hc].
    exists k, (S j). split; [assumption|]. split; [|split; [assumption | congruence]].
    apply Hroom. destruct (ceiling <? Star.scale (burst s))%float; [congruence | reflexivity].
  - rewrite (Hzero eq_refl) in Hscale.
    destruct (co_fadeIn_scale s k Hcol Hk Hscale) as (k' & Hk' & Hfade).
    destruct (isHit m (fadeIn s)) eqn:Hhit.
    + rewrite co_visit_collect by assumption. cbn [fst snd]. intros Hkept.
      set (s1 := Star.setCollected (fadeIn s) true) in *.
      assert (Hc1 : Star.collected s1 = true) by reflexivity.
      assert (Hj0 : (0 <= jmax)%nat) by (unfold jmax; lia).
      destruct (co_burst_step s1 k' 0 Hc1 Hk' Hj0 Hfade) as (Hnext & _ & _ & Hactive & Hroom).
      destruct (co_burst_fields s1) as [_ Hc].
      exists k', 1%nat. split; [assumption|]. split; [|split; [assumption | congruence]].
      apply Hroom. destruct (ceiling <? Star.scale (burst s1))%float; [congruence | reflexivity].
    + rewrite co_visit_miss by assumption. cbn [fst snd]. intros _.
      exists k', O. split; [assumption|]. split; [lia|]. split; [assumption | reflexivity].
Qed.

(** *** The invariant through a frame *)

Lemma co_gap : 0 <= gap.
Proof. unfold gap. lia. Qed.

Lemma co_detectMotion_fields e env :
  let e1 := fst (detectMotion e env) in
  stars e1 = stars e /\ score e1 = score e /\ lastStarTime e1 = lastStarTime e /\
  isPlaying e1 = isPlaying e /\
  prevFrame e1 = Some (Canvas.data (motionCanvas e1)).
Proof. unfold detectMotion. simpl. repeat split. Qed.

Lemma co_detectMotion_inv e env log : Inv e log -> Inv (fst (detectMotion e env)) log.
Proof.
  intros [Hs Hl Hsc Hidle Ht Hprev].
  destruct (co_detectMotion_fields e env) as (Hst & Hscore & Hlast & Hplay & Hp).
  split; rewrite ?Hst, ?Hscore, ?Hlast, ?Hplay; try assumption.
  now right.
Qed.

Lemma co_spawnStar_cases e env :
  (spawnStar e env = (e, []) /\
   (Env.now env - lastStarTime e <= 1500 \/ 5 <= activeCount (stars e))) \/
  (spawnStar e env = (pushStar e (newStar env) (Env.now env), [Spawn (newStar env)]) /\
   lastStarTime e + 1500 < Env.now env /\ activeCount (stars e) < 5).
Proof.
  unfold spawnStar.
  destruct (1500 <? Env.now env - lastStarTime e) eqn:Ht;
    destruct (activeCount (stars e) <? 5) eqn:Hc; cbn [andb].
  - right. apply Z.ltb_lt in Ht, Hc. repeat split; lia.
  - left. apply Z.ltb_ge in Hc. split; [reflexivity | lia].
  - left. apply Z.ltb_ge in Ht. split; [reflexivity | lia].
  - left. apply Z.ltb_ge in Ht. split; [reflexivity | lia].
Qed.

Lemma co_spawnStar_inv e env log :
  Inv e log -> isPlaying e = true ->
  Inv (fst (spawnStar e env)) (log ++ snd (spawnStar e env)).
Proof.
  intros HI Hplay.
  destruct (co_spawnStar_cases e env) as [[-> _]|(-> & Hlate & Hroom)]; cbn [fst snd].
  - now rewrite app_nil_r.
  - destruct HI as [Hs Hl Hsc Hidle Ht Hprev].
    split; cbn [stars score lastStarTime isPlaying prevFrame motionCanvas pushStar].
    + apply (StarsOK_push cap gap co_gap (stars e) (lastStarTime e) (newStar env));
        auto.
    + apply (LogOK_push gap co_gap (score e) (stars e) (lastStarTime e) log (newStar env));
        auto.
    + apply Forall_app. split; [assumption|]. constructor; [|constructor].
      intros _. exists O, O. repeat split; try lia.
    + congruence.
    + unfold gap in *. simpl in Hlate. lia.
    + assumption.
Qed.

Lemma co_filter_inv e m log :
  Inv e log -> isPlaying e = true ->
  Inv (withStars (fst (fst (filterStars e m (stars e)))) (snd (fst (filterStars e m (stars e)))))
      (log ++ snd (filterStars e m (stars e)) ++ [RequestFrame]).
Proof.
  intros [Hs Hl Hsc Hidle Ht Hprev] Hplay.
  pose proof (co_filter_field lastStarTime e m (stars e) (fun _ => eq_refl)) as Hlast.
  pose proof (co_filter_field isPlaying e m (stars e) (fun _ => eq_refl)) as Hp.
  pose proof (co_filter_field prevFrame e m (stars e) (fun _ => eq_refl)) as Hpf.
  pose proof (co_filter_field motionCanvas e m (stars e) (fun _ => eq_refl)) as Hmc.
  pose proof (StarsOK_filter score _ (co_visit_ok m) cap gap (stars e) (lastStarTime e) e Hs)
    as Hs'.
  pose proof (LogOK_filter score _ (co_visit_ok m) cap gap co_gap (stars e) (lastStarTime e)
                log [RequestFrame] e Hs Hl eq_refl eq_refl) as Hl'.
  pose proof (filterWith_Forall (fun e s => visit e m s)
                (fun s => Star.active s = true -> ScaleOK fade kmax jmax s) (stars e) e
                (fun e0 s0 H => co_visit_scale e0 m s0 H) Hsc) as Hsc'.
  unfold filterStars in *.
  destruct (filterWith (fun e s => visit e m s) e (stars e)) as [[e' kept] evs].
  cbn [fst snd] in *.
  split; cbn [stars score lastStarTime isPlaying prevFrame motionCanvas withStars];
    rewrite ?Hlast, ?Hpf, ?Hmc; try assumption.
  rewrite Hp, Hplay. discriminate.
Qed.

Lemma co_gameLoop_inv e env log :
  Inv e log -> Inv (fst (gameLoop e env)) (log ++ snd (gameLoop e env)).
Proof.
  intros HI. unfold gameLoop.
  destruct (isPlaying e) eqn:Hplay; cbn [negb]; [|cbn [fst snd]; now rewrite app_nil_r].
  pose proof (co_detectMotion_inv e env log HI) as H1.
  destruct (co_detectMotion_fields e env) as (_ & _ & _ & Hp1 & _).
  destruct (detectMotion e env) as [e1 m]. cbn [fst snd] in *.
  rewrite Hplay in Hp1.
  pose proof (co_spawnStar_inv e1 env log H1 Hp1) as H2.
  assert (Hp2 : isPlaying (fst (spawnStar e1 env)) = true).
  { destruct (co_spawnStar_cases e1 env) as [[-> _]|(-> & _)]; assumption. }
  destruct (spawnStar e1 env) as [e2 spawned]. cbn [fst snd] in *.
  pose proof (co_filter_inv e2 m (log ++ spawned) H2 Hp2) as H3.
  destruct (filterStars e2 m (stars e2)) as [[e3 kept] evs]. cbn [fst snd] in *.
  now rewrite <- app_assoc in H3.
Qed.

(** *** The invariant through a session *)

Lemma co_begin_inv e :
  0 <= lastStarTime e ->
  prevFrame e = None \/ prevFrame e = Some (Canvas.data (motionCanvas e)) ->
  Inv (begin e) [].
Proof.
  intros Ht Hprev. split; cbn [stars score lastStarTime isPlaying prevFrame motionCanvas begin].
  - split; simpl; first [unfold cap; lia | constructor].
  - split; simpl; first [lia | intros ? [] | constructor].
  - constructor.
  - discriminate.
  - assumption.
  - assumption.
Qed.

Lemma co_step_inv e log i :
  Inv e log -> Inv (fst (step (e, log) i)) (snd (step (e, log) i)).
Proof.
  intros HI. unfold step.
  destruct i as [env|env]; cbn [react opens].
  - unfold start.
    pose proof (co_gameLoop_inv (begin e) env []
                  (co_begin_inv e (inv_time e log HI) (inv_prev e log HI))) as H.
    destruct (gameLoop (begin e) env) as [e' evs]. exact H.
  - pose proof (co_gameLoop_inv e env log HI) as H.
    destruct (gameLoop e env) as [e' evs]. exact H.
Qed.

Lemma co_run_inv inputs e log :
  Inv e log -> Inv (fst (run (e, log) inputs)) (snd (run (e, log) inputs)).
Proof.
  unfold run. revert e log. induction inputs as [|i inputs IH]; intros e log HI.
  - exact HI.
  - cbn [fold_left]. pose proof (co_step_inv e log i HI) as H.
    destruct (step (e, log) i) as [e' log']. now apply IH.
Qed.

Lemma co_new_inv c : Inv (new c) [].
Proof.
  split; simpl.
  - split; simpl; first [unfold cap; lia | constructor].
  - split; simpl; first [lia | intros ? [] | constructor].
  - constructor.
  - auto.
  - lia.
  - now left.
Qed.

Lemma co_session_inv c inputs :
  Inv (fst (session c inputs)) (snd (session c inputs)).
Proof. unfold session. apply co_run_inv, co_new_inv. Qed.

(** *** Frames without a current video frame *)

Lemma co_visit_effects e m s :
  (fst (fst (fst (visit e m s))) = e /\ collectIds (snd (visit e m s)) = []) \/
  (fst (fst (fst (visit e m s))) = award e /\
   Star.active s = true /\ Star.collected s = false /\
   isHit m (fadeIn s) = true /\
   collectIds (snd (visit e m s)) = [Star.id s]).
Proof.
  destruct (Star.active s) eqn:Hact;
    [|rewrite co_visit_inactive by assumption; left; repeat split].
  destruct (Star.collected s) eqn:Hcol;
    [rewrite co_visit_collected by assumption; left; repeat split|].
  destruct (isHit m (fadeIn s)) eqn:Hhit.
  - rewrite co_visit_collect by assumption. right. repeat split.
  - rewrite co_visit_miss by assumption. left. repeat split.
Qed.

Lemma co_filter_no_hit l e m :
  (forall s, isHit m s = false) -> collectIds (snd (filterStars e m l)) = [].
Proof.
  intros Hmiss. unfold filterStars. revert e. induction l as [|s rest IH]; intros e.
  - reflexivity.
  - cbn [filterWith].
    pose proof (co_visit_effects e m s) as Hv.
    destruct (visit e m s) as [[[e1 s'] keep] ev]. cbn [fst snd] in Hv.
    specialize (IH e1).
    destruct (filterWith (fun e0 s0 => visit e0 m s0) e1 rest) as [[e2 kept] evs].
    cbn [snd] in *. rewrite collectIds_app, IH, app_nil_r.
    destruct Hv as [(_ & Hc)|(_ & _ & _ & Hhit & _)]; [assumption|].
    rewrite Hmiss in Hhit. discriminate.
Qed.

Lemma co_gameLoop_requests e env :
  isPlaying e = true -> requestsFrame (snd (gameLoop e env)) = true.
Proof.
  intros Hplay. unfold gameLoop. rewrite Hplay. cbn [negb].
  destruct (detectMotion e env) as [e1 m].
  destruct (spawnStar e1 env) as [e2 spawned].
  destruct (filterStars e2 m (stars e2)) as [[e3 kept] evs]. cbn [snd].
  unfold requestsFrame. rewrite !existsb_app. simpl. now rewrite !orb_true_r.
Qed.

(** With no current video frame the canvas is not repainted, so the
    frame read back is the previous one and the mask is blank. *)
Lemma co_detectMotion_still e env :
  prevFrame e = None \/ prevFrame e = Some (Canvas.data (motionCanvas e)) ->
  Env.readyState env < 2 ->
  snd (detectMotion e env)
  = Motion.mk (replicate (Z.to_nat (Z.pos (Canvas.width (motionCanvas e))
                                    * Z.pos (Canvas.height (motionCanvas e)))) 0)
              (Z.pos (Canvas.width (motionCanvas e)))
              (Z.pos (Canvas.height (motionCanvas e))).
Proof.
  intros Hprev Hready. unfold detectMotion, drawImage.
  assert (H : (2 <=? Env.readyState env) = false) by (apply Z.leb_gt; lia).
  rewrite H. cbn [snd]. f_equal.
  apply motionMapOf_still; [unfold GESTURE_THRESHOLD; lia | assumption].
Qed.

Lemma co_blank_no_hit (n : nat) (w h : Z) (s : Star.t) :
  isHit (Motion.mk (replicate n 0) w h) s = false.
Proof.
  unfold isHit. rewrite starHits_clear; [reflexivity|].
  intros k. apply blank_clear.
Qed.

Lemma co_gameLoop_still e env :
  prevFrame e = None \/ prevFrame e = Some (Canvas.data (motionCanvas e)) ->
  Env.readyState env < 2 ->
  collectIds (snd (gameLoop e env)) = [].
Proof.
  intros Hprev Hready. unfold gameLoop. destruct (isPlaying e); cbn [negb]; [|reflexivity].
  pose proof (co_detectMotion_still e env Hprev Hready) as Hm.
  destruct (detectMotion e env) as [e1 m]. cbn [snd] in Hm. subst m.
  assert (Hsp : collectIds (snd (spawnStar e1 env)) = []).
  { destruct (co_spawnStar_cases e1 env) as [[-> _]|(-> & _)]; reflexivity. }
  destruct (spawnStar e1 env) as [e2 spawned]. cbn [snd] in Hsp.
  match goal with
  | |- context [filterStars e2 ?m (stars e2)] =>
      pose proof (co_filter_no_hit (stars e2) e2 m (co_blank_no_hit _ _ _)) as Hf;
      destruct (filterStars e2 m (stars e2)) as [[e3 kept] evs]
  end.
  cbn [snd] in *. rewrite !collectIds_app, Hsp, Hf. reflexivity.
Qed.

(** *** The burst of a collected star *)

Lemma co_gameLoop_last e env : lastStarTime e <= lastStarTime (fst (gameLoop e env)).
Proof.
  unfold gameLoop. destruct (isPlaying e); cbn [negb fst]; [|lia].
  destruct (co_detectMotion_fields e env) as (_ & _ & Hl1 & _).
  destruct (detectMotion e env) as [e1 m]. cbn [fst] in Hl1.
  assert (Hl2 : lastStarTime e <= lastStarTime (fst (spawnStar e1 env))).
  { destruct (co_spawnStar_cases e1 env) as [[-> _]|(-> & Hlate & _)]; simpl; lia. }
  destruct (spawnStar e1 env) as [e2 spawned]. cbn [fst] in Hl2.
  pose proof (co_filter_field lastStarTime e2 m (stars e2) (fun _ => eq_refl)) as Hl3.
  destruct (filterStars e2 m (stars e2)) as [[e3 kept] evs]. cbn [fst] in *.
  simpl. lia.
Qed.

Lemma co_gameLoop_collected e env log s :
  Inv e log -> In s (stars e) -> Star.collected s = true ->
  In (Star.id s) (drawIds (snd (gameLoop e env))) /\
  if Star.active (burst s)
  then In (burst s) (stars (fst (gameLoop e env)))
  else ~ In (Star.id s) (map Star.id (stars (fst (gameLoop e env)))).
Proof.
  intros HI Hin Hcol.
  assert (Hplay : isPlaying e = true).
  { destruct (isPlaying e) eqn:Hp; [reflexivity|].
    destruct (inv_idle e log HI Hp) as (Hnil & _). rewrite Hnil in Hin. destruct Hin. }
  unfold gameLoop. rewrite Hplay. cbn [negb].
  pose proof (co_detectMotion_inv e env log HI) as H1.
  destruct (co_detectMotion_fields e env) as (Hst1 & _ & _ & Hp1 & _).
  destruct (detectMotion e env) as [e1 m]. cbn [fst snd] in *.
  rewrite Hplay in Hp1. rewrite <- Hst1 in Hin.
  pose proof (co_spawnStar_inv e1 env log H1 Hp1) as H2.
  assert (Hin2 : In s (stars (fst (spawnStar e1 env)))).
  { destruct (co_spawnStar_cases e1 env) as [[-> _]|(-> & _)]; cbn [fst stars pushStar];
      [assumption | apply in_or_app; now left]. }
  destruct (spawnStar e1 env) as [e2 spawned]. cbn [fst snd] in *.
  destruct (inv_stars _ _ H2) as [Hact _ Hsorted _].
  pose proof (sorted_gapped_NoDup gap _ co_gap Hsorted) as Hnd.
  assert (Hs_act : Star.active s = true).
  { rewrite List.Forall_forall in Hact. now apply Hact. }
  destruct (filterWith_elem score _ (co_visit_ok m) (stars e2) e2 s Hnd Hin2) as [e0 He0].
  rewrite co_visit_collected in He0 by assumption. cbn [fst snd] in He0.
  pose proof (filterWith_draw score _ (co_visit_ok m) (stars e2) e2) as Hdraw.
  unfold filterStars.
  destruct (filterWith (fun e3 s0 => visit e3 m s0) e2 (stars e2)) as [[e3 kept] evs].
  cbn [fst snd stars withStars] in *. split; [|exact He0].
  rewrite !drawIds_app, Hdraw, filter_all_active by assumption.
  apply in_or_app. right. apply in_or_app. left. now apply in_map.
Qed.

(** An identifier of the past that is not in the collection does not come
    back, and is not drawn. *)
Lemma co_gameLoop_absent e env i :
  i <= lastStarTime e -> ~ In i (map Star.id (stars e)) ->
  i <= lastStarTime (fst (gameLoop e env)) /\
  ~ In i (map Star.id (stars (fst (gameLoop e env)))) /\
  ~ In i (drawIds (snd (gameLoop e env))).
Proof.
  intros Hpast Hout.
  pose proof (co_gameLoop_last e env) as Hlast.
  split; [lia|]. clear Hlast.
  unfold gameLoop. destruct (isPlaying e); cbn [negb fst snd]; [|split; [assumption | intros []]].
  destruct (co_detectMotion_fields e env) as (Hst1 & _ & Hl1 & _).
  destruct (detectMotion e env) as [e1 m]. cbn [fst] in *.
  assert (Hout2 : ~ In i (map Star.id (stars (fst (spawnStar e1 env)))) /\
                  drawIds (snd (spawnStar e1 env)) = []).
  { destruct (co_spawnStar_cases e1 env) as [[-> _]|(-> & Hlate & _)];
      cbn [fst snd stars pushStar]; rewrite Hst1; [split; [assumption | reflexivity]|].
    split; [|reflexivity]. rewrite map_app, in_app_iff. simpl. intros [Hi|[Hi|[]]]; [tauto | lia]. }
  destruct (spawnStar e1 env) as [e2 spawned]. cbn [fst snd] in *.
  destruct Hout2 as [Hout2 Hsp].
  pose proof (filterWith_sublist score _ (co_visit_ok m) (stars e2) e2) as Hsub.
  pose proof (filterWith_draw score _ (co_visit_ok m) (stars e2) e2) as Hdraw.
  unfold filterStars.
  destruct (filterWith (fun e3 s0 => visit e3 m s0) e2 (stars e2)) as [[e3 kept] evs].
  cbn [fst snd stars withStars]. split.
  - intros Hi. apply Hout2. exact (sublist_In_ids _ _ _ Hsub Hi).
  - rewrite !drawIds_app, Hsp, Hdraw. simpl. rewrite app_nil_r. intros Hi. apply Hout2.
    apply in_map_iff in Hi. destruct Hi as (t & <- & Ht).
    apply List.filter_In in Ht. apply in_map, Ht.
Qed.

Lemma co_react_absent e inp i :
  i <= lastStarTime e -> ~ In i (map Star.id (stars e)) ->
  i <= lastStarTime (fst (react e inp)) /\
  ~ In i (map Star.id (stars (fst (react e inp)))) /\
  ~ In i (drawIds (snd (react e inp))).
Proof.
  intros Hpast Hout. destruct inp as [env|env]; cbn [react].
  - unfold start. apply co_gameLoop_absent; [exact Hpast | intros []].
  - now apply co_gameLoop_absent.
Qed.

Lemma co_absent_forever inputs e log i :
  i <= lastStarTime e -> ~ In i (map Star.id (stars e)) ->
  ~ In i (map Star.id (stars (fst (run (e, log) inputs)))) /\
  ~ In i (drawIds (emitted e inputs)).
Proof.
  unfold run. revert e log. induction inputs as [|inp inputs IH]; intros e log Hpast Hout.
  - split; [assumption | intros []].
  - cbn [fold_left step emitted].
    destruct (co_react_absent e inp i Hpast Hout) as (Hpast' & Hout' & Hdraw).
    destruct (react e inp) as [e' evs]. cbn [fst snd] in *.
    destruct (IH e' (if opens inp then evs else log ++ evs) Hpast' Hout') as [IH1 IH2].
    split; [exact IH1|].
    rewrite drawIds_app, in_app_iff. tauto.
Qed.

(** A collected star goes one burst step per frame, until it is gone. *)
Lemma co_expiry_progress envs e log s k j :
  Inv e log -> In s (stars e) -> Star.collected s = true ->
  (k <= kmax)%nat -> (j <= jmax)%nat -> Star.scale s = scaleAt fade k j ->
  ~ In (Star.id s) (map Star.id (stars (fst (run (e, log) (map Frame envs))))) \/
  exists s', In s' (stars (fst (run (e, log) (map Frame envs)))) /\
             Star.id s' = Star.id s /\ Star.collected s' = true /\
             Star.scale s' = scaleAt fade k (j + length envs) /\
             (j + length envs <= jmax)%nat.
Proof.
  revert e log s j. induction envs as [|env envs IH]; intros e log s j HI Hin Hcol Hk Hj Hs.
  - right. exists s. simpl. rewrite Nat.add_0_r. repeat split; assumption.
  - unfold run. cbn [map fold_left step react opens].
    pose proof (co_gameLoop_inv e env log HI) as HI'.
    destruct (co_gameLoop_collected e env log s HI Hin Hcol) as [_ Hfate].
    pose proof (co_gameLoop_last e env) as Hlast.
    destruct (gameLoop e env) as [e' evs]. cbn [fst snd] in *.
    fold (run (e', log ++ evs) (map Frame envs)).
    destruct (co_burst_step s k j Hcol Hk Hj Hs) as (Hnext & _ & _ & Hactive & Hroom).
    destruct (co_burst_fields s) as [Hbid Hbcol].
    destruct (Star.active (burst s)) eqn:Hkept.
    + assert (Hlow : (ceiling <? Star.scale (burst s))%float = false).
      { destruct (ceiling <? Star.scale (burst s))%float; [discriminate | reflexivity]. }
      specialize (Hroom Hlow).
      destruct (IH e' (log ++ evs) (burst s) (S j) HI' Hfate ltac:(congruence) Hk Hroom Hnext)
        as [Hgone|(s' & Hs' & Hid' & Hcol' & Hscale' & Hbound)].
      * left. now rewrite <- Hbid.
      * right. exists s'. cbn [length]. rewrite Nat.add_succ_r.
        repeat split; try assumption; congruence.
    + left. apply (co_absent_forever (map Frame envs) e' (log ++ evs)); [|assumption].
      destruct (inv_stars _ _ HI) as [_ _ _ Hpast].
      rewrite List.Forall_forall in Hpast.
      specialize (Hpast (Star.id s) (in_map Star.id _ _ Hin)). lia.
Qed.

Lemma co_expiry envs e log s :
  Inv e log -> In s (stars e) -> Star.collected s = true ->
  (S jmax <= length envs)%nat ->
  ~ In (Star.id s) (map Star.id (stars (fst (run (e, log) (map Frame envs))))).
Proof.
  intros HI Hin Hcol Hlen.
  destruct (inv_stars _ _ HI) as [Hact _ _ _].
  rewrite List.Forall_forall in Hact. pose proof (Hact s Hin) as Hs_act.
  pose proof (inv_scale _ _ HI) as Hsc. rewrite List.Forall_forall in Hsc.
  destruct (Hsc s Hin Hs_act) as (k & j & Hk & Hj & Hs & _).
  destruct (co_expiry_progress envs e log s k j HI Hin Hcol Hk Hj Hs)
    as [Hgone|(s' & _ & _ & _ & _ & Hbound)]; [assumption | lia].
Qed.

End CameraOnlyFacts.

(** * The claims *)

(** ** Frame differencing is antitone in the threshold *)

(** C9: for every current and previous frame and every two thresholds
    [t1 <= t2], each cell flagged at [t2] is flagged at [t1], so the mask at
    the lower threshold has at least as many flagged cells; the masks have
    the same size. *)
Theorem motion_mask_antitone_in_threshold :
  forall (t1 t2 : Z) (cur : list Z) (prev : option (list Z)) (w h : Z),
    t1 <= t2 ->
    (forall k, JS.truthy (motionMapOf t2 cur prev w h !! k) = true ->
               JS.truthy (motionMapOf t1 cur prev w h !! k) = true) /\
    (flaggedCount (motionMapOf t2 cur prev w h)
     <= flaggedCount (motionMapOf t1 cur prev w h))%nat /\
    length (motionMapOf t2 cur prev w h) = length (motionMapOf t1 cur prev w h).
Proof.
  intros t1 t2 cur prev w h Hle.
  pose proof (motionMapOf_below t1 t2 cur prev w h Hle) as Hbelow.
  split; [|split].
  - intros k. now apply below_lookup.
  - now apply below_count.
  - now rewrite !motionMapOf_length.
Qed.

(** The thresholds of the two engines on a pixel that changed by 38: the
    camera-only engine (40) leaves it clear, the other (35) flags it. *)
Lemma motion_mask_antitone_witness :
  Fallback.GESTURE_THRESHOLD <= CameraOnly.GESTURE_THRESHOLD /\
  motionMapOf CameraOnly.GESTURE_THRESHOLD [50; 0; 0; 255] (Some [12; 0; 0; 255]) 1 1 = [0] /\
  motionMapOf Fallback.GESTURE_THRESHOLD [50; 0; 0; 255] (Some [12; 0; 0; 255]) 1 1 = [1] /\
  Nat.le (flaggedCount (motionMapOf CameraOnly.GESTURE_THRESHOLD [50; 0; 0; 255]
                          (Some [12; 0; 0; 255]) 1 1))
         (flaggedCount (motionMapOf Fallback.GESTURE_THRESHOLD [50; 0; 0; 255]
                          (Some [12; 0; 0; 255]) 1 1)).
Proof.
  split; [vm_compute; discriminate|].
  split; [reflexivity|]. split; [reflexivity|].
  refine (proj1 (proj2 (motion_mask_antitone_in_threshold
            Fallback.GESTURE_THRESHOLD CameraOnly.GESTURE_THRESHOLD
            [50; 0; 0; 255] (Some [12; 0; 0; 255]) 1 1 _))).
  vm_compute; discriminate.
Defined.

(** The masks of both engines are [motionMapOf] at their thresholds. *)
Lemma detectMotion_masks :
  (forall e env,
     Motion.motionMap (snd (CameraOnly.detectMotion e env))
     = motionMapOf CameraOnly.GESTURE_THRESHOLD
         (Canvas.data (drawImage (CameraOnly.motionCanvas e) env))
         (CameraOnly.prevFrame e)
         (Z.pos (Canvas.width (CameraOnly.motionCanvas e)))
         (Z.pos (Canvas.height (CameraOnly.motionCanvas e)))) /\
  (forall e env,
     Fallback.cameraActive e = true -> 2 <= Env.readyState env ->
     Motion.motionMap (snd (Fallback.detectMotion e env))
     = motionMapOf Fallback.GESTURE_THRESHOLD
         (Canvas.data (drawImage (Fallback.motionCanvas e) env))
         (Fallback.prevFrame e)
         (Z.pos (Canvas.width (Fallback.motionCanvas e)))
         (Z.pos (Canvas.height (Fallback.motionCanvas e)))).
Proof.
  split.
  - intros e env. unfold CameraOnly.detectMotion, drawImage.
    destruct (2 <=? Env.readyState env); reflexivity.
  - intros e env Hcam Hready. unfold Fallback.detectMotion. rewrite Hcam.
    assert (Hlt : (Env.readyState env <? 2) = false) by (apply Z.ltb_ge; lia).
    rewrite Hlt. cbn [negb orb snd Motion.motionMap]. unfold drawImage.
    destruct (2 <=? Env.readyState env); reflexivity.
Qed.

(** ** The spawn cap *)

Lemma alive_le_cap (cap gap : Z) (l : list Star.t) (last : Z) :
  StarsOK cap gap l last -> aliveCount l <= cap.
Proof. intros [_ Hcount _ _]. pose proof (aliveCount_le_length l). lia. Qed.

(** C2: in every state a session of either engine reaches, and in the state
    between the spawn attempt and the filter of a frame, the stars that are
    alive and not yet collected number at most the cap (5 in the camera-only
    engine, 6 in the engine with a fallback); a spawn attempt changes the
    collection only when fewer than the cap of its stars are active, and
    then by adding one star. *)
Theorem alive_stars_never_exceed_cap :
  (forall c inputs,
     aliveCount (CameraOnly.stars (fst (CameraOnly.session c inputs))) <= 5) /\
  (forall c p inputs,
     aliveCount (Fallback.stars (fst (Fallback.session c p inputs))) <= 6) /\
  (forall c inputs env,
     let e := fst (CameraOnly.session c inputs) in
     CameraOnly.isPlaying e = true ->
     aliveCount (CameraOnly.stars
                   (fst (CameraOnly.spawnStar (fst (CameraOnly.detectMotion e env)) env)))
     <= 5) /\
  (forall c p inputs env,
     let e := fst (Fallback.session c p inputs) in
     Fallback.isPlaying e = true ->
     aliveCount (Fallback.stars
                   (fst (Fallback.spawnStar (fst (Fallback.detectMotion e env)) env)))
     <= 6) /\
  (forall e env,
     CameraOnly.stars (fst (CameraOnly.spawnStar e env)) = CameraOnly.stars e \/
     (CameraOnly.activeCount (CameraOnly.stars e) < 5 /\
      CameraOnly.stars (fst (CameraOnly.spawnStar e env))
      = CameraOnly.stars e ++ [CameraOnly.newStar env])) /\
  (forall e env,
     Fallback.stars (fst (Fallback.spawnStar e env)) = Fallback.stars e \/
     (Fallback.activeCount (Fallback.stars e) < 6 /\
      Fallback.stars (fst (Fallback.spawnStar e env))
      = Fallback.stars e ++ [Fallback.newStar env])).
Proof.
  split; [|split; [|split; [|split; [|split]]]].
  - intros c inputs.
    exact (alive_le_cap _ _ _ _
             (CameraOnlyInv.inv_stars _ _ (CameraOnlyFacts.co_session_inv c inputs))).
  - intros c p inputs.
    exact (alive_le_cap _ _ _ _
             (FallbackInv.inv_stars _ _ (FallbackFacts.fb_session_inv c p inputs))).
  - intros c inputs env e Hplay.
    pose proof (CameraOnlyFacts.co_session_inv c inputs) as HI. fold e in HI.
    apply (CameraOnlyFacts.co_detectMotion_inv e env) in HI.
    destruct (CameraOnlyFacts.co_detectMotion_fields e env) as (_ & _ & _ & Hp & _).
    rewrite Hplay in Hp.
    apply (CameraOnlyFacts.co_spawnStar_inv _ env) in HI; [|assumption].
    exact (alive_le_cap _ _ _ _ (CameraOnlyInv.inv_stars _ _ HI)).
  - intros c p inputs env e Hplay.
    pose proof (FallbackFacts.fb_session_inv c p inputs) as HI. fold e in HI.
    apply (FallbackFacts.fb_detectMotion_inv e env) in HI.
    destruct (FallbackFacts.fb_detectMotion_fields e env) as (_ & _ & _ & Hp & _).
    rewrite Hplay in Hp.
    apply (FallbackFacts.fb_spawnStar_inv _ env) in HI; [|assumption].
    exact (alive_le_cap _ _ _ _ (FallbackInv.inv_stars _ _ HI)).
  - intros e env.
    destruct (CameraOnlyFacts.co_spawnStar_cases e env) as [[-> _]|(-> & _ & Hroom)];
      [now left | right; split; [assumption | reflexivity]].
  - intros e env.
    destruct (FallbackFacts.fb_spawnStar_cases e env) as [[-> _]|(-> & _ & Hroom)];
      [now left | right; split; [assumption | reflexivity]].
Qed.

(** ** Identifiers *)

(** C10: the identifiers of the stars spawned in a session of either engine,
    in spawn order, increase by more than the spawn interval (1500 ms in the
    camera-only engine, 1000 ms in the other), hence are pairwise distinct,
    and so do those of the stars of the collection; the identifier of a
    spawned star is the clock value of its frame, which is later than the
    previous spawn by more than the interval and becomes the time of the
    last spawn. *)
Theorem star_ids_strictly_increase :
  (forall c inputs,
     let st := CameraOnly.session c inputs in
     StronglySorted (gapped 1500) (spawnIds (snd st)) /\
     NoDup (spawnIds (snd st)) /\
     StronglySorted (gapped 1500) (map Star.id (CameraOnly.stars (fst st))) /\
     NoDup (map Star.id (CameraOnly.stars (fst st)))) /\
  (forall c p inputs,
     let st := Fallback.session c p inputs in
     StronglySorted (gapped 1000) (spawnIds (snd st)) /\
     NoDup (spawnIds (snd st)) /\
     StronglySorted (gapped 1000) (map Star.id (Fallback.stars (fst st))) /\
     NoDup (map Star.id (Fallback.stars (fst st)))) /\
  (forall e env s,
     In (Spawn s) (snd (CameraOnly.spawnStar e env)) ->
     Star.id s = Env.now env /\
     CameraOnly.lastStarTime e + 1500 < Star.id s /\
     CameraOnly.lastStarTime (fst (CameraOnly.spawnStar e env)) = Star.id s) /\
  (forall e env s,
     In (Spawn s) (snd (Fallback.spawnStar e env)) ->
     Star.id s = Env.now env /\
     Fallback.lastStarTime e + 1000 < Star.id s /\
     Fallback.lastStarTime (fst (Fallback.spawnStar e env)) = Star.id s).
Proof.
  split; [|split; [|split]].
  - intros c inputs st. subst st.
    destruct (CameraOnlyFacts.co_session_inv c inputs) as [[_ _ Hs _] [_ _ _ _ Hl _ _] _ _ _ _].
    repeat split; try assumption;
      eapply sorted_gapped_NoDup; try eassumption; apply CameraOnlyFacts.co_gap.
  - intros c p inputs st. subst st.
    destruct (FallbackFacts.fb_session_inv c p inputs) as [[_ _ Hs _] [_ _ _ _ Hl _ _] _ _ _].
    repeat split; try assumption;
      eapply sorted_gapped_NoDup; try eassumption; apply FallbackFacts.fb_gap.
  - intros e env s.
    destruct (CameraOnlyFacts.co_spawnStar_cases e env) as [[-> _]|(-> & Hlate & _)];
      cbn [fst snd]; [intros []|].
    intros [[= <-]|[]]. simpl. repeat split; assumption.
  - intros e env s.
    destruct (FallbackFacts.fb_spawnStar_cases e env) as [[-> _]|(-> & Hlate & _)];
      cbn [fst snd]; [intros []|].
    intros [[= <-]|[]]. simpl. repeat split; assumption.
Qed.

(** ** Scoring *)

(** Hit tests against a collected star, however many, leave the score and
    record no collection. *)
Lemma co_revisit_collected (ms : list Motion.t) (e : CameraOnly.Engine) (s : Star.t) :
  Star.collected s = true ->
  CameraOnly.score (fst (fst (revisit CameraOnly.visit e s ms))) = CameraOnly.score e /\
  collectIds (snd (revisit CameraOnly.visit e s ms)) = [].
Proof.
  revert e s. induction ms as [|m ms IH]; intros e s Hcol; [split; reflexivity|].
  cbn [revisit].
  pose proof (CameraOnlyFacts.co_visit_ok m e s) as Hok. cbv beta in Hok.
  destruct (CameraOnly.visit e m s) as [[[e1 s'] keep] ev].
  destruct Hok as (_ & _ & Hscore & _ & _ & [[Hnone Hsame]|(_ & _ & Hno & _)]);
    [|congruence].
  specialize (IH e1 s' ltac:(congruence)).
  destruct (revisit CameraOnly.visit e1 s' ms) as [[e2 s''] evs]. cbn [fst snd] in *.
  rewrite collectIds_app, Hnone, (proj2 IH), (proj1 IH), Hscore, Hnone. split; [simpl; lia | reflexivity].
Qed.

Lemma fb_revisit_collected (ms : list Motion.t) (e : Fallback.Engine) (s : Star.t) :
  Star.collected s = true ->
  Fallback.score (fst (fst (revisit Fallback.visit e s ms))) = Fallback.score e /\
  collectIds (snd (revisit Fallback.visit e s ms)) = [].
Proof.
  revert e s. induction ms as [|m ms IH]; intros e s Hcol; [split; reflexivity|].
  cbn [revisit].
  pose proof (FallbackFacts.fb_visit_ok m e s) as Hok. cbv beta in Hok.
  destruct (Fallback.visit e m s) as [[[e1 s'] keep] ev].
  destruct Hok as (_ & _ & Hscore & _ & _ & [[Hnone Hsame]|(_ & _ & Hno & _)]);
    [|congruence].
  specialize (IH e1 s' ltac:(congruence)).
  destruct (revisit Fallback.visit e1 s' ms) as [[e2 s''] evs]. cbn [fst snd] in *.
  rewrite collectIds_app, Hnone, (proj2 IH), (proj1 IH), Hscore, Hnone. split; [simpl; lia | reflexivity].
Qed.

(** C1: in both engines, the visit of an active, uncollected star that is
    hit adds exactly 10 to the score, marks the star collected and records
    one collection; a visit without a hit leaves the score; hit tests
    against a collected star, however many and whatever the motion and the
    pointer, never change the score; and in every state of a session the
    score is 10 times the number of collections of the session, which are
    collections of pairwise distinct stars spawned in the session, a star of
    the collection being marked collected exactly when it is among them. *)
Theorem score_is_ten_per_collected_star :
  (forall e m s,
     Star.active s = true -> Star.collected s = false ->
     let '(e1, s', _, ev) := CameraOnly.visit e m s in
     if CameraOnly.isHit m (CameraOnly.fadeIn s)
     then CameraOnly.score e1 = CameraOnly.score e + 10 /\
          Star.collected s' = true /\ collectIds ev = [Star.id s]
     else CameraOnly.score e1 = CameraOnly.score e /\
          Star.collected s' = false /\ collectIds ev = []) /\
  (forall e m s,
     Star.active s = true -> Star.collected s = false ->
     let '(e1, s', _, ev) := Fallback.visit e m s in
     if Fallback.isHit e m (Fallback.fadeIn s)
     then Fallback.score e1 = Fallback.score e + 10 /\
          Star.collected s' = true /\ collectIds ev = [Star.id s]
     else Fallback.score e1 = Fallback.score e /\
          Star.collected s' = false /\ collectIds ev = []) /\
  (forall e s ms,
     Star.collected s = true ->
     CameraOnly.score (fst (fst (revisit CameraOnly.visit e s ms))) = CameraOnly.score e /\
     collectIds (snd (revisit CameraOnly.visit e s ms)) = []) /\
  (forall e s ms,
     Star.collected s = true ->
     Fallback.score (fst (fst (revisit Fallback.visit e s ms))) = Fallback.score e /\
     collectIds (snd (revisit Fallback.visit e s ms)) = []) /\
  (forall c inputs,
     let st := CameraOnly.session c inputs in
     CameraOnly.score (fst st) = 10 * Z.of_nat (length (collectIds (snd st))) /\
     NoDup (collectIds (snd st)) /\
     incl (collectIds (snd st)) (spawnIds (snd st)) /\
     forall s, In s (CameraOnly.stars (fst st)) ->
               (Star.collected s = true <-> In (Star.id s) (collectIds (snd st)))) /\
  (forall c p inputs,
     let st := Fallback.session c p inputs in
     Fallback.score (fst st) = 10 * Z.of_nat (length (collectIds (snd st))) /\
     NoDup (collectIds (snd st)) /\
     incl (collectIds (snd st)) (spawnIds (snd st)) /\
     forall s, In s (Fallback.stars (fst st)) ->
               (Star.collected s = true <-> In (Star.id s) (collectIds (snd st)))).
Proof.
  split; [|split; [|split; [|split; [|split]]]].
  - intros e m s Hact Hcol.
    destruct (CameraOnly.isHit m (CameraOnly.fadeIn s)) eqn:Hhit.
    + rewrite CameraOnlyFacts.co_visit_collect by assumption.
      destruct (CameraOnlyFacts.co_burst_fields
                  (Star.setCollected (CameraOnly.fadeIn s) true)) as [_ Hc].
      repeat split; [exact Hc].
    + rewrite CameraOnlyFacts.co_visit_miss by assumption.
      destruct (CameraOnlyFacts.co_fadeIn_fields s) as (_ & _ & Hc & _).
      repeat split. congruence.
  - intros e m s Hact Hcol.
    destruct (Fallback.isHit e m (Fallback.fadeIn s)) eqn:Hhit.
    + rewrite FallbackFacts.fb_visit_collect by assumption.
      destruct (FallbackFacts.fb_burst_fields
                  (Star.setCollected (Fallback.fadeIn s) true)) as [_ Hc].
      repeat split; [exact Hc].
    + rewrite FallbackFacts.fb_visit_miss by assumption.
      destruct (FallbackFacts.fb_fadeIn_fields s) as (_ & _ & Hc & _).
      repeat split. congruence.
  - intros e s ms. apply co_revisit_collected.
  - intros e s ms. apply fb_revisit_collected.
  - intros c inputs st. subst st.
    destruct (CameraOnlyFacts.co_session_inv c inputs)
      as [_ [Hscore Hnd Hcs _ _ _ Hmarked] _ _ _ _].
    repeat split; try assumption; now apply Hmarked.
  - intros c p inputs st. subst st.
    destruct (FallbackFacts.fb_session_inv c p inputs)
      as [_ [Hscore Hnd Hcs _ _ _ Hmarked] _ _ _].
    repeat split; try assumption; now apply Hmarked.
Qed.

(** ** The pointer *)

(** C4: in the engine with a fallback, a visit that collects a star resets
    the stored pointer position to the sentinel (-1, -1); while the sentinel
    is stored the pointer check fails for every star, and frames with no
    pointer event in between keep it stored and collect nothing through the
    pointer; hence, from any state, frames with no pointer event in between
    collect at most one star through the pointer. *)
Theorem pointer_is_one_shot :
  (forall e m s,
     let '(e1, _, _, ev) := Fallback.visit e m s in
     collectIds ev <> [] ->
     Fallback.lastTouchX e1 = (-1)%float /\ Fallback.lastTouchY e1 = (-1)%float /\
     FallbackInv.cleared e1) /\
  (forall e s, FallbackInv.cleared e -> Fallback.pointerHit e s = false) /\
  (forall e log envs,
     FallbackInv.cleared e ->
     pointerCollectIds (Fallback.emitted e (map Fallback.Frame envs)) = [] /\
     FallbackInv.cleared (fst (Fallback.run (e, log) (map Fallback.Frame envs)))) /\
  (forall e env,
     let '(e', evs) := Fallback.gameLoop e env in
     pointerCollectIds evs <> [] -> FallbackInv.cleared e') /\
  (forall e envs,
     (length (pointerCollectIds (Fallback.emitted e (map Fallback.Frame envs))) <= 1)%nat).
Proof.
  split; [|split; [|split; [|split]]].
  - intros e m s.
    pose proof (FallbackFacts.fb_visit_effects e m s) as Hv.
    destruct (Fallback.visit e m s) as [[[e1 s'] keep] ev]. cbn [fst snd] in Hv.
    intros Hsome. destruct Hv as [(_ & Hnone & _)|(-> & _)]; [congruence|].
    repeat split.
  - intros e s. apply FallbackFacts.fb_cleared_pointerHit.
  - intros e log envs Hc. split.
    + now apply FallbackFacts.fb_frames_pointer.
    + now apply FallbackFacts.fb_frames_cleared.
  - intros e env. pose proof (FallbackFacts.fb_gameLoop_pointer e env) as Hg.
    destruct (Fallback.gameLoop e env) as [e' evs]. intros Hsome.
    destruct Hg as (_ & Hcl & _). exact (Hcl Hsome).
  - intros e envs. apply FallbackFacts.fb_frames_pointer.
Qed.

(** ** The order of the two checks *)

(** C5: in the engine with a fallback, the hit test of a star is the pointer
    check or else, when the pointer check gave no hit, the camera is active
    and the mask is not empty, the camera check; so after a pointer hit the
    result does not depend on the motion mask; a visit records at most one
    collection, by the pointer when the pointer check hit, and by the camera
    only when the pointer check did not hit and the camera check did. *)
Theorem hit_sources_short_circuit :
  (forall e m s,
     Fallback.isHit e m s
     = Fallback.pointerHit e s
       || (Fallback.cameraActive e && (0 <? Motion.width m) && (4 <? starHits 2 m s))) /\
  (forall e m m' s,
     Fallback.pointerHit e s = true ->
     Fallback.isHit e m s = true /\ Fallback.isHit e m' s = true) /\
  (forall e m s,
     let ev := snd (Fallback.visit e m s) in
     (length (collectIds ev) <= 1)%nat /\
     (pointerCollectIds ev <> [] ->
      Fallback.pointerHit e (Fallback.fadeIn s) = true /\ cameraCollectIds ev = []) /\
     (cameraCollectIds ev <> [] ->
      Fallback.pointerHit e (Fallback.fadeIn s) = false /\
      Fallback.cameraActive e = true /\ 0 < Motion.width m /\
      4 < starHits 2 m (Fallback.fadeIn s) /\ pointerCollectIds ev = [])).
Proof.
  split; [|split].
  - apply FallbackFacts.fb_isHit_orb.
  - intros e m m' s Hp. rewrite !FallbackFacts.fb_isHit_orb, Hp. split; reflexivity.
  - intros e m s ev. subst ev.
    destruct (FallbackFacts.fb_visit_effects e m s)
      as [(_ & Hc & Hp & Hcam)|(_ & _ & _ & Hhit & Hc & Hp & Hcam)];
      rewrite Hc, Hp, Hcam.
    + split; [simpl; lia|]. split; congruence.
    + rewrite FallbackFacts.fb_isHit_orb in Hhit.
      destruct (Fallback.pointerHit e (Fallback.fadeIn s)); cbn [orb] in Hhit.
      * split; [simpl; lia|]. split; [auto | congruence].
      * apply andb_true_iff in Hhit. destruct Hhit as [Hhit H4].
        apply andb_true_iff in Hhit. destruct Hhit as [Hcamera Hw].
        apply Z.ltb_lt in H4, Hw.
        split; [simpl; lia|]. split; [congruence | auto].
Qed.

(** A pending pointer that misses the star does not suppress the camera
    check: the star is then collected by the camera. *)
Remark missed_pointer_leaves_camera_check (e : Fallback.Engine) (m : Motion.t) (s : Star.t) :
  Fallback.pointerHit e s = false -> Fallback.cameraActive e = true ->
  0 < Motion.width m -> 4 < starHits 2 m s -> Fallback.isHit e m s = true.
Proof.
  intros Hp Hc Hw Hh. rewrite FallbackFacts.fb_isHit_orb, Hp, Hc.
  apply Z.ltb_lt in Hw, Hh. now rewrite Hw, Hh.
Qed.

(** ** The camera check *)

(** Against C3 as worded (a threshold of 35 to 45% of the neighbourhood):
    five flagged cells out of the 25 of the neighbourhood (20%) are a hit in
    the engine with a fallback, and fifteen out of 49 (less than 31%) are a
    hit in the camera-only engine. *)
Lemma camera_threshold_counterexample :
  Fallback.cameraCheck Samples.sensing Samples.mask5 Samples.centre false = true /\
  starHits 2 Samples.mask5 Samples.centre = 5 /\
  100 * 5 < 35 * 25 /\
  CameraOnly.isHit Samples.mask7 Samples.centre = true /\
  starHits 3 Samples.mask7 Samples.centre = 15 /\
  100 * 15 < 35 * 49.
Proof. vm_compute. repeat split; reflexivity. Qed.

(** C3, amended: against a non-empty mask, with the camera active and no
    pointer hit, the engine with a fallback registers a camera hit exactly
    when more than 4 cells are counted, and the camera-only engine registers
    a hit exactly when more than 14 are; the count is the number of flagged
    cells, inside the grid, of the square neighbourhood of the grid cell the
    star's position floors to, of radius 2 and 25 cells in the former and of
    radius 3 and 49 cells in the latter. *)
Theorem camera_hit_is_count_over_threshold :
  (forall e m s,
     Fallback.cameraActive e = true -> 0 < Motion.width m ->
     Fallback.cameraCheck e m s false = (4 <? starHits 2 m s)) /\
  (forall e m s,
     Fallback.cameraActive e = true -> 0 < Motion.width m ->
     Fallback.pointerHit e s = false ->
     Fallback.isHit e m s = (4 <? starHits 2 m s)) /\
  (forall m s, CameraOnly.isHit m s = (14 <? starHits 3 m s)) /\
  (forall r m s gridX gridY,
     JS.floor (Star.x s * JS.ofZ (Motion.width m))%float = Some gridX ->
     JS.floor (Star.y s * JS.ofZ (Motion.height m))%float = Some gridY ->
     starHits r m s
     = Z.of_nat (length (flaggedCells (Motion.motionMap m) (Motion.width m) (Motion.height m)
                           (neighbourhood r gridX gridY)))) /\
  (forall gridX gridY,
     length (neighbourhood 2 gridX gridY) = 25%nat /\
     length (neighbourhood 3 gridX gridY) = 49%nat).
Proof.
  split; [|split; [|split; [|split]]].
  - intros e m s Hcam Hw. unfold Fallback.cameraCheck. rewrite Hcam.
    apply Z.ltb_lt in Hw. rewrite Hw. cbn [negb andb].
    destruct (4 <? starHits 2 m s); reflexivity.
  - intros e m s Hcam Hw Hp. rewrite FallbackFacts.fb_isHit_orb, Hp, Hcam.
    apply Z.ltb_lt in Hw. now rewrite Hw.
  - intros m s. reflexivity.
  - intros r m s gridX gridY Hx Hy. unfold starHits. rewrite Hx, Hy.
    apply countHits_cells.
  - intros gridX gridY.
    pose proof (neighbourhood_length 2 gridX gridY ltac:(lia)).
    pose proof (neighbourhood_length 3 gridX gridY ltac:(lia)).
    split; lia.
Qed.

(** The amended statement at the sample mask: the camera is active, the
    mask is 5 cells wide, and five flagged cells are more than four. *)
Lemma camera_hit_is_count_over_threshold_witness :
  Fallback.cameraActive Samples.sensing = true /\
  0 < Motion.width Samples.mask5 /\
  Fallback.cameraCheck Samples.sensing Samples.mask5 Samples.centre false
  = (4 <? starHits 2 Samples.mask5 Samples.centre).
Proof.
  split; [reflexivity|]. split; [reflexivity|].
  apply (proj1 camera_hit_is_count_over_threshold); reflexivity.
Defined.

(** ** The mode *)

(** C6: when camera acquisition fails ([getUserMedia] is missing, both
    requests are rejected, or the video does not play), [init] resolves, it
    does not reject, the mode after it is [FallbackMode], and the mode is
    [FallbackMode] after every sequence of clicks, pointer events and
    frames. *)
Theorem fallback_mode_is_permanent :
  forall (c : Canvas.t) (p : Fallback.Probe) (inputs : list Fallback.Input),
    Fallback.acquired p = false ->
    (exists e0, Fallback.init (Fallback.new c) p = Fallback.Resolved e0 /\
                mode e0 = FallbackMode) /\
    mode (fst (Fallback.session c p inputs)) = FallbackMode.
Proof.
  intros c p inputs Hfail.
  destruct (FallbackFacts.fb_init_total (Fallback.new c) p) as [e0 He0].
  pose proof (FallbackFacts.fb_init_failed (Fallback.new c) p e0 Hfail eq_refl He0) as Hoff.
  split.
  - exists e0. split; [assumption|]. unfold mode. now rewrite Hoff.
  - unfold mode, Fallback.session, Fallback.boot.
    rewrite FallbackFacts.fb_run_camera, He0, Hoff. reflexivity.
Qed.

Lemma fallback_mode_is_permanent_witness :
  Fallback.acquired Samples.noCamera = false /\
  mode (fst (Fallback.session Samples.canvas2 Samples.noCamera
               [Fallback.Click (Samples.quiet 2000);
                Fallback.Dom (Fallback.MouseDown 400 300) 800 600;
                Fallback.Frame (Samples.quiet 2016)])) = FallbackMode.
Proof.
  split; [reflexivity|].
  apply (fallback_mode_is_permanent Samples.canvas2 Samples.noCamera). reflexivity.
Defined.

(** No input changes the mode, and [init] never rejects. *)
Lemma mode_is_set_once :
  (forall e log inputs, mode (fst (Fallback.run (e, log) inputs)) = mode e) /\
  (forall e p, exists e', Fallback.init e p = Fallback.Resolved e').
Proof.
  split.
  - intros e log inputs. unfold mode. now rewrite FallbackFacts.fb_run_camera.
  - apply FallbackFacts.fb_init_total.
Qed.

(** ** Frames without a current video frame *)

(** Against C8 as worded (an empty mask whenever no frame is readable): the
    camera-only engine has no readiness guard, and with no current video
    frame ([readyState] 0) on a 2 x 2 canvas its [detectMotion] returns a
    mask of width 2 and height 2. *)
Lemma camera_only_mask_counterexample :
  Env.readyState (Samples.quiet 0) < 2 /\
  ~ (Motion.width (snd (CameraOnly.detectMotion (CameraOnly.new Samples.canvas2)
                          (Samples.quiet 0))) = 0 /\
     Motion.height (snd (CameraOnly.detectMotion (CameraOnly.new Samples.canvas2)
                           (Samples.quiet 0))) = 0).
Proof. split; [reflexivity|]. vm_compute. intros [H _]. discriminate. Qed.

(** C8, amended: in the engine with a fallback, when the camera is not
    active or the video has no current frame, [detectMotion] returns the
    empty mask (width 0, height 0) and leaves the engine as it is, the hit
    test against the empty mask is the pointer check alone, and the frame
    collects nothing through the camera and requests the next frame.  In
    the camera-only engine, which has no such guard, when the video has no
    current frame [detectMotion] returns a mask with the dimensions of the
    motion canvas in which no cell is flagged, no star is hit, and the frame
    collects nothing and requests the next frame. *)
Theorem missing_frame_gives_no_camera_hit :
  (forall e env,
     Fallback.cameraActive e = false \/ Env.readyState env < 2 ->
     Fallback.detectMotion e env = (e, Motion.empty) /\
     Motion.width Motion.empty = 0 /\ Motion.height Motion.empty = 0 /\
     (forall s, Fallback.isHit e Motion.empty s = Fallback.pointerHit e s) /\
     cameraCollectIds (snd (Fallback.gameLoop e env)) = [] /\
     (Fallback.isPlaying e = true -> requestsFrame (snd (Fallback.gameLoop e env)) = true)) /\
  (forall c inputs env,
     Env.readyState env < 2 ->
     let e := fst (CameraOnly.session c inputs) in
     let m := snd (CameraOnly.detectMotion e env) in
     Motion.width m = Z.pos (Canvas.width (CameraOnly.motionCanvas e)) /\
     Motion.height m = Z.pos (Canvas.height (CameraOnly.motionCanvas e)) /\
     length (Motion.motionMap m) = Z.to_nat (Motion.width m * Motion.height m) /\
     flaggedCount (Motion.motionMap m) = O /\
     (forall s, CameraOnly.isHit m s = false) /\
     collectIds (snd (CameraOnly.gameLoop e env)) = [] /\
     (CameraOnly.isPlaying e = true ->
      requestsFrame (snd (CameraOnly.gameLoop e env)) = true)).
Proof.
  split.
  - intros e env Hguard.
    split; [now apply FallbackFacts.fb_detectMotion_guard|].
    split; [reflexivity|]. split; [reflexivity|].
    split; [intros s; apply FallbackFacts.fb_isHit_empty; simpl; lia|].
    split; [now apply FallbackFacts.fb_gameLoop_no_camera|].
    apply FallbackFacts.fb_gameLoop_requests.
  - intros c inputs env Hready e m.
    pose proof (CameraOnlyInv.inv_prev _ _ (CameraOnlyFacts.co_session_inv c inputs)) as Hprev.
    fold e in Hprev.
    pose proof (CameraOnlyFacts.co_detectMotion_still e env Hprev Hready) as Hm.
    fold m in Hm. rewrite Hm. cbn [Motion.width Motion.height Motion.motionMap].
    split; [reflexivity|]. split; [reflexivity|].
    split; [apply length_replicate|].
    split; [apply blank_count|].
    split; [intros s; apply CameraOnlyFacts.co_blank_no_hit|].
    split; [now apply CameraOnlyFacts.co_gameLoop_still|].
    apply CameraOnlyFacts.co_gameLoop_requests.
Qed.

(** The amended statement on a session with the camera unavailable: the
    click and the frames go through, and nothing is collected through the
    camera. *)
Lemma missing_frame_gives_no_camera_hit_witness :
  (Fallback.cameraActive (Fallback.boot Samples.canvas2 Samples.noCamera) = false \/
   Env.readyState (Samples.quiet 2000) < 2) /\
  Fallback.detectMotion (Fallback.boot Samples.canvas2 Samples.noCamera) (Samples.quiet 2000)
  = (Fallback.boot Samples.canvas2 Samples.noCamera, Motion.empty).
Proof.
  split; [left; reflexivity|].
  apply (proj1 missing_frame_gives_no_camera_hit). left. reflexivity.
Defined.

(** ** The burst and the expiry of a collected star *)

(** C7: in every state a session reaches, for every collected star of the
    collection, the next frame adds 0.2 to its scale, which grows strictly,
    and draws it; when the new scale exceeds the ceiling (3 in the
    camera-only engine, 4 in the engine with a fallback) the star is not in
    the collection after that frame, and whatever happens later no star with
    its identifier is in the collection or is drawn; otherwise the star
    stays, collected; and after 15 frames (camera-only) or 20 frames (with a
    fallback) the star is gone. *)
Theorem collected_star_bursts_then_expires :
  (forall c inputs env s,
     let st := CameraOnly.session c inputs in
     In s (CameraOnly.stars (fst st)) -> Star.collected s = true ->
     let s' := CameraOnly.burst s in
     let st' := CameraOnly.step st (CameraOnly.Frame env) in
     Star.scale s' = (Star.scale s + 0.2)%float /\
     (Star.scale s <? Star.scale s')%float = true /\
     In (Star.id s) (drawIds (snd (CameraOnly.gameLoop (fst st) env))) /\
     if (3 <? Star.scale s')%float
     then forall later,
            ~ In (Star.id s) (map Star.id (CameraOnly.stars (fst (CameraOnly.run st' later)))) /\
            ~ In (Star.id s) (drawIds (CameraOnly.emitted (fst st') later))
     else In s' (CameraOnly.stars (fst st')) /\ Star.collected s' = true) /\
  (forall c inputs envs s,
     let st := CameraOnly.session c inputs in
     In s (CameraOnly.stars (fst st)) -> Star.collected s = true ->
     (15 <= length envs)%nat ->
     ~ In (Star.id s)
          (map Star.id (CameraOnly.stars
                          (fst (CameraOnly.run st (map CameraOnly.Frame envs)))))) /\
  (forall c p inputs env s,
     let st := Fallback.session c p inputs in
     In s (Fallback.stars (fst st)) -> Star.collected s = true ->
     let s' := Fallback.burst s in
     let st' := Fallback.step st (Fallback.Frame env) in
     Star.scale s' = (Star.scale s + 0.2)%float /\
     (Star.scale s <? Star.scale s')%float = true /\
     In (Star.id s) (drawIds (snd (Fallback.gameLoop (fst st) env))) /\
     if (4 <? Star.scale s')%float
     then forall later,
            ~ In (Star.id s) (map Star.id (Fallback.stars (fst (Fallback.run st' later)))) /\
            ~ In (Star.id s) (drawIds (Fallback.emitted (fst st') later))
     else In s' (Fallback.stars (fst st')) /\ Star.collected s' = true) /\
  (forall c p inputs envs s,
     let st := Fallback.session c p inputs in
     In s (Fallback.stars (fst st)) -> Star.collected s = true ->
     (20 <= length envs)%nat ->
     ~ In (Star.id s)
          (map Star.id (Fallback.stars (fst (Fallback.run st (map Fallback.Frame envs)))))).
Proof.
  split; [|split; [|split]].
  - intros c inputs env s st Hin Hcol s' st'.
    pose proof (CameraOnlyFacts.co_session_inv c inputs) as HI. fold st in HI.
    destruct st as [e log]. cbn [fst snd] in *.
    destruct (CameraOnlyInv.inv_stars _ _ HI) as [Hact _ _ Hpast].
    rewrite List.Forall_forall in Hact, Hpast.
    pose proof (Hact s Hin) as Hs_act.
    pose proof (CameraOnlyInv.inv_scale _ _ HI) as Hsc. rewrite List.Forall_forall in Hsc.
    destruct (Hsc s Hin Hs_act) as (k & j & Hk & Hj & Hs & _).
    destruct (CameraOnlyFacts.co_burst_step s k j Hcol Hk Hj Hs)
      as (_ & Hadd & Hgrow & Hactive & _).
    destruct (CameraOnlyFacts.co_gameLoop_collected e env log s HI Hin Hcol) as [Hdraw Hfate].
    pose proof (CameraOnlyFacts.co_gameLoop_last e env) as Hlast.
    destruct (CameraOnlyFacts.co_burst_fields s) as [_ Hbcol].
    subst s' st'. cbn [CameraOnly.step CameraOnly.react CameraOnly.opens].
    destruct (CameraOnly.gameLoop e env) as [e' evs]. cbn [fst snd] in *.
    split; [assumption|]. split; [assumption|]. split; [assumption|].
    rewrite Hactive in Hfate. unfold CameraOnlyInv.ceiling in Hfate.
    destruct (3 <? Star.scale (CameraOnly.burst s))%float.
    + intros later. apply CameraOnlyFacts.co_absent_forever; [|assumption].
      specialize (Hpast (Star.id s) (in_map Star.id _ _ Hin)). lia.
    + rewrite Hs_act in Hfate. split; [assumption | congruence].
  - intros c inputs envs s st Hin Hcol Hlen.
    pose proof (CameraOnlyFacts.co_session_inv c inputs) as HI. fold st in HI.
    destruct st as [e log]. cbn [fst snd] in *.
    now apply CameraOnlyFacts.co_expiry.
  - intros c p inputs env s st Hin Hcol s' st'.
    pose proof (FallbackFacts.fb_session_inv c p inputs) as HI. fold st in HI.
    destruct st as [e log]. cbn [fst snd] in *.
    destruct (FallbackInv.inv_stars _ _ HI) as [Hact _ _ Hpast].
    rewrite List.Forall_forall in Hact, Hpast.
    pose proof (Hact s Hin) as Hs_act.
    pose proof (FallbackInv.inv_scale _ _ HI) as Hsc. rewrite List.Forall_forall in Hsc.
    destruct (Hsc s Hin Hs_act) as (k & j & Hk & Hj & Hs & _).
    destruct (FallbackFacts.fb_burst_step s k j Hcol Hk Hj Hs)
      as (_ & Hadd & Hgrow & Hactive & _).
    destruct (FallbackFacts.fb_gameLoop_collected e env log s HI Hin Hcol) as [Hdraw Hfate].
    pose proof (FallbackFacts.fb_gameLoop_last e env) as Hlast.
    destruct (FallbackFacts.fb_burst_fields s) as [_ Hbcol].
    subst s' st'. cbn [Fallback.step Fallback.react Fallback.opens].
    destruct (Fallback.gameLoop e env) as [e' evs]. cbn [fst snd] in *.
    split; [assumption|]. split; [assumption|]. split; [assumption|].
    rewrite Hactive in Hfate. unfold FallbackInv.ceiling in Hfate.
    destruct (4 <? Star.scale (Fallback.burst s))%float.
    + intros later. apply FallbackFacts.fb_absent_forever; [|assumption].
      specialize (Hpast (Star.id s) (in_map Star.id _ _ Hin)). lia.
    + rewrite Hs_act in Hfate. split; [assumption | congruence].
  - intros c p inputs envs s st Hin Hcol Hlen.
    pose proof (FallbackFacts.fb_session_inv c p inputs) as HI. fold st in HI.
    destruct st as [e log]. cbn [fst snd] in *.
    now apply FallbackFacts.fb_expiry.
Qed.

(** ** The claims on the sample session *)

(** C1 at the sample star under the pressed mouse: it is active, not
    collected and hit, and its visit scores 10. *)
Lemma score_is_ten_per_collected_star_witness :
  Star.active Samples.centre = true /\ Star.collected Samples.centre = false /\
  let '(e1, s', _, ev) := Fallback.visit Samples.aimed Motion.empty Samples.centre in
  if Fallback.isHit Samples.aimed Motion.empty (Fallback.fadeIn Samples.centre)
  then Fallback.score e1 = Fallback.score Samples.aimed + 10 /\
       Star.collected s' = true /\ collectIds ev = [Star.id Samples.centre]
  else Fallback.score e1 = Fallback.score Samples.aimed /\
       Star.collected s' = false /\ collectIds ev = [].
Proof.
  split; [reflexivity|]. split; [reflexivity|].
  exact (proj1 (proj2 score_is_ten_per_collected_star)
           Samples.aimed Motion.empty Samples.centre eq_refl eq_refl).
Defined.

(** C2 in the middle of the frame that follows the sample session. *)
Lemma alive_stars_never_exceed_cap_witness :
  Fallback.isPlaying (fst Samples.played) = true /\
  aliveCount (Fallback.stars
                (fst (Fallback.spawnStar
                        (fst (Fallback.detectMotion (fst Samples.played) (Samples.quiet 4000)))
                        (Samples.quiet 4000)))) <= 6.
Proof.
  split; [reflexivity|].
  exact (proj1 (proj2 (proj2 (proj2 alive_stars_never_exceed_cap)))
           Samples.canvas2 Samples.noCamera
           (Samples.opening ++ [Fallback.Frame (Samples.quiet 2016)])
           (Samples.quiet 4000) eq_refl).
Defined.

(** C4 after the sample session, in which the pointer has been consumed:
    two more frames collect nothing through the pointer. *)
Lemma pointer_is_one_shot_witness :
  FallbackInv.cleared (fst Samples.played) /\
  pointerCollectIds
    (Fallback.emitted (fst Samples.played)
       (map Fallback.Frame [Samples.quiet 2032; Samples.quiet 2048])) = [].
Proof.
  split; [reflexivity|].
  exact (proj1 (proj1 (proj2 (proj2 pointer_is_one_shot))
                  (fst Samples.played) (snd Samples.played)
                  [Samples.quiet 2032; Samples.quiet 2048] eq_refl)).
Defined.

(** C5 under the pressed mouse: the pointer check hits, and the hit test
    succeeds against the sample mask and against the empty one. *)
Lemma hit_sources_short_circuit_witness :
  Fallback.pointerHit Samples.aimed Samples.centre = true /\
  Fallback.isHit Samples.aimed Samples.mask5 Samples.centre = true /\
  Fallback.isHit Samples.aimed Motion.empty Samples.centre = true.
Proof.
  split; [reflexivity|].
  exact (proj1 (proj2 hit_sources_short_circuit)
           Samples.aimed Samples.mask5 Motion.empty Samples.centre eq_refl).
Defined.

(** C7 at the star caught in the sample session. *)
Lemma collected_star_bursts_then_expires_witness :
  In Samples.caught (Fallback.stars (fst Samples.played)) /\
  Star.collected Samples.caught = true /\
  Star.scale (Fallback.burst Samples.caught) = (Star.scale Samples.caught + 0.2)%float /\
  (Star.scale Samples.caught <? Star.scale (Fallback.burst Samples.caught))%float = true.
Proof.
  assert (Hin : In Samples.caught (Fallback.stars (fst Samples.played)))
    by (left; reflexivity).
  split; [exact Hin|]. split; [reflexivity|].
  destruct (proj1 (proj2 (proj2 collected_star_bursts_then_expires))
              Samples.canvas2 Samples.noCamera
              (Samples.opening ++ [Fallback.Frame (Samples.quiet 2016)])
              (Samples.quiet 2032) Samples.caught Hin eq_refl) as (Hadd & Hgrow & _).
  split; assumption.
Defined.

(** C10 at the first spawn of the sample session. *)
Lemma star_ids_strictly_increase_witness :
  In (Spawn (Fallback.newStar (Samples.quiet 2000)))
     (snd (Fallback.spawnStar (Fallback.begin (Fallback.boot Samples.canvas2 Samples.noCamera))
             (Samples.quiet 2000))) /\
  Star.id (Fallback.newStar (Samples.quiet 2000)) = Env.now (Samples.quiet 2000).
Proof.
  assert (Hin : In (Spawn (Fallback.newStar (Samples.quiet 2000)))
                  (snd (Fallback.spawnStar
                          (Fallback.begin (Fallback.boot Samples.canvas2 Samples.noCamera))
                          (Samples.quiet 2000))))
    by (left; reflexivity).
  split; [exact Hin|].
  exact (proj1 (proj2 (proj2 (proj2 star_ids_strictly_increase)) _ _ _ Hin)).
Defined.

(** * Further properties of the engines *)

(** ** Before the game is started *)

Lemma fb_idle_react (e : Fallback.Engine) (i : Fallback.Input) :
  Fallback.isPlaying e = false ->
  match i with Fallback.Click _ => false | _ => true end = true ->
  Fallback.react e i = (e, []).
Proof.
  intros Hidle Hi. destruct i as [env|ev w h|env]; [discriminate| |].
  - cbn [Fallback.react]. f_equal.
    assert (H : forall cx cy, Fallback.handleInteraction e cx cy w h = e).
    { intros cx cy. unfold Fallback.handleInteraction. now rewrite Hidle. }
    destruct ev as [cx cy|cx cy|cx cy|b cx cy]; cbn [Fallback.dispatch]; rewrite ?H; try reflexivity.
    now destruct (0 <? b).
  - cbn [Fallback.react]. unfold Fallback.gameLoop. now rewrite Hidle.
Qed.

Lemma fb_idle_run (inputs : list Fallback.Input) (e : Fallback.Engine) :
  Fallback.isPlaying e = false -> noClick inputs = true ->
  Fallback.run (e, []) inputs = (e, []) /\ Fallback.emitted e inputs = [].
Proof.
  intros Hidle. unfold Fallback.run.
  induction inputs as [|i inputs IH]; intros Hno; [split; reflexivity|].
  cbn [noClick forallb] in Hno. apply andb_true_iff in Hno. destruct Hno as [Hi Hno].
  cbn [fold_left Fallback.step Fallback.emitted].
  rewrite (fb_idle_react e i Hidle Hi).
  assert (Hop : Fallback.opens e i = false) by (destruct i; [discriminate | reflexivity..]).
  rewrite Hop. cbn [app]. exact (IH Hno).
Qed.

Lemma co_idle_run (envs : list Env.t) (e : CameraOnly.Engine) :
  CameraOnly.isPlaying e = false ->
  CameraOnly.run (e, []) (map CameraOnly.Frame envs) = (e, []) /\
  CameraOnly.emitted e (map CameraOnly.Frame envs) = [].
Proof.
  intros Hidle. unfold CameraOnly.run.
  induction envs as [|env envs IH]; [split; reflexivity|].
  cbn [map fold_left CameraOnly.step CameraOnly.emitted CameraOnly.react CameraOnly.opens].
  unfold CameraOnly.gameLoop. rewrite Hidle. cbn [negb app]. exact IH.
Qed.

(** X1: until the start button is clicked nothing happens.  In the engine
    with a fallback, pointer events and frames leave the engine as [init]
    left it, with no effect at all (no pointer position is stored, no star
    is spawned, nothing is drawn and no frame is requested); in the
    camera-only engine, frames leave the constructed engine as it is. *)
Theorem nothing_happens_before_start :
  forall (c : Canvas.t) (p : Fallback.Probe) (inputs : list Fallback.Input)
         (envs : list Env.t),
    noClick inputs = true ->
    Fallback.session c p inputs = (Fallback.boot c p, []) /\
    Fallback.emitted (Fallback.boot c p) inputs = [] /\
    CameraOnly.session c (map CameraOnly.Frame envs) = (CameraOnly.new c, []) /\
    CameraOnly.emitted (CameraOnly.new c) (map CameraOnly.Frame envs) = [].
Proof.
  intros c p inputs envs Hno.
  assert (Hidle : Fallback.isPlaying (Fallback.boot c p) = false).
  { unfold Fallback.boot.
    destruct (FallbackFacts.fb_init_total (Fallback.new c) p) as [e' He']. rewrite He'.
    now destruct (FallbackFacts.fb_init_fields _ _ _ He') as (_ & _ & _ & ->). }
  destruct (fb_idle_run inputs _ Hidle Hno) as [Hrun Hem].
  destruct (co_idle_run envs (CameraOnly.new c) eq_refl) as [Hrun' Hem'].
  repeat split; assumption.
Qed.

Lemma nothing_happens_before_start_witness :
  noClick [Fallback.Dom (Fallback.MouseDown 400 300) 800 600;
           Fallback.Frame (Samples.quiet 2000)] = true /\
  Fallback.session Samples.canvas2 Samples.cameraOk
    [Fallback.Dom (Fallback.MouseDown 400 300) 800 600; Fallback.Frame (Samples.quiet 2000)]
  = (Fallback.boot Samples.canvas2 Samples.cameraOk, []).
Proof.
  split; [reflexivity|].
  exact (proj1 (nothing_happens_before_start Samples.canvas2 Samples.cameraOk
                  [Fallback.Dom (Fallback.MouseDown 400 300) 800 600;
                   Fallback.Frame (Samples.quiet 2000)] [] eq_refl)).
Defined.

(** ** The growth of the score *)

Lemma fb_gameLoop_collect_bound e env log :
  FallbackInv.Inv e log ->
  (length (collectIds (snd (Fallback.gameLoop e env))) <= 6)%nat.
Proof.
  intros HI. unfold Fallback.gameLoop.
  destruct (Fallback.isPlaying e) eqn:Hplay; cbn [negb]; [|simpl; lia].
  pose proof (FallbackFacts.fb_detectMotion_inv e env log HI) as H1.
  destruct (FallbackFacts.fb_detectMotion_fields e env) as (_ & _ & _ & Hp1 & _).
  destruct (Fallback.detectMotion e env) as [e1 m]. cbn [fst snd] in *.
  rewrite Hplay in Hp1.
  pose proof (FallbackFacts.fb_spawnStar_inv e1 env log H1 Hp1) as H2.
  assert (Hsp : collectIds (snd (Fallback.spawnStar e1 env)) = []).
  { destruct (FallbackFacts.fb_spawnStar_cases e1 env) as [[-> _]|(-> & _)]; reflexivity. }
  destruct (Fallback.spawnStar e1 env) as [e2 spawned]. cbn [fst snd] in *.
  destruct (FallbackInv.inv_stars _ _ H2) as [_ Hcount _ _].
  pose proof (filterWith_collect_ids Fallback.score _ (FallbackFacts.fb_visit_ok m)
                (Fallback.stars e2) e2) as Hsub.
  unfold Fallback.filterStars.
  destruct (filterWith (fun e0 s0 => Fallback.visit e0 m s0) e2 (Fallback.stars e2))
    as [[e3 kept] evs].
  cbn [snd]. rewrite !collectIds_app, Hsp. simpl. rewrite app_nil_r.
  apply sublist_length in Hsub. rewrite length_map in Hsub.
  unfold FallbackInv.cap in Hcount. lia.
Qed.

Lemma co_gameLoop_collect_bound e env log :
  CameraOnlyInv.Inv e log ->
  (length (collectIds (snd (CameraOnly.gameLoop e env))) <= 5)%nat.
Proof.
  intros HI. unfold CameraOnly.gameLoop.
  destruct (CameraOnly.isPlaying e) eqn:Hplay; cbn [negb]; [|simpl; lia].
  pose proof (CameraOnlyFacts.co_detectMotion_inv e env log HI) as H1.
  destruct (CameraOnlyFacts.co_detectMotion_fields e env) as (_ & _ & _ & Hp1 & _).
  destruct (CameraOnly.detectMotion e env) as [e1 m]. cbn [fst snd] in *.
  rewrite Hplay in Hp1.
  pose proof (CameraOnlyFacts.co_spawnStar_inv e1 env log H1 Hp1) as H2.
  assert (Hsp : collectIds (snd (CameraOnly.spawnStar e1 env)) = []).
  { destruct (CameraOnlyFacts.co_spawnStar_cases e1 env) as [[-> _]|(-> & _)]; reflexivity. }
  destruct (CameraOnly.spawnStar e1 env) as [e2 spawned]. cbn [fst snd] in *.
  destruct (CameraOnlyInv.inv_stars _ _ H2) as [_ Hcount _ _].
  pose proof (filterWith_collect_ids CameraOnly.score _ (CameraOnlyFacts.co_visit_ok m)
                (CameraOnly.stars e2) e2) as Hsub.
  unfold CameraOnly.filterStars.
  destruct (filterWith (fun e0 s0 => CameraOnly.visit e0 m s0) e2 (CameraOnly.stars e2))
    as [[e3 kept] evs].
  cbn [snd]. rewrite !collectIds_app, Hsp. simpl. rewrite app_nil_r.
  apply sublist_length in Hsub. rewrite length_map in Hsub.
  unfold CameraOnlyInv.cap in Hcount. lia.
Qed.

Lemma fb_gameLoop_score e env log :
  FallbackInv.Inv e log ->
  Fallback.score (fst (Fallback.gameLoop e env))
  = Fallback.score e + 10 * Z.of_nat (length (collectIds (snd (Fallback.gameLoop e env)))).
Proof.
  intros HI. pose proof (FallbackFacts.fb_gameLoop_inv e env log HI) as HI'.
  destruct (FallbackInv.inv_log _ _ HI) as [Hs _ _ _ _ _ _].
  destruct (FallbackInv.inv_log _ _ HI') as [Hs' _ _ _ _ _ _].
  rewrite Hs', Hs, collectIds_app, length_app. lia.
Qed.

Lemma co_gameLoop_score e env log :
  CameraOnlyInv.Inv e log ->
  CameraOnly.score (fst (CameraOnly.gameLoop e env))
  = CameraOnly.score e
    + 10 * Z.of_nat (length (collectIds (snd (CameraOnly.gameLoop e env)))).
Proof.
  intros HI. pose proof (CameraOnlyFacts.co_gameLoop_inv e env log HI) as HI'.
  destruct (CameraOnlyInv.inv_log _ _ HI) as [Hs _ _ _ _ _ _].
  destruct (CameraOnlyInv.inv_log _ _ HI') as [Hs' _ _ _ _ _ _].
  rewrite Hs', Hs, collectIds_app, length_app. lia.
Qed.

Lemma fb_score_monotone (inputs : list Fallback.Input) e log :
  FallbackInv.Inv e log ->
  Fallback.score e <= Fallback.score (fst (Fallback.run (e, log) inputs)).
Proof.
  unfold Fallback.run. revert e log.
  induction inputs as [|i inputs IH]; intros e log HI; [simpl; lia|].
  cbn [fold_left].
  pose proof (FallbackFacts.fb_step_inv e log i HI) as HI'.
  assert (Hstep : Fallback.score e <= Fallback.score (fst (Fallback.step (e, log) i))).
  { destruct (FallbackInv.inv_log _ _ HI') as [Hs' _ _ _ _ _ _].
    unfold Fallback.step in *. destruct i as [env|ev w h|env]; cbn [Fallback.react] in *.
    - unfold Fallback.start in *. destruct (Fallback.isPlaying e) eqn:Hp; [simpl; lia|].
      destruct (FallbackInv.inv_idle _ _ HI Hp) as (_ & _ & Hzero).
      destruct (Fallback.gameLoop (Fallback.begin e) env) as [e' evs]. cbn [fst snd] in *. lia.
    - cbn [fst]. destruct (FallbackFacts.fb_dispatch_fields e ev w h) as (_ & -> & _). lia.
    - pose proof (fb_gameLoop_score e env log HI) as Hg.
      destruct (Fallback.gameLoop e env) as [e' evs]. cbn [fst snd] in *. lia. }
  destruct (Fallback.step (e, log) i) as [e' log']. cbn [fst snd] in *.
  specialize (IH e' log' HI'). lia.
Qed.

(** X2: in every state a session reaches, a frame adds to the score 10 times
    the number of stars it collects, which is at most the spawn cap (so at
    most 50 in the camera-only engine and 60 in the engine with a fallback);
    in the engine with a fallback the score never decreases, whatever the
    inputs. *)
Theorem score_grows_by_collections :
  (forall c inputs env,
     let e := fst (CameraOnly.session c inputs) in
     let n := Z.of_nat (length (collectIds (snd (CameraOnly.gameLoop e env)))) in
     CameraOnly.score (fst (CameraOnly.gameLoop e env)) = CameraOnly.score e + 10 * n /\
     n <= 5) /\
  (forall c p inputs env,
     let e := fst (Fallback.session c p inputs) in
     let n := Z.of_nat (length (collectIds (snd (Fallback.gameLoop e env)))) in
     Fallback.score (fst (Fallback.gameLoop e env)) = Fallback.score e + 10 * n /\
     n <= 6) /\
  (forall c p inputs later,
     Fallback.score (fst (Fallback.session c p inputs))
     <= Fallback.score (fst (Fallback.run (Fallback.session c p inputs) later))).
Proof.
  split; [|split].
  - intros c inputs env e n. subst n.
    pose proof (CameraOnlyFacts.co_session_inv c inputs) as HI. fold e in HI.
    split; [now apply co_gameLoop_score with (log := snd (CameraOnly.session c inputs))|].
    pose proof (co_gameLoop_collect_bound e env _ HI). lia.
  - intros c p inputs env e n. subst n.
    pose proof (FallbackFacts.fb_session_inv c p inputs) as HI. fold e in HI.
    split; [now apply fb_gameLoop_score with (log := snd (Fallback.session c p inputs))|].
    pose proof (fb_gameLoop_collect_bound e env _ HI). lia.
  - intros c p inputs later.
    pose proof (FallbackFacts.fb_session_inv c p inputs) as HI.
    destruct (Fallback.session c p inputs) as [e log]. now apply fb_score_monotone.
Qed.

(** ** The motion mask, cell by cell *)

Lemma motionStep_lookup t cur prev (mm : list Z) (j k : nat) :
  motionStep t cur prev mm (4 * j) !! k
  = if Nat.eqb k j && exceeds t (sumDiff cur prev (4 * k)) && (k <? length mm)%nat
    then Some 1 else mm !! k.
Proof.
  unfold motionStep.
  assert (Hdiv : Nat.div (4 * j) 4 = j) by (rewrite Nat.mul_comm; now apply Nat.div_mul).
  rewrite Hdiv.
  destruct (Nat.eqb_spec k j) as [->|Hne]; cbn [andb].
  - destruct (exceeds t (sumDiff cur prev (4 * j))); cbn [andb]; [|reflexivity].
    destruct (Nat.ltb_spec j (length mm)) as [Hlt|Hge].
    + now apply list_lookup_insert_eq.
    + rewrite list_insert_ge by lia. reflexivity.
  - destruct (exceeds t (sumDiff cur prev (4 * j))); [|reflexivity].
    apply list_lookup_insert_ne. congruence.
Qed.

Lemma motionStep_length t cur prev (mm : list Z) (i : nat) :
  length (motionStep t cur prev mm i) = length mm.
Proof.
  unfold motionStep. destruct (exceeds t (sumDiff cur prev i)); [apply length_insert | reflexivity].
Qed.

Lemma motionFold_lookup t cur prev (ks : list nat) (mm : list Z) (k : nat) :
  (k < length mm)%nat ->
  fold_left (motionStep t cur prev) (map (fun j => (4 * j)%nat) ks) mm !! k
  = if existsb (Nat.eqb k) ks && exceeds t (sumDiff cur prev (4 * k))
    then Some 1 else mm !! k.
Proof.
  revert mm. induction ks as [|j ks IH]; intros mm Hk; [reflexivity|].
  cbn [map fold_left existsb].
  rewrite IH by (now rewrite motionStep_length).
  rewrite motionStep_lookup.
  assert (Hlt : (k <? length mm)%nat = true) by now apply Nat.ltb_lt.
  rewrite Hlt, andb_true_r.
  destruct (existsb (Nat.eqb k) ks); destruct (Nat.eqb k j);
    destruct (exceeds t (sumDiff cur prev (4 * k))); reflexivity.
Qed.

Lemma exceeds_in_range t cur prev (k : nat) :
  exceeds t (sumDiff cur prev (4 * k)) = true -> (4 * k < length cur)%nat.
Proof.
  unfold exceeds, sumDiff, absDiff. intros H.
  destruct (cur !! (4 * k)%nat) as [a|] eqn:Ha; [|destruct (prev !! (4 * k)%nat); discriminate].
  apply lookup_lt_Some in Ha. exact Ha.
Qed.

Lemma motionMapOf_cell t cur prev w h (k : nat) :
  (k < Z.to_nat (w * h))%nat ->
  motionMapOf t cur (Some prev) w h !! k
  = Some (if exceeds t (sumDiff cur prev (4 * k)) then 1 else 0).
Proof.
  intros Hk. unfold motionMapOf, motionLoop, loopIndices.
  rewrite motionFold_lookup by (now rewrite length_replicate).
  rewrite lookup_replicate_2 by assumption.
  destruct (exceeds t (sumDiff cur prev (4 * k))) eqn:He; [|now rewrite andb_false_r].
  apply exceeds_in_range in He.
  assert (Hin : existsb (Nat.eqb k) (seq 0 ((length cur + 3) / 4)) = true).
  { apply existsb_exists. exists k. split; [|apply Nat.eqb_refl].
    apply in_seq. split; [lia|]. cbn [Nat.add].
    apply (Nat.div_le_lower_bound (length cur + 3) 4 (S k)); lia. }
  now rewrite Hin.
Qed.

(** Two frames that agree on the three colour channels of pixel [k] give
    the same difference there. *)
Lemma sumDiff_colour_only (cur cur' prev : list Z) (k : nat) :
  (forall i, (i mod 4 <> 3)%nat -> cur !! i = cur' !! i) ->
  sumDiff cur prev (4 * k) = sumDiff cur' prev (4 * k).
Proof.
  intros Hagree. unfold sumDiff.
  assert (H0 : ((4 * k) mod 4 <> 3)%nat).
  { rewrite Nat.mul_comm, Nat.Div0.mod_mul. discriminate. }
  assert (H1 : ((4 * k + 1) mod 4 <> 3)%nat).
  { rewrite Nat.add_comm, Nat.mul_comm, Nat.Div0.mod_add. discriminate. }
  assert (H2 : ((4 * k + 2) mod 4 <> 3)%nat).
  { rewrite Nat.add_comm, Nat.mul_comm, Nat.Div0.mod_add. discriminate. }
  now rewrite (Hagree _ H0), (Hagree _ H1), (Hagree _ H2).
Qed.

(** X3: the mask [detectMotion] computes from a current and a previous frame
    has, in each of its [w * h] cells, 1 when the absolute differences of
    the red, green and blue bytes of that pixel add up to more than the
    threshold and 0 otherwise (a pixel missing from either frame counts as
    no motion), and nothing beyond those cells; the alpha bytes play no
    part: frames that differ in alpha bytes only give the same mask. *)
Theorem motion_mask_cell_by_cell :
  forall (t : Z) (cur prev : list Z) (w h : Z) (k : nat),
    (k < Z.to_nat (w * h))%nat ->
    motionMapOf t cur (Some prev) w h !! k
    = Some (if exceeds t (sumDiff cur prev (4 * k)) then 1 else 0) /\
    motionMapOf t cur (Some prev) w h !! (k + Z.to_nat (w * h))%nat = None /\
    (forall cur',
       (forall i, (i mod 4 <> 3)%nat -> cur !! i = cur' !! i) ->
       motionMapOf t cur' (Some prev) w h = motionMapOf t cur (Some prev) w h).
Proof.
  intros t cur prev w h k Hk. split; [now apply motionMapOf_cell|]. split.
  - apply lookup_ge_None. rewrite motionMapOf_length. lia.
  - intros cur' Hagree. apply list_eq. intros j.
    destruct (Nat.lt_ge_cases j (Z.to_nat (w * h))) as [Hj|Hj].
    + rewrite !motionMapOf_cell by assumption.
      now rewrite (sumDiff_colour_only cur cur' prev j Hagree).
    + rewrite !(proj2 (lookup_ge_None _ _)) by (rewrite motionMapOf_length; lia).
      reflexivity.
Qed.

(** A 1 x 2 mask: the first pixel changes by 38 in red (no motion at 40),
    the second by 30 + 30 + 30 (motion); the alpha bytes differ. *)
Lemma motion_mask_cell_by_cell_witness :
  (1 < Z.to_nat (2 * 1))%nat /\
  motionMapOf 40 [50; 0; 0; 255; 40; 40; 40; 255] (Some [12; 0; 0; 0; 10; 10; 10; 0]) 2 1
    !! 1%nat = Some 1.
Proof.
  split; [vm_compute; lia|].
  exact (proj1 (motion_mask_cell_by_cell 40 [50; 0; 0; 255; 40; 40; 40; 255]
                  [12; 0; 0; 0; 10; 10; 10; 0] 2 1 1%nat ltac:(vm_compute; lia))).
Defined.

(** ** Frames without change *)

Lemma fb_filter_pointer_only l e m :
  (forall e0 s, Fallback.isHit e0 m s = Fallback.pointerHit e0 s) ->
  cameraCollectIds (snd (Fallback.filterStars e m l)) = [].
Proof.
  intros Honly. unfold Fallback.filterStars. revert e.
  induction l as [|s rest IH]; intros e; [reflexivity|].
  cbn [filterWith].
  pose proof (FallbackFacts.fb_visit_effects e m s) as Hv.
  destruct (Fallback.visit e m s) as [[[e1 s'] keep] ev]. cbn [fst snd] in Hv.
  specialize (IH e1).
  destruct (filterWith (fun e0 s0 => Fallback.visit e0 m s0) e1 rest) as [[e2 kept] evs].
  cbn [snd] in *. rewrite cameraCollectIds_app, IH, app_nil_r.
  destruct Hv as [(_ & _ & _ & Hc)|(_ & _ & _ & Hhit & _ & _ & Hc)]; [assumption|].
  rewrite Hc. rewrite Honly in Hhit. now rewrite Hhit.
Qed.

Lemma fb_blank_pointer_only (n : nat) (w h : Z) e s :
  Fallback.isHit e (Motion.mk (replicate n 0) w h) s = Fallback.pointerHit e s.
Proof.
  rewrite FallbackFacts.fb_isHit_orb, starHits_clear by (intros k; apply blank_clear).
  cbn [Z.ltb Z.compare]. now rewrite andb_false_r, orb_false_r.
Qed.

Lemma fb_detectMotion_unchanged e env :
  Fallback.prevFrame e = None \/
  Fallback.prevFrame e = Some (Canvas.data (drawImage (Fallback.motionCanvas e) env)) ->
  snd (Fallback.detectMotion e env) = Motion.empty \/
  exists n w h, snd (Fallback.detectMotion e env) = Motion.mk (replicate n 0) w h.
Proof.
  intros Hprev. unfold Fallback.detectMotion.
  destruct (negb (Fallback.cameraActive e) || (Env.readyState env <? 2)); [now left|].
  right. cbn [snd]. eexists _, _, _. f_equal.
  apply motionMapOf_still; [unfold Fallback.GESTURE_THRESHOLD; lia | assumption].
Qed.

Lemma co_detectMotion_unchanged e env :
  CameraOnly.prevFrame e = None \/
  CameraOnly.prevFrame e = Some (Canvas.data (drawImage (CameraOnly.motionCanvas e) env)) ->
  exists n w h, snd (CameraOnly.detectMotion e env) = Motion.mk (replicate n 0) w h.
Proof.
  intros Hprev. unfold CameraOnly.detectMotion. cbn [snd]. eexists _, _, _. f_equal.
  apply motionMapOf_still; [unfold CameraOnly.GESTURE_THRESHOLD; lia | assumption].
Qed.

(** X4: when there is no previous frame (the first sample), or when the
    frame on the motion canvas is byte for byte the previous one, no cell of
    the mask is flagged, in either engine; the frame then collects nothing
    in the camera-only engine and nothing through the camera in the engine
    with a fallback. *)
Theorem unchanged_frame_flags_nothing :
  (forall e env,
     CameraOnly.prevFrame e = None \/
     CameraOnly.prevFrame e = Some (Canvas.data (drawImage (CameraOnly.motionCanvas e) env)) ->
     flaggedCount (Motion.motionMap (snd (CameraOnly.detectMotion e env))) = O /\
     collectIds (snd (CameraOnly.gameLoop e env)) = []) /\
  (forall e env,
     Fallback.prevFrame e = None \/
     Fallback.prevFrame e = Some (Canvas.data (drawImage (Fallback.motionCanvas e) env)) ->
     flaggedCount (Motion.motionMap (snd (Fallback.detectMotion e env))) = O /\
     cameraCollectIds (snd (Fallback.gameLoop e env)) = []).
Proof.
  split.
  - intros e env Hprev.
    destruct (co_detectMotion_unchanged e env Hprev) as (n & w & h & Hm).
    split; [rewrite Hm; apply blank_count|].
    unfold CameraOnly.gameLoop. destruct (CameraOnly.isPlaying e); cbn [negb]; [|reflexivity].
    destruct (CameraOnly.detectMotion e env) as [e1 m]. cbn [snd] in Hm. subst m.
    assert (Hsp : collectIds (snd (CameraOnly.spawnStar e1 env)) = []).
    { destruct (CameraOnlyFacts.co_spawnStar_cases e1 env) as [[-> _]|(-> & _)]; reflexivity. }
    destruct (CameraOnly.spawnStar e1 env) as [e2 spawned]. cbn [snd] in Hsp.
    pose proof (CameraOnlyFacts.co_filter_no_hit (CameraOnly.stars e2) e2 _
                  (CameraOnlyFacts.co_blank_no_hit n w h)) as Hf.
    destruct (CameraOnly.filterStars e2 _ (CameraOnly.stars e2)) as [[e3 kept] evs].
    cbn [snd] in *. rewrite !collectIds_app, Hsp, Hf. reflexivity.
  - intros e env Hprev.
    assert (Hm : flaggedCount (Motion.motionMap (snd (Fallback.detectMotion e env))) = O /\
                 forall e0 s, Fallback.isHit e0 (snd (Fallback.detectMotion e env)) s
                              = Fallback.pointerHit e0 s).
    { destruct (fb_detectMotion_unchanged e env Hprev) as [->|(n & w & h & ->)].
      - split; [reflexivity|]. intros e0 s. apply FallbackFacts.fb_isHit_empty. simpl. lia.
      - split; [apply blank_count|]. intros e0 s. apply fb_blank_pointer_only. }
    destruct Hm as [Hcount Honly]. split; [assumption|].
    unfold Fallback.gameLoop. destruct (Fallback.isPlaying e); cbn [negb]; [|reflexivity].
    destruct (Fallback.detectMotion e env) as [e1 m]. cbn [snd] in Honly.
    assert (Hsp : cameraCollectIds (snd (Fallback.spawnStar e1 env)) = []).
    { destruct (FallbackFacts.fb_spawnStar_cases e1 env) as [[-> _]|(-> & _)]; reflexivity. }
    destruct (Fallback.spawnStar e1 env) as [e2 spawned]. cbn [snd] in Hsp.
    pose proof (fb_filter_pointer_only (Fallback.stars e2) e2 m Honly) as Hf.
    destruct (Fallback.filterStars e2 m (Fallback.stars e2)) as [[e3 kept] evs].
    cbn [snd] in *. rewrite !cameraCollectIds_app, Hsp, Hf. reflexivity.
Qed.

(** The first frame of a camera-only session: there is no previous frame. *)
Lemma unchanged_frame_flags_nothing_witness :
  (CameraOnly.prevFrame (CameraOnly.begin (CameraOnly.new Samples.canvas4)) = None \/
   CameraOnly.prevFrame (CameraOnly.begin (CameraOnly.new Samples.canvas4))
   = Some (Canvas.data (drawImage (CameraOnly.motionCanvas
                                     (CameraOnly.begin (CameraOnly.new Samples.canvas4)))
                          (Samples.flash 2000 255)))) /\
  collectIds (snd (CameraOnly.gameLoop (CameraOnly.begin (CameraOnly.new Samples.canvas4))
                     (Samples.flash 2000 255))) = [].
Proof.
  split; [left; reflexivity|].
  exact (proj2 (proj1 unchanged_frame_flags_nothing
                  (CameraOnly.begin (CameraOnly.new Samples.canvas4))
                  (Samples.flash 2000 255) (or_introl eq_refl))).
Defined.

(** ** A hit needs motion *)

Lemma flaggedIndices_from (mm : list Z) (start : nat) :
  length (List.filter (fun i => JS.truthy (mm !! (i - start)%nat)) (seq start (length mm)))
  = flaggedCount mm.
Proof.
  unfold flaggedCount. revert start. induction mm as [|v mm IH]; intros start; [reflexivity|].
  cbn [length seq List.filter]. rewrite Nat.sub_diag. cbn [lookup list_lookup].
  assert (Htail : List.filter (fun i => JS.truthy ((v :: mm) !! (i - start)%nat))
                    (seq (S start) (length mm))
                  = List.filter (fun i => JS.truthy (mm !! (i - S start)%nat))
                      (seq (S start) (length mm))).
  { apply List.filter_ext_in. intros i Hi. apply in_seq in Hi.
    replace (i - start)%nat with (S (i - S start)) by lia. reflexivity. }
  rewrite Htail. destruct (JS.truthy (Some v)); cbn [length]; now rewrite IH.
Qed.

Lemma flaggedIndices_length (mm : list Z) : length (flaggedIndices mm) = flaggedCount mm.
Proof.
  unfold flaggedIndices. rewrite <- (flaggedIndices_from mm 0).
  f_equal. apply List.filter_ext. intros i. now rewrite Nat.sub_0_r.
Qed.

Lemma offsets_NoDup (r : Z) : List.NoDup (offsets r).
Proof.
  unfold offsets. apply NoDup_map_NoDup_ForallPairs; [|apply List.seq_NoDup].
  intros a b _ _ Hab. lia.
Qed.

Lemma row_NoDup (ds : list Z) (gridX gy : Z) :
  List.NoDup ds -> List.NoDup (map (fun dx => (gridX + dx, gy)) ds).
Proof.
  apply NoDup_map_NoDup_ForallPairs. intros a b _ _ [= Hab]. lia.
Qed.

Lemma rows_NoDup (ds ds' : list Z) (gridX gridY : Z) :
  List.NoDup ds -> List.NoDup ds' ->
  List.NoDup (flat_map (fun dy => map (fun dx => (gridX + dx, gridY + dy)) ds') ds).
Proof.
  intros Hds Hds'. induction Hds as [|d ds Hfresh Hds IH]; [constructor|].
  cbn [flat_map]. apply List.NoDup_app; [now apply row_NoDup | exact IH |].
  intros c Hrow Hrest.
  apply in_map_iff in Hrow. destruct Hrow as (dx & <- & _).
  apply in_flat_map in Hrest. destruct Hrest as (d' & Hd' & Hin).
  apply in_map_iff in Hin. destruct Hin as (dx' & [= _ Hy] & _).
  apply Hfresh. assert (d' = d) by lia. now subst.
Qed.

Lemma neighbourhood_NoDup (r gridX gridY : Z) : List.NoDup (neighbourhood r gridX gridY).
Proof. unfold neighbourhood. apply rows_NoDup; apply offsets_NoDup. Qed.

Lemma flaggedCells_spec mm mw mh cells c :
  In c (flaggedCells mm mw mh cells) ->
  In c cells /\ 0 <= fst c < mw /\ 0 <= snd c < mh /\
  JS.truthy (mm !! cellIndex mw c) = true.
Proof.
  unfold flaggedCells, flagged, cellIndex. intros Hc.
  apply List.filter_In in Hc. destruct Hc as [Hin Hf].
  rewrite !andb_true_iff in Hf. destruct Hf as [[[[H1 H2] H3] H4] H5].
  apply Z.leb_le in H1, H3. apply Z.ltb_lt in H2, H4. repeat split; assumption.
Qed.

(** The flagged cells of a duplicate-free list of cells are at most the
    flagged positions of the mask. *)
Lemma flaggedCells_bound mm mw mh cells :
  List.NoDup cells ->
  (length (flaggedCells mm mw mh cells) <= flaggedCount mm)%nat.
Proof.
  intros Hnd. rewrite <- flaggedIndices_length, <- (length_map (cellIndex mw)).
  apply NoDup_incl_length.
  - apply NoDup_map_NoDup_ForallPairs.
    + intros a b Ha Hb Hab.
      destruct (flaggedCells_spec _ _ _ _ _ Ha) as (_ & Hax & Hay & _).
      destruct (flaggedCells_spec _ _ _ _ _ Hb) as (_ & Hbx & Hby & _).
      unfold cellIndex in Hab. destruct a as [ax ay], b as [bx by']. cbn [fst snd] in *.
      apply Z2Nat.inj in Hab; [|nia..].
      assert (ay = by') by nia. subst. f_equal. lia.
    + unfold flaggedCells. now apply List.NoDup_filter.
  - intros i Hi. apply in_map_iff in Hi. destruct Hi as (c & <- & Hc).
    destruct (flaggedCells_spec _ _ _ _ _ Hc) as (_ & _ & _ & Ht).
    unfold flaggedIndices. apply List.filter_In. split; [|assumption].
    apply in_seq. split; [lia|]. cbn [Nat.add].
    destruct (mm !! cellIndex mw c) eqn:Hl; [|discriminate].
    now apply lookup_lt_Some in Hl.
Qed.

Lemma starHits_bound (r : Z) (m : Motion.t) (s : Star.t) :
  0 <= starHits r m s <= Z.of_nat (flaggedCount (Motion.motionMap m)).
Proof.
  unfold starHits.
  destruct (JS.floor _) as [gridX|]; [|lia]. destruct (JS.floor _) as [gridY|]; [|lia].
  rewrite countHits_cells.
  pose proof (flaggedCells_bound (Motion.motionMap m) (Motion.width m) (Motion.height m)
                _ (neighbourhood_NoDup r gridX gridY)).
  lia.
Qed.

(** X5: the hit count at a star never exceeds the number of flagged cells of
    the whole mask (the cells of the neighbourhood are distinct cells of the
    grid, those outside the grid are not counted), nor the size of the
    neighbourhood; so the camera-only engine registers a hit only when at
    least 15 cells of the mask are in motion, and the camera check of the
    engine with a fallback only when at least 5 are. *)
Theorem camera_hit_needs_motion :
  (forall m s,
     0 <= starHits 3 m s <= 49 /\
     starHits 3 m s <= Z.of_nat (flaggedCount (Motion.motionMap m)) /\
     (CameraOnly.isHit m s = true -> (15 <= flaggedCount (Motion.motionMap m))%nat)) /\
  (forall e m s,
     0 <= starHits 2 m s <= 25 /\
     starHits 2 m s <= Z.of_nat (flaggedCount (Motion.motionMap m)) /\
     (Fallback.cameraCheck e m s false = true ->
      (5 <= flaggedCount (Motion.motionMap m))%nat)).
Proof.
  split.
  - intros m s. pose proof (starHits_bound 3 m s) as Hb.
    assert (Hsize : 0 <= starHits 3 m s <= 49).
    { unfold starHits. destruct (JS.floor _) as [gx|]; [|lia].
      destruct (JS.floor _) as [gy|]; [|lia].
      pose proof (countHits_bounds (Motion.motionMap m) (Motion.width m) (Motion.height m)
                    3 gx gy ltac:(lia)). lia. }
    split; [exact Hsize|]. split; [lia|].
    unfold CameraOnly.isHit, CameraOnly.radius. intros Hhit. apply Z.ltb_lt in Hhit. lia.
  - intros e m s. pose proof (starHits_bound 2 m s) as Hb.
    assert (Hsize : 0 <= starHits 2 m s <= 25).
    { unfold starHits. destruct (JS.floor _) as [gx|]; [|lia].
      destruct (JS.floor _) as [gy|]; [|lia].
      pose proof (countHits_bounds (Motion.motionMap m) (Motion.width m) (Motion.height m)
                    2 gx gy ltac:(lia)). lia. }
    split; [exact Hsize|]. split; [lia|].
    unfold Fallback.cameraCheck. cbn [negb andb].
    destruct (Fallback.cameraActive e && (0 <? Motion.width m)); [|discriminate].
    destruct (4 <? starHits 2 m s) eqn:Hhit; [|discriminate].
    intros _. apply Z.ltb_lt in Hhit. lia.
Qed.

(** ** Bounds on the scale *)

Lemma scalesBounded_spec (d ceiling : float) (kmax jmax k j : nat) :
  scalesBounded d ceiling kmax jmax = true -> (k <= kmax)%nat -> (j <= jmax)%nat ->
  (scaleAt d k 0 <=? scaleAt d kmax 0)%float = true /\
  (ceiling <? scaleAt d k 0)%float = false /\
  (0 <=? scaleAt d k j)%float = true.
Proof.
  unfold scalesBounded. rewrite forallb_forall. intros H Hk Hj.
  assert (Hin : In k (seq 0 (S kmax))) by (apply in_seq; lia).
  specialize (H k Hin). rewrite !andb_true_iff, forallb_forall in H.
  destruct H as [[H1 H2] H3]. apply negb_true_iff in H2.
  repeat split; try assumption. apply H3. apply in_seq. lia.
Qed.

Lemma fb_scalesBounded :
  scalesBounded FallbackInv.fade FallbackInv.ceiling FallbackInv.kmax FallbackInv.jmax = true.
Proof. vm_compute. reflexivity. Qed.

Lemma co_scalesBounded :
  scalesBounded CameraOnlyInv.fade CameraOnlyInv.ceiling CameraOnlyInv.kmax CameraOnlyInv.jmax
  = true.
Proof. vm_compute. reflexivity. Qed.

(** A collected star that a visit keeps does not exceed the ceiling. *)
Lemma fb_visit_under_ceiling e m s :
  snd (fst (Fallback.visit e m s)) = true ->
  Star.collected (snd (fst (fst (Fallback.visit e m s)))) = true ->
  (4 <? Star.scale (snd (fst (fst (Fallback.visit e m s)))))%float = false.
Proof.
  assert (Hburst : forall t, Star.active t = true -> Star.collected t = true ->
            Star.active (Fallback.burst t) = true ->
            (4 <? Star.scale (Fallback.burst t))%float = false).
  { intros t Hact Hcol. unfold Fallback.burst. rewrite Hcol.
    cbn [Star.scale Star.setScale].
    destruct (4 <? Star.scale t + 0.2)%float eqn:Hlt; cbn [Star.active Star.setActive Star.setScale Star.scale];
      [discriminate | intros _; exact Hlt]. }
  destruct (Star.active s) eqn:Hact;
    [|rewrite FallbackFacts.fb_visit_inactive by assumption; discriminate].
  destruct (FallbackFacts.fb_fadeIn_fields s) as (_ & Hfa & Hfc & _).
  destruct (Star.collected s) eqn:Hcol.
  - rewrite FallbackFacts.fb_visit_collected by assumption. cbn [fst snd].
    intros Hkeep _. now apply Hburst.
  - destruct (Fallback.isHit e m (Fallback.fadeIn s)) eqn:Hhit.
    + rewrite FallbackFacts.fb_visit_collect by assumption. cbn [fst snd].
      intros Hkeep _. apply Hburst; [simpl; congruence | reflexivity | assumption].
    + rewrite FallbackFacts.fb_visit_miss by assumption. cbn [fst snd]. congruence.
Qed.

Lemma co_visit_under_ceiling e m s :
  snd (fst (CameraOnly.visit e m s)) = true ->
  Star.collected (snd (fst (fst (CameraOnly.visit e m s)))) = true ->
  (3 <? Star.scale (snd (fst (fst (CameraOnly.visit e m s)))))%float = false.
Proof.
  assert (Hburst : forall t, Star.active t = true -> Star.collected t = true ->
            Star.active (CameraOnly.burst t) = true ->
            (3 <? Star.scale (CameraOnly.burst t))%float = false).
  { intros t Hact Hcol. unfold CameraOnly.burst. rewrite Hcol.
    cbn [Star.scale Star.setScale Star.setSize].
    destruct (3 <? Star.scale t + 0.2)%float eqn:Hlt;
      cbn [Star.active Star.setActive Star.setScale Star.setSize Star.scale];
      [discriminate | intros _; exact Hlt]. }
  destruct (Star.active s) eqn:Hact;
    [|rewrite CameraOnlyFacts.co_visit_inactive by assumption; discriminate].
  destruct (CameraOnlyFacts.co_fadeIn_fields s) as (_ & Hfa & Hfc & _).
  destruct (Star.collected s) eqn:Hcol.
  - rewrite CameraOnlyFacts.co_visit_collected by assumption. cbn [fst snd].
    intros Hkeep _. now apply Hburst.
  - destruct (CameraOnly.isHit m (CameraOnly.fadeIn s)) eqn:Hhit.
    + rewrite CameraOnlyFacts.co_visit_collect by assumption. cbn [fst snd].
      intros Hkeep _. apply Hburst; [simpl; congruence | reflexivity | assumption].
    + rewrite CameraOnlyFacts.co_visit_miss by assumption. cbn [fst snd]. congruence.
Qed.

Lemma fb_gameLoop_under_ceiling e env :
  Forall (underCeiling 4) (Fallback.stars e) ->
  Forall (underCeiling 4) (Fallback.stars (fst (Fallback.gameLoop e env))).
Proof.
  intros Hall. unfold Fallback.gameLoop.
  destruct (Fallback.isPlaying e); cbn [negb]; [|exact Hall].
  destruct (Fallback.detectMotion e env) as [e1 m].
  destruct (Fallback.spawnStar e1 env) as [e2 spawned].
  pose proof (filterWith_kept_from (fun e0 s0 => Fallback.visit e0 m s0) (Fallback.stars e2) e2)
    as Hfrom.
  unfold Fallback.filterStars.
  destruct (filterWith (fun e0 s0 => Fallback.visit e0 m s0) e2 (Fallback.stars e2))
    as [[e3 kept] evs].
  cbn [fst snd Fallback.stars Fallback.withStars] in *.
  apply List.Forall_forall. intros t Ht.
  destruct (Hfrom t Ht) as (e0 & s & _ & <- & Hkeep).
  intros Hcol. now apply fb_visit_under_ceiling.
Qed.

Lemma co_gameLoop_under_ceiling e env :
  Forall (underCeiling 3) (CameraOnly.stars e) ->
  Forall (underCeiling 3) (CameraOnly.stars (fst (CameraOnly.gameLoop e env))).
Proof.
  intros Hall. unfold CameraOnly.gameLoop.
  destruct (CameraOnly.isPlaying e); cbn [negb]; [|exact Hall].
  destruct (CameraOnly.detectMotion e env) as [e1 m].
  destruct (CameraOnly.spawnStar e1 env) as [e2 spawned].
  pose proof (filterWith_kept_from (fun e0 s0 => CameraOnly.visit e0 m s0)
                (CameraOnly.stars e2) e2) as Hfrom.
  unfold CameraOnly.filterStars.
  destruct (filterWith (fun e0 s0 => CameraOnly.visit e0 m s0) e2 (CameraOnly.stars e2))
    as [[e3 kept] evs].
  cbn [fst snd CameraOnly.stars CameraOnly.withStars] in *.
  apply List.Forall_forall. intros t Ht.
  destruct (Hfrom t Ht) as (e0 & s & _ & <- & Hkeep).
  intros Hcol. now apply co_visit_under_ceiling.
Qed.

Lemma fb_run_under_ceiling inputs e log :
  Forall (underCeiling 4) (Fallback.stars e) ->
  Forall (underCeiling 4) (Fallback.stars (fst (Fallback.run (e, log) inputs))).
Proof.
  unfold Fallback.run. revert e log.
  induction inputs as [|i inputs IH]; intros e log Hall; [exact Hall|].
  cbn [fold_left Fallback.step].
  assert (Hstep : Forall (underCeiling 4) (Fallback.stars (fst (Fallback.react e i)))).
  { destruct i as [env|ev w h|env]; cbn [Fallback.react].
    - unfold Fallback.start. destruct (Fallback.isPlaying e); [exact Hall|].
      apply fb_gameLoop_under_ceiling. constructor.
    - cbn [fst]. now destruct (FallbackFacts.fb_dispatch_fields e ev w h) as (-> & _).
    - now apply fb_gameLoop_under_ceiling. }
  destruct (Fallback.react e i) as [e' evs]. now apply IH.
Qed.

Lemma co_run_under_ceiling inputs e log :
  Forall (underCeiling 3) (CameraOnly.stars e) ->
  Forall (underCeiling 3) (CameraOnly.stars (fst (CameraOnly.run (e, log) inputs))).
Proof.
  unfold CameraOnly.run. revert e log.
  induction inputs as [|i inputs IH]; intros e log Hall; [exact Hall|].
  cbn [fold_left CameraOnly.step].
  assert (Hstep : Forall (underCeiling 3) (CameraOnly.stars (fst (CameraOnly.react e i)))).
  { destruct i as [env|env]; cbn [CameraOnly.react].
    - unfold CameraOnly.start. apply co_gameLoop_under_ceiling. constructor.
    - now apply co_gameLoop_under_ceiling. }
  destruct (CameraOnly.react e i) as [e' evs]. now apply IH.
Qed.

(** X6: in every state a session reaches, the scale of every star of the
    collection is at least 0 and does not exceed the expiry ceiling (3 in
    the camera-only engine, 4 in the engine with a fallback); while the star
    is not collected its scale is at most the value at which the fade-in
    stops, which is the sum of 20 steps of 0.05, respectively of 11 steps of
    0.1, in binary64 (just above 1, respectively just below 1.1). *)
Theorem scale_stays_in_range :
  (forall c inputs s,
     In s (CameraOnly.stars (fst (CameraOnly.session c inputs))) ->
     (0 <=? Star.scale s)%float = true /\
     (3 <? Star.scale s)%float = false /\
     (Star.collected s = false ->
      (Star.scale s <=? scaleAt 0.05 20 0)%float = true)) /\
  (forall c p inputs s,
     In s (Fallback.stars (fst (Fallback.session c p inputs))) ->
     (0 <=? Star.scale s)%float = true /\
     (4 <? Star.scale s)%float = false /\
     (Star.collected s = false ->
      (Star.scale s <=? scaleAt 0.1 11 0)%float = true)) /\
  (1 <? scaleAt 0.05 20 0)%float = true /\
  (scaleAt 0.05 20 0 <? 1.01)%float = true /\
  (1 <? scaleAt 0.1 11 0)%float = true /\
  (scaleAt 0.1 11 0 <? 1.1)%float = true.
Proof.
  split; [|split; [|repeat split; reflexivity]].
  - intros c inputs s Hin.
    pose proof (CameraOnlyFacts.co_session_inv c inputs) as HI.
    pose proof (co_run_under_ceiling inputs (CameraOnly.new c) [] ltac:(constructor)) as Hu.
    fold (CameraOnly.session c inputs) in Hu.
    rewrite List.Forall_forall in Hu. specialize (Hu s Hin).
    destruct (CameraOnlyInv.inv_stars _ _ HI) as [Hact _ _ _].
    rewrite List.Forall_forall in Hact.
    pose proof (CameraOnlyInv.inv_scale _ _ HI) as Hsc. rewrite List.Forall_forall in Hsc.
    destruct (Hsc s Hin (Hact s Hin)) as (k & j & Hk & Hj & Hs & Hzero).
    destruct (scalesBounded_spec _ _ _ _ k j co_scalesBounded Hk Hj) as (_ & _ & Hpos).
    split; [rewrite Hs; exact Hpos|]. split.
    + destruct (Star.collected s) eqn:Hcol; [now apply Hu|].
      rewrite Hs, (Hzero eq_refl).
      now destruct (scalesBounded_spec _ _ _ _ k O co_scalesBounded Hk ltac:(lia)) as (_ & H & _).
    + intros Hcol. rewrite Hs, (Hzero Hcol).
      now destruct (scalesBounded_spec _ _ _ _ k O co_scalesBounded Hk ltac:(lia)) as (H & _).
  - intros c p inputs s Hin.
    pose proof (FallbackFacts.fb_session_inv c p inputs) as HI.
    assert (Hboot : Forall (underCeiling 4) (Fallback.stars (Fallback.boot c p))).
    { pose proof (FallbackInv.inv_idle _ _ (FallbackFacts.fb_boot_inv c p)) as Hidle.
      destruct (Fallback.isPlaying (Fallback.boot c p)) eqn:Hp.
      - exfalso. unfold Fallback.boot in Hp.
        destruct (FallbackFacts.fb_init_total (Fallback.new c) p) as [e' He'].
        rewrite He' in Hp.
        destruct (FallbackFacts.fb_init_fields _ _ _ He') as (_ & _ & _ & Hplay).
        rewrite Hplay in Hp. discriminate.
      - destruct (Hidle eq_refl) as (-> & _). constructor. }
    pose proof (fb_run_under_ceiling inputs (Fallback.boot c p) [] Hboot) as Hu.
    fold (Fallback.session c p inputs) in Hu.
    rewrite List.Forall_forall in Hu. specialize (Hu s Hin).
    destruct (FallbackInv.inv_stars _ _ HI) as [Hact _ _ _].
    rewrite List.Forall_forall in Hact.
    pose proof (FallbackInv.inv_scale _ _ HI) as Hsc. rewrite List.Forall_forall in Hsc.
    destruct (Hsc s Hin (Hact s Hin)) as (k & j & Hk & Hj & Hs & Hzero).
    destruct (scalesBounded_spec _ _ _ _ k j fb_scalesBounded Hk Hj) as (_ & _ & Hpos).
    split; [rewrite Hs; exact Hpos|]. split.
    + destruct (Star.collected s) eqn:Hcol; [now apply Hu|].
      rewrite Hs, (Hzero eq_refl).
      now destruct (scalesBounded_spec _ _ _ _ k O fb_scalesBounded Hk ltac:(lia)) as (_ & H & _).
    + intros Hcol. rewrite Hs, (Hzero Hcol).
      now destruct (scalesBounded_spec _ _ _ _ k O fb_scalesBounded Hk ltac:(lia)) as (H & _).
Qed.

Lemma scale_stays_in_range_witness :
  In Samples.caught (Fallback.stars (fst Samples.played)) /\
  (0 <=? Star.scale Samples.caught)%float = true /\
  (4 <? Star.scale Samples.caught)%float = false.
Proof.
  assert (Hin : In Samples.caught (Fallback.stars (fst Samples.played)))
    by (left; reflexivity).
  split; [exact Hin|].
  destruct (proj1 (proj2 scale_stays_in_range) Samples.canvas2 Samples.noCamera
              (Samples.opening ++ [Fallback.Frame (Samples.quiet 2016)])
              Samples.caught Hin) as (H0 & H4 & _).
  split; assumption.
Defined.

(** ** Stars stay where they were spawned *)

Section Origin.

Context {E : Type}.
Variable callback : E -> Star.t -> E * Star.t * bool * list Event.
Variable R : Star.t -> Star.t -> Prop.

Hypothesis Hstar : forall e s s0, R s s0 -> R (snd (fst (fst (callback e s)))) s0.
Hypothesis Hdraw : forall e s d,
  In (Draw d) (snd (callback e s)) -> d = snd (fst (fst (callback e s))).

Lemma filterWith_traced (l : list Star.t) (e : E) (log : list Event) :
  (forall s, In s l -> exists s0, In (Spawn s0) log /\ R s s0) ->
  forall s, In s (snd (fst (filterWith callback e l))) \/
            In (Draw s) (snd (filterWith callback e l)) ->
            exists s0, In (Spawn s0) log /\ R s s0.
Proof.
  revert e. induction l as [|a rest IH]; intros e Hl s.
  - cbn. intros [[]|[]].
  - cbn [filterWith].
    pose proof (Hstar e a) as Hs. pose proof (Hdraw e a) as Hd.
    destruct (callback e a) as [[[e1 a'] keep] ev]. cbn [fst snd] in Hs, Hd.
    assert (Hrest : forall t, In t rest -> exists s0, In (Spawn s0) log /\ R t s0)
      by (intros t Ht; apply Hl; now right).
    specialize (IH e1 Hrest s).
    destruct (filterWith callback e1 rest) as [[e2 kept] evs]. cbn [fst snd] in *.
    destruct (Hl a (or_introl eq_refl)) as (s0 & Hs0 & Hr).
    assert (Hhere : s = a' -> exists s0, In (Spawn s0) log /\ R s s0).
    { intros ->. exists s0. split; [assumption | now apply Hs]. }
    intros [Hin|Hin].
    + destruct keep; [destruct Hin as [<-|Hin]|]; auto.
    + apply in_app_or in Hin. destruct Hin as [Hin|Hin]; [|auto].
      apply Hhere. now apply Hd.
Qed.

End Origin.

Lemma Traced_frame (R : Star.t -> Star.t -> Prop) (l kept : list Star.t)
    (log spawned evs : list Event) :
  Traced R l log ->
  (forall s, In (Draw s) spawned -> False) ->
  (forall s, In s kept \/ In (Draw s) evs ->
             exists s0, In (Spawn s0) (log ++ spawned) /\ R s s0) ->
  Traced R kept (log ++ spawned ++ evs ++ [RequestFrame]).
Proof.
  intros Hold Hsp Hnew s Hs.
  assert (Hweak : (exists s0, In (Spawn s0) (log ++ spawned) /\ R s s0) ->
                  exists s0, In (Spawn s0) (log ++ spawned ++ evs ++ [RequestFrame]) /\ R s s0).
  { intros (s0 & Hin & Hr). exists s0. split; [|assumption].
    rewrite app_assoc. apply in_or_app. now left. }
  destruct Hs as [Hs|Hs]; [apply Hweak, Hnew; now left|].
  apply in_app_or in Hs. destruct Hs as [Hs|Hs].
  { destruct (Hold s (or_intror Hs)) as (s0 & Hin & Hr). apply Hweak.
    exists s0. split; [apply in_or_app; now left | assumption]. }
  apply in_app_or in Hs. destruct Hs as [Hs|Hs]; [now destruct (Hsp s Hs)|].
  apply in_app_or in Hs. destruct Hs as [Hs|Hs]; [apply Hweak, Hnew; now right|].
  destruct Hs as [Hs|[]]. discriminate.
Qed.

Lemma fallbackSame_refl s : fallbackSame s s.
Proof. repeat split. Qed.

Lemma cameraOnlySame_refl s : cameraOnlySame s s.
Proof. repeat split. Qed.

Lemma fb_visit_same e m s s0 :
  fallbackSame s s0 -> fallbackSame (snd (fst (fst (Fallback.visit e m s)))) s0.
Proof.
  intros ((Hid & Hx & Hy & Hh) & Hsz). unfold Fallback.visit.
  destruct (Star.active s); cbn [negb fst snd]; [|repeat split; assumption].
  assert (Hf : fallbackSame (Fallback.fadeIn s) s0).
  { unfold Fallback.fadeIn. destruct (_ && _); repeat split; assumption. }
  set (s1 := Fallback.fadeIn s) in *.
  assert (Hb : forall t, fallbackSame t s0 -> fallbackSame (Fallback.burst t) s0).
  { intros t ((Hid' & Hx' & Hy' & Hh') & Hsz'). unfold Fallback.burst.
    destruct (Star.collected t); [|repeat split; assumption].
    cbv zeta. destruct (_ <? _)%float; repeat split; assumption. }
  destruct (Fallback.isHit e m s1 && negb (Star.collected s1)); cbn [fst snd].
  - apply Hb. destruct Hf as ((? & ? & ? & ?) & ?). repeat split; assumption.
  - now apply Hb.
Qed.

Lemma co_visit_same e m s s0 :
  cameraOnlySame s s0 -> cameraOnlySame (snd (fst (fst (CameraOnly.visit e m s)))) s0.
Proof.
  intros ((Hid & Hx & Hy & Hh) & Hsz). unfold CameraOnly.visit.
  destruct (Star.active s); cbn [negb fst snd]; [|repeat split; assumption].
  assert (Hf : cameraOnlySame (CameraOnly.fadeIn s) s0).
  { unfold CameraOnly.fadeIn. destruct (_ && _); repeat split; assumption. }
  set (s1 := CameraOnly.fadeIn s) in *.
  assert (Hb : forall t, cameraOnlySame t s0 -> cameraOnlySame (CameraOnly.burst t) s0).
  { intros t ((Hid' & Hx' & Hy' & Hh') & Hsz'). unfold CameraOnly.burst.
    destruct (Star.collected t) eqn:Hc;
      [|split; [repeat split; assumption | intros _; now apply Hsz']].
    cbv zeta. destruct (_ <? _)%float; (split; [repeat split; assumption|]);
      cbn; rewrite Hc; discriminate. }
  destruct (CameraOnly.isHit m s1 && negb (Star.collected s1)); cbn [fst snd].
  - apply Hb. destruct Hf as ((? & ? & ? & ?) & ?).
    split; [repeat split; assumption | discriminate].
  - now apply Hb.
Qed.

Lemma fb_visit_draws e m s d :
  In (Draw d) (snd (Fallback.visit e m s)) -> d = snd (fst (fst (Fallback.visit e m s))).
Proof.
  unfold Fallback.visit.
  destruct (Star.active s); cbn [negb fst snd]; [|intros []].
  destruct (_ && _); cbn [fst snd app In]; intros H;
    repeat (destruct H as [H|H]; try discriminate H; try (now inversion H)); destruct H.
Qed.

Lemma co_visit_draws e m s d :
  In (Draw d) (snd (CameraOnly.visit e m s)) -> d = snd (fst (fst (CameraOnly.visit e m s))).
Proof.
  unfold CameraOnly.visit.
  destruct (Star.active s); cbn [negb fst snd]; [|intros []].
  destruct (_ && _); cbn [fst snd app In]; intros H;
    repeat (destruct H as [H|H]; try discriminate H; try (now inversion H)); destruct H.
Qed.

Lemma fb_gameLoop_traced e env log :
  Traced fallbackSame (Fallback.stars e) log ->
  Traced fallbackSame (Fallback.stars (fst (Fallback.gameLoop e env)))
         (log ++ snd (Fallback.gameLoop e env)).
Proof.
  intros Hold. unfold Fallback.gameLoop.
  destruct (Fallback.isPlaying e); cbn [negb fst snd]; [|now rewrite app_nil_r].
  destruct (FallbackFacts.fb_detectMotion_fields e env) as (Hst & _).
  destruct (Fallback.detectMotion e env) as [e1 m]. cbn [fst] in Hst.
  pose proof (FallbackFacts.fb_spawnStar_cases e1 env) as Hsp.
  destruct (Fallback.spawnStar e1 env) as [e2 spawned].
  pose proof (filterWith_traced (fun e0 s0 => Fallback.visit e0 m s0) fallbackSame
                (fun e0 s s0 => fb_visit_same e0 m s s0)
                (fun e0 s d => fb_visit_draws e0 m s d)
                (Fallback.stars e2) e2 (log ++ spawned)) as Hf.
  unfold Fallback.filterStars.
  destruct (filterWith (fun e0 s0 => Fallback.visit e0 m s0) e2 (Fallback.stars e2))
    as [[e3 kept] evs].
  cbn [fst snd Fallback.stars Fallback.withStars] in *.
  apply (Traced_frame fallbackSame (Fallback.stars e)); [assumption| |].
  - destruct Hsp as [[Heq _]|[Heq _]]; inversion Heq; subst; intros s H; cbn in H; intuition discriminate.
  - apply Hf. intros s Hs.
    destruct Hsp as [[Heq _]|[Heq _]]; inversion Heq; subst.
    + rewrite app_nil_r. apply Hold. left. now rewrite <- Hst.
    + cbn [Fallback.stars Fallback.pushStar] in Hs. apply in_app_or in Hs.
      destruct Hs as [Hs|[<-|[]]].
      * destruct (Hold s) as (s0 & Hin & Hr); [left; now rewrite <- Hst|].
        exists s0. split; [apply in_or_app; now left | assumption].
      * exists (Fallback.newStar env).
        split; [apply in_or_app; right; now left | apply fallbackSame_refl].
Qed.

Lemma co_gameLoop_traced e env log :
  Traced cameraOnlySame (CameraOnly.stars e) log ->
  Traced cameraOnlySame (CameraOnly.stars (fst (CameraOnly.gameLoop e env)))
         (log ++ snd (CameraOnly.gameLoop e env)).
Proof.
  intros Hold. unfold CameraOnly.gameLoop.
  destruct (CameraOnly.isPlaying e); cbn [negb fst snd]; [|now rewrite app_nil_r].
  destruct (CameraOnlyFacts.co_detectMotion_fields e env) as (Hst & _).
  destruct (CameraOnly.detectMotion e env) as [e1 m]. cbn [fst] in Hst.
  pose proof (CameraOnlyFacts.co_spawnStar_cases e1 env) as Hsp.
  destruct (CameraOnly.spawnStar e1 env) as [e2 spawned].
  pose proof (filterWith_traced (fun e0 s0 => CameraOnly.visit e0 m s0) cameraOnlySame
                (fun e0 s s0 => co_visit_same e0 m s s0)
                (fun e0 s d => co_visit_draws e0 m s d)
                (CameraOnly.stars e2) e2 (log ++ spawned)) as Hf.
  unfold CameraOnly.filterStars.
  destruct (filterWith (fun e0 s0 => CameraOnly.visit e0 m s0) e2 (CameraOnly.stars e2))
    as [[e3 kept] evs].
  cbn [fst snd CameraOnly.stars CameraOnly.withStars] in *.
  apply (Traced_frame cameraOnlySame (CameraOnly.stars e)); [assumption| |].
  - destruct Hsp as [[Heq _]|[Heq _]]; inversion Heq; subst; intros s H; cbn in H; intuition discriminate.
  - apply Hf. intros s Hs.
    destruct Hsp as [[Heq _]|[Heq _]]; inversion Heq; subst.
    + rewrite app_nil_r. apply Hold. left. now rewrite <- Hst.
    + cbn [CameraOnly.stars CameraOnly.pushStar] in Hs. apply in_app_or in Hs.
      destruct Hs as [Hs|[<-|[]]].
      * destruct (Hold s) as (s0 & Hin & Hr); [left; now rewrite <- Hst|].
        exists s0. split; [apply in_or_app; now left | assumption].
      * exists (CameraOnly.newStar env).
        split; [apply in_or_app; right; now left | apply cameraOnlySame_refl].
Qed.

Lemma Traced_nil (R : Star.t -> Star.t -> Prop) : Traced R [] [].
Proof. intros s [[]|[]]. Qed.

Lemma fb_run_traced inputs e log :
  Traced fallbackSame (Fallback.stars e) log ->
  Traced fallbackSame (Fallback.stars (fst (Fallback.run (e, log) inputs)))
         (snd (Fallback.run (e, log) inputs)).
Proof.
  unfold Fallback.run. revert e log.
  induction inputs as [|i inputs IH]; intros e log Hold; [exact Hold|].
  cbn [fold_left Fallback.step].
  assert (Hstep : Traced fallbackSame (Fallback.stars (fst (Fallback.react e i)))
                         (if Fallback.opens e i then snd (Fallback.react e i)
                          else log ++ snd (Fallback.react e i))).
  { destruct i as [env|ev w h|env]; cbn [Fallback.react Fallback.opens].
    - unfold Fallback.start. destruct (Fallback.isPlaying e); cbn [negb fst snd].
      + now rewrite app_nil_r.
      + apply (fb_gameLoop_traced (Fallback.begin e) env []). apply Traced_nil.
    - cbn [fst snd]. rewrite app_nil_r.
      now destruct (FallbackFacts.fb_dispatch_fields e ev w h) as (-> & _).
    - now apply fb_gameLoop_traced. }
  destruct (Fallback.react e i) as [e' evs]. now apply IH.
Qed.

Lemma co_run_traced inputs e log :
  Traced cameraOnlySame (CameraOnly.stars e) log ->
  Traced cameraOnlySame (CameraOnly.stars (fst (CameraOnly.run (e, log) inputs)))
         (snd (CameraOnly.run (e, log) inputs)).
Proof.
  unfold CameraOnly.run. revert e log.
  induction inputs as [|i inputs IH]; intros e log Hold; [exact Hold|].
  cbn [fold_left CameraOnly.step].
  assert (Hstep : Traced cameraOnlySame (CameraOnly.stars (fst (CameraOnly.react e i)))
                         (if CameraOnly.opens i then snd (CameraOnly.react e i)
                          else log ++ snd (CameraOnly.react e i))).
  { destruct i as [env|env]; cbn [CameraOnly.react CameraOnly.opens].
    - unfold CameraOnly.start.
      apply (co_gameLoop_traced (CameraOnly.begin e) env []). apply Traced_nil.
    - now apply co_gameLoop_traced. }
  destruct (CameraOnly.react e i) as [e' evs]. now apply IH.
Qed.

(** X7: stars never move.  In every state a session reaches, every star of
    the collection and every star the session has drawn is a star the
    session spawned, with the identifier, the position and the hue it was
    spawned with: the frame loop writes only [scale], [collected], [active]
    and, in the camera-only engine, [size].  The engine with a fallback
    keeps the size as well; the camera-only engine keeps it until the star
    is collected. *)
Theorem stars_never_move :
  (forall c inputs s,
     In s (CameraOnly.stars (fst (CameraOnly.session c inputs))) \/
     In (Draw s) (snd (CameraOnly.session c inputs)) ->
     exists s0, In (Spawn s0) (snd (CameraOnly.session c inputs)) /\
                Star.id s = Star.id s0 /\ Star.x s = Star.x s0 /\
                Star.y s = Star.y s0 /\ Star.hue s = Star.hue s0 /\
                (Star.collected s = false -> Star.size s = Star.size s0)) /\
  (forall c p inputs s,
     In s (Fallback.stars (fst (Fallback.session c p inputs))) \/
     In (Draw s) (snd (Fallback.session c p inputs)) ->
     exists s0, In (Spawn s0) (snd (Fallback.session c p inputs)) /\
                Star.id s = Star.id s0 /\ Star.x s = Star.x s0 /\
                Star.y s = Star.y s0 /\ Star.hue s = Star.hue s0 /\
                Star.size s = Star.size s0).
Proof.
  split.
  - intros c inputs s Hs.
    destruct (co_run_traced inputs (CameraOnly.new c) [] (Traced_nil _) s Hs)
      as (s0 & Hin & (Hid & Hx & Hy & Hh) & Hsz).
    exists s0. repeat split; assumption.
  - intros c p inputs s Hs.
    assert (Hboot : Traced fallbackSame (Fallback.stars (Fallback.boot c p)) []).
    { unfold Fallback.boot.
      destruct (FallbackFacts.fb_init_total (Fallback.new c) p) as [e' He'].
      rewrite He'.
      destruct (FallbackFacts.fb_init_fields _ _ _ He') as (Hst & _).
      rewrite Hst. apply Traced_nil. }
    destruct (fb_run_traced inputs (Fallback.boot c p) [] Hboot s Hs)
      as (s0 & Hin & (Hid & Hx & Hy & Hh) & Hsz).
    exists s0. repeat split; assumption.
Qed.

Lemma stars_never_move_witness :
  exists s0, In (Spawn s0) (snd Samples.played) /\
             Star.x Samples.caught = Star.x s0 /\ Star.y Samples.caught = Star.y s0.
Proof.
  destruct (proj2 stars_never_move Samples.canvas2 Samples.noCamera
              (Samples.opening ++ [Fallback.Frame (Samples.quiet 2016)])
              Samples.caught (or_introl (or_introl eq_refl)))
    as (s0 & Hin & _ & Hx & Hy & _).
  exists s0. repeat split; assumption.
Defined.

(** ** What [init] leaves *)

(** X8: the engine with a fallback after [init], for every answer of the
    platform.  The camera is active exactly when a stream was obtained, by
    the first request or by the retry, and the video plays; the video is
    hidden exactly when a fallback notice is shown, and never when the
    camera is active; the notice is "unsupported" exactly when
    [getUserMedia] is missing; when both requests are rejected the notice
    is chosen by the name of the second error alone, and when the video
    does not play by the name of that error; a first request that is
    rejected is rescued by a second one that succeeds; and [init] leaves
    the game itself (stars, score, playing flag, pointer) as constructed. *)
Theorem init_outcomes :
  forall (c : Canvas.t) (p : Fallback.Probe),
    let e := Fallback.boot c p in
    let reason name :=
      if String.eqb name "NotFoundError" then Fallback.NoCamera else Fallback.Restricted in
    Fallback.cameraActive e = Fallback.acquired p /\
    (Fallback.videoHidden e = true <-> Fallback.notice e <> None) /\
    (Fallback.cameraActive e = true -> Fallback.notice e = None) /\
    (Fallback.notice e = Some Fallback.Unsupported <-> Fallback.hasGetUserMedia p = false) /\
    (forall n1 n2, Fallback.hasGetUserMedia p = true ->
                   Fallback.firstRequest p = Fallback.Rejected n1 ->
                   Fallback.secondRequest p = Fallback.Rejected n2 ->
                   Fallback.notice e = Some (reason n2)) /\
    (forall n, Fallback.hasGetUserMedia p = true ->
               Fallback.acquire p = Fallback.Resolved true ->
               Fallback.play p = Fallback.Rejected n ->
               Fallback.notice e = Some (reason n)) /\
    (forall n1 u, Fallback.hasGetUserMedia p = true ->
                  Fallback.firstRequest p = Fallback.Rejected n1 ->
                  Fallback.secondRequest p = Fallback.Resolved true ->
                  Fallback.play p = Fallback.Resolved u ->
                  Fallback.cameraActive e = true /\ Fallback.videoHidden e = false) /\
    Fallback.stars e = [] /\ Fallback.score e = 0 /\ Fallback.isPlaying e = false /\
    Fallback.lastTouchX e = (-1)%float /\ Fallback.lastTouchY e = (-1)%float.
Proof.
  intros c [has first second play]. cbv zeta.
  unfold Fallback.boot, Fallback.init, Fallback.tryCamera, Fallback.acquired, Fallback.acquire.
  cbn [Fallback.hasGetUserMedia Fallback.firstRequest Fallback.secondRequest Fallback.play].
  destruct has; cbn [negb andb].
  2:{ cbn. repeat split; try congruence; try discriminate. }
  destruct first as [[|]|n1]; [| |destruct second as [[|]|n2]];
    try destruct play as [u|n]; cbn;
    repeat split; try congruence; try discriminate;
    try (intros ? ? ? H; now inversion H); try (intros ? ? H; now inversion H);
    try (intros ? ? ? H1 H2; inversion H1; inversion H2; reflexivity);
    try (intros H; now destruct (String.eqb _ _)).
Qed.
